(** * Whisker search core: MOSA, random search, crossover and configuration

    A shallow embedding of the search-based test generation core of Whisker
    (TypeScript) and the properties its specification states about it.

    Conventions of the embedding:
    - a chromosome is an immutable JavaScript object; the type [C] of
      chromosomes is the type of object references, so equality on [C] is
      reference identity ([===], [List.contains], [Map] keys);
    - a [Map<number, V>] is a [JsMap.t V]: its entries in insertion order;
    - a [Map<C, V>] that is only read and written by key is a [gmap C V];
    - lengths and map keys are integers ([Z]); fitness values are kept
      abstract (the algorithms only hand them to [isOptimal] and [compare]);
    - randomness, the clock and the variation operators thread an abstract
      world of type [World]. *)

From Stdlib Require Import ZArith QArith Qround Lia Permutation Sorted.
From stdpp Require Import gmap strings list.

Local Open Scope Z_scope.

(** ** JavaScript [Map<number, V>]: entries in insertion order *)

Module JsMap.

Definition t (V : Type) : Type := list (Z * V).

Definition empty {V} : t V := [].

Fixpoint get {V} (k : Z) (m : t V) : option V :=
  match m with
  | [] => None
  | (k', v) :: m' => if Z.eqb k' k then Some v else get k m'
  end.

Definition has {V} (k : Z) (m : t V) : bool :=
  match get k m with Some _ => true | None => false end.

(** [set] overwrites the value in place when the key is present and appends
    a new entry otherwise, as [Map.prototype.set] does. *)
Fixpoint set {V} (k : Z) (v : V) (m : t V) : t V :=
  match m with
  | [] => [(k, v)]
  | (k', v') :: m' => if Z.eqb k' k then (k, v) :: m' else (k', v') :: set k v m'
  end.

Definition keys {V} (m : t V) : list Z := map fst m.

Definition values {V} (m : t V) : list V := map snd m.

Definition size {V} (m : t V) : nat := length m.

End JsMap.

(** ** The [List] helper class

    Modelled from the spec: the class [List] of [utils/List] is not part of
    the sources at hand; it wraps a JavaScript array.  [contains] and
    [remove] compare by identity, [remove] deletes the first occurrence,
    [distinct] keeps first occurrences, [subList] is [Array.slice]. *)

Module JsList.

Section WithEq.
Context {A : Type} `{EqDecision A}.

Definition contains (l : list A) (x : A) : bool := bool_decide (x ∈ l).

Fixpoint remove (x : A) (l : list A) : list A :=
  match l with
  | [] => []
  | y :: l' => if decide (y = x) then l' else y :: remove x l'
  end.

Fixpoint distinct (l : list A) : list A :=
  match l with
  | [] => []
  | x :: l' => x :: filter (fun y => y ≠ x) (distinct l')
  end.

End WithEq.

Definition subList {A} (from to : Z) (l : list A) : list A :=
  take (Z.to_nat to - Z.to_nat from)%nat (drop (Z.to_nat from) l).

End JsList.

(** ** Effects

    A computation that reads and advances the world and may throw
    ([None]): the only exceptions the modelled loops can meet are the
    [TypeError]s of using an absent list element. *)

Module Eff.

Definition M (World A : Type) : Type := World -> option (A * World).

Definition ret {World A} (a : A) : M World A := fun w => Some (a, w).

Definition bind {World A B} (m : M World A) (k : A -> M World B) : M World B :=
  fun w => match m w with
           | Some (a, w') => k a w'
           | None => None
           end.

Definition lift {World A} (f : World -> A * World) : M World A :=
  fun w => Some (f w).

Definition throw {World A} : M World A := fun _ => None.

Definition orThrow {World A} (o : option A) : M World A :=
  match o with Some a => ret a | None => throw end.

Notation "x <- m ;; k" := (bind m (fun x => k))
  (at level 62, m at next level, right associativity).

End Eff.

(** ** MOSA *)

Definition MAX_SAFE_INTEGER : Z := 2 ^ 53 - 1.

(** The interface [FitnessFunction<C>] as MOSA uses it. *)
Record FitnessFunction (C number : Type) : Type := {
  getFitness : C -> number;
  isOptimal : number -> bool;
  compare : number -> number -> Z
}.
Arguments getFitness {C number} _ _.
Arguments isOptimal {C number} _ _.
Arguments compare {C number} _ _ _.

Module MOSA.
Import Eff.

Section Archive.
Context {C number : Type} `{Countable C}.
Variable getLength : C -> Z.
Variable fitnessFunctions : JsMap.t (FitnessFunction C number).

(** The length the inner loop of [updateArchive] starts from. *)
Definition currentLength (key : Z) (archive : JsMap.t C) : Z :=
  match JsMap.get key archive with
  | Some c => getLength c
  | None => MAX_SAFE_INTEGER
  end.

(** One turn of the inner loop of [updateArchive]: the loop state is the
    local [bestLength] and the archive. *)
Definition consider (key : Z) (ff : FitnessFunction C number)
    (st : Z * JsMap.t C) (candidateChromosome : C) : Z * JsMap.t C :=
  let '(bestLength, archive) := st in
  let candidateFitness := getFitness ff candidateChromosome in
  let candidateLength := getLength candidateChromosome in
  if isOptimal ff candidateFitness && (candidateLength <? bestLength)
  then (candidateLength, JsMap.set key candidateChromosome archive)
  else (bestLength, archive).

(** The body of the outer loop of [updateArchive] for one key.  The key
    comes from [keys()], so [get] finds its fitness function. *)
Definition updateArchiveFor (chromosomes : list C) (archive : JsMap.t C)
    (fitnessFunctionKey : Z) : JsMap.t C :=
  match JsMap.get fitnessFunctionKey fitnessFunctions with
  | Some fitnessFunction =>
      snd (foldl (consider fitnessFunctionKey fitnessFunction)
                 (currentLength fitnessFunctionKey archive, archive)
                 chromosomes)
  | None => archive
  end.

Definition updateArchive (archive : JsMap.t C) (chromosomes : list C)
    : JsMap.t C :=
  foldl (updateArchiveFor chromosomes) archive (JsMap.keys fitnessFunctions).

(** [dominates]: the loop carries [dominatesAtLeastOnce]; [None] is the
    early [return false]. *)
Definition dominatesStep (archive : JsMap.t C) (chromosome1 chromosome2 : C)
    (acc : option bool) (fitnessFunctionKey : Z) : option bool :=
  match acc with
  | None => None
  | Some dominatesAtLeastOnce =>
      if negb (JsMap.has fitnessFunctionKey archive) then
        match JsMap.get fitnessFunctionKey fitnessFunctions with
        | Some fitnessFunction =>
            let fitness1 := getFitness fitnessFunction chromosome1 in
            let fitness2 := getFitness fitnessFunction chromosome2 in
            let compareValue := compare fitnessFunction fitness1 fitness2 in
            if compareValue <? 0 then None
            else if compareValue >? 0 then Some true
            else Some dominatesAtLeastOnce
        | None => Some dominatesAtLeastOnce
        end
      else Some dominatesAtLeastOnce
  end.

Definition dominates (archive : JsMap.t C) (chromosome1 chromosome2 : C)
    : bool :=
  match foldl (dominatesStep archive chromosome1 chromosome2) (Some false)
              (JsMap.keys fitnessFunctions) with
  | Some dominatesAtLeastOnce => dominatesAtLeastOnce
  | None => false
  end.

End Archive.

(** *** The collaborators of the search loop

    Everything MOSA calls but does not define: the search properties, the
    process-wide [Randomness], [List.shuffle], the selection operator and
    the chromosome's own [crossover] and [mutate], the chromosome
    generator.  Each effectful collaborator reads and advances the world. *)
Record Collaborators (C World : Type) : Type := {
  getPopulationSize : Z;
  getCrossoverProbability : Q;
  getMutationProbablity : Q;
  nextDouble : World -> Q * World;
  nextInt : Z -> Z -> World -> Z * World;
  shuffle : list C -> World -> list C * World;
  selectionOperator : list C -> World -> C * World;
  crossover : C -> C -> World -> (C * C) * World;
  mutate : C -> World -> C * World;
  chromosomeGenerator : World -> C * World
}.
Arguments getPopulationSize {C World} _.
Arguments getCrossoverProbability {C World} _.
Arguments getMutationProbablity {C World} _.
Arguments nextDouble {C World} _ _.
Arguments nextInt {C World} _ _ _ _.
Arguments shuffle {C World} _ _ _.
Arguments selectionOperator {C World} _ _ _.
Arguments crossover {C World} _ _ _ _.
Arguments mutate {C World} _ _ _.
Arguments chromosomeGenerator {C World} _ _.

(** The fields of a [MOSA] object that the loop updates. *)
Record Fields (C : Type) : Type := {
  _iterations : Z;
  _bestIndividuals : list C;
  _archive : JsMap.t C
}.
Arguments _iterations {C} _.
Arguments _bestIndividuals {C} _.
Arguments _archive {C} _.

Definition Qltb (a b : Q) : bool := negb (Qle_bool b a).

(** Stable sort ascending by an integer key: [Array.prototype.sort] with
    the comparator [(c1, c2) => key(c1) - key(c2)]. *)
Fixpoint insertByKey {A} (key : A -> Z) (x : A) (l : list A) : list A :=
  match l with
  | [] => [x]
  | y :: l' => if key y <? key x then y :: insertByKey key x l'
               else x :: y :: l'
  end.

Definition sortByKey {A} (key : A -> Z) (l : list A) : list A :=
  foldr (insertByKey key) [] l.

Section Sorting.
Context {C number : Type} `{Countable C}.
Variable getLength : C -> Z.
Variable fitnessFunctions : JsMap.t (FitnessFunction C number).
Variable populationSize : Z.

(** The inner loop of [preferenceSorting]: the state is [bestChromosome]
    and [bestFitness]. *)
Definition betterStep (fitnessFunction : FitnessFunction C number)
    (st : C * number) (candidateChromosome : C) : C * number :=
  let '(bestChromosome, bestFitness) := st in
  let candidateFitness := getFitness fitnessFunction candidateChromosome in
  let compareValue := compare fitnessFunction candidateFitness bestFitness in
  if (compareValue >? 0)
     || ((compareValue =? 0)
         && (getLength candidateChromosome <? getLength bestChromosome))
  then (candidateChromosome, candidateFitness)
  else (bestChromosome, bestFitness).

(** [chromosomes.get(0)] is undefined on the empty list: [None]. *)
Definition bestFor (fitnessFunction : FitnessFunction C number)
    (chromosomes : list C) : option C :=
  match chromosomes with
  | [] => None
  | first :: rest =>
      Some (fst (foldl (betterStep fitnessFunction)
                       (first, getFitness fitnessFunction first) rest))
  end.

(** The outer loop of [preferenceSorting]: the state is [bestFront] and
    [chromosomesForNonDominatedSorting]. *)
Definition preferenceStep (archive : JsMap.t C) (chromosomes : list C)
    (acc : option (list C * list C)) (fitnessFunctionKey : Z)
    : option (list C * list C) :=
  match acc with
  | None => None
  | Some (bestFront, chromosomesForNonDominatedSorting) =>
      if negb (JsMap.has fitnessFunctionKey archive) then
        match JsMap.get fitnessFunctionKey fitnessFunctions with
        | Some fitnessFunction =>
            match bestFor fitnessFunction chromosomes with
            | Some bestChromosome =>
                if negb (JsList.contains bestFront bestChromosome)
                then Some (bestFront ++ [bestChromosome],
                           JsList.remove bestChromosome
                                         chromosomesForNonDominatedSorting)
                else acc
            | None => None
            end
        | None => acc
        end
      else acc
  end.

(** [fastNonDominatedSorting], first loop: for every position [p] of the
    list, the list of positions it dominates and the number of positions
    that dominate it; both maps are keyed by the chromosome. *)
Definition dominationOf (archive : JsMap.t C) (chromosomes : list C) (p : C)
    : list C * Z :=
  foldl (fun '(dominatedValuesP, dominationCountP) q =>
           if MOSA.dominates fitnessFunctions archive p q
           then (dominatedValuesP ++ [q], dominationCountP)
           else if MOSA.dominates fitnessFunctions archive q p
           then (dominatedValuesP, dominationCountP + 1)
           else (dominatedValuesP, dominationCountP))
        ([], 0) chromosomes.

Definition dominationStep (archive : JsMap.t C) (chromosomes : list C)
    (st : gmap C (list C) * gmap C Z * list C) (p : C)
    : gmap C (list C) * gmap C Z * list C :=
  let '(dominatedValues, dominationCount, firstFront) := st in
  let '(dominatedValuesP, dominationCountP) :=
    dominationOf archive chromosomes p in
  (<[p := dominatedValuesP]> dominatedValues,
   <[p := dominationCountP]> dominationCount,
   if dominationCountP =? 0 then firstFront ++ [p] else firstFront).

Definition dominationTables (archive : JsMap.t C) (chromosomes : list C)
    : gmap C (list C) * gmap C Z * list C :=
  foldl (dominationStep archive chromosomes) (∅, ∅, []) chromosomes.

(** Second loop, its body for one [currentFront].  Every key read here was
    entered in both maps by the first loop; the defaults stand for the
    [undefined] of an absent key (as a count it never becomes 0). *)
Definition releaseStep (st : gmap C Z * list C) (q : C) : gmap C Z * list C :=
  let '(dominationCount, nextFront) := st in
  let dominationCountQ := default 0 (dominationCount !! q) - 1 in
  (<[q := dominationCountQ]> dominationCount,
   if dominationCountQ =? 0 then nextFront ++ [q] else nextFront).

Definition nextFrontOf (dominatedValues : gmap C (list C))
    (dominationCount : gmap C Z) (currentFront : list C)
    : gmap C Z * list C :=
  foldl (fun st p => foldl releaseStep st (default [] (dominatedValues !! p)))
        (dominationCount, []) currentFront.

(** [while (currentFront.size() > 0)]: [None] when the fuel runs out
    before the front is empty. *)
Fixpoint frontsLoop (fuel : nat) (dominatedValues : gmap C (list C))
    (dominationCount : gmap C Z) (currentFront : list C)
    (fronts : list (list C)) : option (list (list C)) :=
  match currentFront with
  | [] => Some fronts
  | _ :: _ =>
      match fuel with
      | O => None
      | S fuel' =>
          let '(dominationCount', nextFront) :=
            nextFrontOf dominatedValues dominationCount currentFront in
          frontsLoop fuel' dominatedValues dominationCount' nextFront
                     (fronts ++ [currentFront])
      end
  end.

Definition fastNonDominatedSorting (archive : JsMap.t C)
    (chromosomes : list C) : option (list (list C)) :=
  let '(dominatedValues, dominationCount, firstFront) :=
    dominationTables archive chromosomes in
  frontsLoop (S (length chromosomes)) dominatedValues dominationCount
             firstFront [].

Definition preferenceSorting (archive : JsMap.t C) (chromosomes : list C)
    : option (list (list C)) :=
  match foldl (preferenceStep archive chromosomes) (Some ([], chromosomes))
              (JsMap.keys fitnessFunctions) with
  | None => None
  | Some (bestFront, chromosomesForNonDominatedSorting) =>
      let fronts := if (0 <? Z.of_nat (length bestFront)) then [bestFront]
                    else [] in
      if populationSize <? Z.of_nat (length bestFront)
      then Some (fronts ++ [chromosomesForNonDominatedSorting])
      else match fastNonDominatedSorting archive
                   chromosomesForNonDominatedSorting with
           | Some rest => Some (fronts ++ rest)
           | None => None
           end
  end.

Definition calculateSVD (chromosome1 chromosome2 : C) : Z :=
  foldl (fun svd fitnessFunction =>
           let fitness1 := getFitness fitnessFunction chromosome1 in
           let fitness2 := getFitness fitnessFunction chromosome2 in
           let compareValue := compare fitnessFunction fitness1 fitness2 in
           if compareValue <? 0 then svd + 1 else svd)
        0 (JsMap.values fitnessFunctions).

(** The [distances] map of [subVectorDominanceSorting]. *)
Definition svdDistances (front : list C) : gmap C Z :=
  foldl (fun distances chromosome1 =>
           foldl (fun distances chromosome2 =>
                    if decide (chromosome1 ≠ chromosome2) then
                      let svd := calculateSVD chromosome1 chromosome2 in
                      if default 0 (distances !! chromosome1) <? svd
                      then <[chromosome1 := svd]> distances
                      else distances
                    else distances)
                 (<[chromosome1 := 0]> distances) front)
        ∅ front.

End Sorting.

Section Loop.
Context {C number World : Type} `{Countable C}.
Variable getLength : C -> Z.
Variable fitnessFunctions : JsMap.t (FitnessFunction C number).
Variable env : Collaborators C World.
(** [StoppingCondition.isFinished(this)]: it sees the fields and the world
    (the clock). *)
Variable isFinished : Fields C -> World -> bool * World.

Definition selectChromosome (population : list C) (useRankSelection : bool)
    : M World C :=
  if useRankSelection then lift (selectionOperator env population)
  else
    randomIndex <- lift (nextInt env 0 (Z.of_nat (length population))) ;;
    if randomIndex <? 0 then throw
    else orThrow (population !! Z.to_nat randomIndex).

(** One turn of the loop of [generateOffspringPopulation]; it ends with
    [offspringPopulation.add(child1)]. *)
Definition offspringPair (parentPopulation : list C) (useRankSelection : bool)
    : M World (C * C) :=
  parent1 <- selectChromosome parentPopulation useRankSelection ;;
  parent2 <- selectChromosome parentPopulation useRankSelection ;;
  r1 <- lift (nextDouble env) ;;
  children <-
    (if Qltb r1 (getCrossoverProbability env)
     then lift (crossover env parent1 parent2)
     else ret (parent1, parent2)) ;;
  let '(child1, child2) := children in
  r2 <- lift (nextDouble env) ;;
  child1 <- (if Qltb r2 (getMutationProbablity env)
             then lift (mutate env child1) else ret child1) ;;
  r3 <- lift (nextDouble env) ;;
  child2 <- (if Qltb r3 (getMutationProbablity env)
             then lift (mutate env child2) else ret child2) ;;
  ret (child1, child2).

(** [while (offspringPopulation.size() < parentPopulation.size())]: the
    recursion is on the variant [remaining], the number of chromosomes
    still missing. *)
Fixpoint offspringLoop (remaining : nat) (parentPopulation : list C)
    (useRankSelection : bool) (offspringPopulation : list C)
    : M World (list C) :=
  match remaining with
  | O => ret offspringPopulation
  | S remaining1 =>
      children <- offspringPair parentPopulation useRankSelection ;;
      let '(child1, child2) := children in
      let offspringPopulation := offspringPopulation ++ [child1] in
      match remaining1 with
      | O => ret offspringPopulation
      | S remaining2 =>
          offspringLoop remaining2 parentPopulation useRankSelection
                        (offspringPopulation ++ [child2])
      end
  end.

Definition generateOffspringPopulation (parentPopulation : list C)
    (useRankSelection : bool) : M World (list C) :=
  offspringLoop (length parentPopulation) parentPopulation useRankSelection [].

Definition subVectorDominanceSorting (front : list C) : M World (list C) :=
  let distances := svdDistances fitnessFunctions front in
  shuffled <- lift (shuffle env front) ;;
  ret (sortByKey (fun c => default 0 (distances !! c)) shuffled).

(** [for (let front of fronts)] with its [break]. *)
Fixpoint fillPopulation (fronts : list (list C)) (parentPopulation : list C)
    : M World (list C) :=
  match fronts with
  | [] => ret parentPopulation
  | front :: fronts' =>
      front <- subVectorDominanceSorting front ;;
      if Z.of_nat (length parentPopulation) + Z.of_nat (length front)
           <=? getPopulationSize env
      then fillPopulation fronts' (parentPopulation ++ front)
      else ret (parentPopulation
                  ++ JsList.subList 0
                       (getPopulationSize env
                          - Z.of_nat (length parentPopulation)) front)
  end.

(** The body of the [while] loop of [findSolution]. *)
Definition iteration (st : Fields C * list C) : M World (Fields C * list C) :=
  let '(this, parentPopulation) := st in
  offspringPopulation <-
    generateOffspringPopulation parentPopulation (0 <? _iterations this) ;;
  let archive := updateArchive getLength fitnessFunctions (_archive this)
                               offspringPopulation in
  let chromosomes := parentPopulation ++ offspringPopulation in
  fronts <- orThrow (preferenceSorting getLength fitnessFunctions
                       (getPopulationSize env) archive chromosomes) ;;
  parentPopulation <- fillPopulation fronts [] ;;
  let archive := updateArchive getLength fitnessFunctions archive
                               parentPopulation in
  let parentPopulation := reverse parentPopulation in
  ret ({| _iterations := _iterations this + 1;
          _bestIndividuals := JsList.distinct (JsMap.values archive);
          _archive := archive |},
       parentPopulation).

(** Modelled from the spec: [PopulationFactory.generate] is not part of the
    sources at hand; "Initialize parent population of size N via
    generator". *)
Fixpoint generatePopulation (size : nat) : M World (list C) :=
  match size with
  | O => ret []
  | S size' =>
      c <- lift (chromosomeGenerator env) ;;
      rest <- generatePopulation size' ;;
      ret (c :: rest)
  end.

(** [findSolution] up to its loop: the archive and the best individuals
    are cleared, the iteration counter is kept. *)
Definition initialise (this : Fields C) : M World (Fields C * list C) :=
  parentPopulation <- generatePopulation (Z.to_nat (getPopulationSize env)) ;;
  ret ({| _iterations := _iterations this;
          _bestIndividuals := [];
          _archive := updateArchive getLength fitnessFunctions JsMap.empty
                                    parentPopulation |},
       parentPopulation).

(** The state of the loop after [n] turns, whatever the stopping condition
    says. *)
Fixpoint iterate (n : nat) (st : Fields C * list C)
    : M World (Fields C * list C) :=
  match n with
  | O => ret st
  | S n' => st' <- iteration st ;; iterate n' st'
  end.

(** The loop with its stopping condition; [fuel] bounds the number of
    turns. *)
Fixpoint searchLoop (fuel : nat) (st : Fields C * list C)
    : M World (Fields C * list C) :=
  finished <- lift (isFinished (fst st)) ;;
  if (finished : bool) then ret st
  else match fuel with
       | O => throw
       | S fuel' => st' <- iteration st ;; searchLoop fuel' st'
       end.

Definition findSolution (fuel : nat) (this : Fields C) : M World (list C) :=
  st <- initialise this ;;
  st' <- searchLoop fuel st ;;
  ret (_bestIndividuals (fst st')).

End Loop.

End MOSA.

(** ** SinglePointRelativeCrossover *)

Module SinglePointRelativeCrossover.

Section Genes.
Context {G : Type}.

(** Modelled from the spec: the operator's source is not part of the
    sources at hand (only its test is).  "Pick relative cut point r in
    (0,1); each parent is cut at floor(r * parentLength)." *)
Definition cutPoint (r : Q) (parentLength : nat) : nat :=
  Z.to_nat (Qfloor (r * inject_Z (Z.of_nat parentLength))).

(** Modelled from the spec: the tails behind the two cut points are
    swapped, as for SinglePointCrossover ("swap tails"). *)
Definition swapTails (pos1 pos2 : nat) (parent1 parent2 : list G)
    : list G * list G :=
  (take pos1 parent1 ++ drop pos2 parent2,
   take pos2 parent2 ++ drop pos1 parent1).

(** Modelled from the spec: [apply], with [r] the draw of the randomness
    source. *)
Definition apply (r : Q) (parent1 parent2 : list G) : list G * list G :=
  let pos1 := cutPoint r (length parent1) in
  let pos2 := cutPoint r (length parent2) in
  swapTails pos1 pos2 parent1 parent2.

End Genes.

End SinglePointRelativeCrossover.

(** ** JavaScript values of a parsed configuration *)

Module Js.

#[local] Unset Elimination Schemes.
Inductive value : Type :=
| VUndefined
| VNull
| VBool (b : bool)
| VNum (q : Q)
| VStr (s : string)
| VArr (elements : list value)
| VObj (properties : list (string * value)).
#[local] Set Elimination Schemes.

(** The own property [k] of an object literal; [undefined] when absent. *)
Fixpoint lookup (k : string) (properties : list (string * value)) : value :=
  match properties with
  | [] => VUndefined
  | (k', v) :: rest => if String.eqb k' k then v else lookup k rest
  end.

Fixpoint hasKey (k : string) (properties : list (string * value)) : bool :=
  match properties with
  | [] => false
  | (k', _) :: rest => String.eqb k' k || hasKey k rest
  end.

(** [v === s] for a string literal [s]. *)
Definition strictEqStr (v : value) (s : string) : bool :=
  match v with
  | VStr s' => String.eqb s' s
  | _ => false
  end.

(** [v == s] for a string literal [s] that is not empty, holds no comma and
    is neither a numeral nor the text of a boolean or of an object: a
    string equal to [s], or an array that prints as [s] (a one-element
    array around such a value). *)
Fixpoint looseEqStr (v : value) (s : string) : bool :=
  match v with
  | VStr s' => String.eqb s' s
  | VArr [x] => looseEqStr x s
  | _ => false
  end.

End Js.

(** ** Exceptions *)

(** The message of an [IllegalArgumentException] is a literal followed by
    the printed value; the value is kept as it is. *)
Inductive Exception : Type :=
| TypeError
| NotSupportedFunctionException
| IllegalArgumentException (message : string) (appended : Js.value)
| ConfigException (message : string).

Module Exn.

Definition R (A : Type) : Type := Exception + A.

Definition ok {A} (a : A) : R A := inr a.

Definition raise {A} (e : Exception) : R A := inl e.

Definition bind {A B} (m : R A) (k : A -> R B) : R B :=
  match m with
  | inl e => inl e
  | inr a => k a
  end.

Notation "x <~ m ;; k" := (bind m (fun x => k))
  (at level 62, m at next level, right associativity).

(** [v[k]] for one of the keys the configuration reads (none of them is an
    index, [length] or a name of a prototype): a [TypeError] on
    [undefined] and [null], the own property of an object, [undefined] on
    everything else. *)
Definition getProp (v : Js.value) (k : string) : R Js.value :=
  match v with
  | Js.VUndefined | Js.VNull => raise TypeError
  | Js.VObj properties => ok (Js.lookup k properties)
  | _ => ok Js.VUndefined
  end.

End Exn.

(** ** The enum [SearchAlgorithmType] *)

Module SearchAlgorithmType.

Inductive t : Type := RANDOM | MOSA | MIO | ONE_PLUS_ONE.

(** [SearchAlgorithmType.NAME]: the member of that name; an undeclared
    name reads [undefined] ([None]) from the enum object. *)
Definition member (name : string) : option t :=
  if String.eqb name "RANDOM" then Some RANDOM
  else if String.eqb name "MOSA" then Some MOSA
  else if String.eqb name "MIO" then Some MIO
  else if String.eqb name "ONE_PLUS_ONE" then Some ONE_PLUS_ONE
  else None.

End SearchAlgorithmType.

(** ** WhiskerSearchConfiguration *)

Module WhiskerSearchConfiguration.
Import Exn.

(** Modelled from the spec: the classes the configuration instantiates
    (stopping conditions, operators, chromosome generators,
    [SearchAlgorithmProperties]) and the enum [FitnessFunctionType] are not
    part of the sources at hand.  A constructor call is recorded with its
    arguments; a setter of the properties stores its arguments. *)
#[local] Unset Elimination Schemes.
Inductive StoppingCondition : Type :=
| FixedIterationsStoppingCondition (iterations : Js.value)
| FixedTimeStoppingCondtion (duration : Js.value)
| OptimalSolutionStoppingCondition
| OneOfStoppingCondition (conditions : list StoppingCondition).
#[local] Set Elimination Schemes.

Record SearchAlgorithmProperties : Type := {
  populationSize : Js.value;
  chromosomeLength : Js.value;
  mutationProbablity : Js.value;
  crossoverProbability : Js.value;
  maxMutationCounter : Js.value * Js.value;
  selectionProbabilities : Js.value * Js.value;
  maxArchiveSizes : Js.value * Js.value;
  startOfFocusedPhase : Js.value;
  stoppingCondition : StoppingCondition;
  intRange : option (Js.value * Js.value)
}.

Inductive Mutation : Type :=
| BitflipMutation
| VariableLengthMutation (min max length alpha : Js.value)
| IntegerListMutation (min max : Js.value).

Inductive Crossover : Type :=
| SinglePointRelativeCrossover
| SinglePointCrossover.

Inductive Selection : Type :=
| TournamentSelection (tournamentSize : Js.value)
| RankSelection.

Inductive ChromosomeGenerator : Type :=
| BitstringChromosomeGenerator
    (properties : SearchAlgorithmProperties) (m : Mutation) (x : Crossover)
| IntegerListChromosomeGenerator
    (properties : SearchAlgorithmProperties) (m : Mutation) (x : Crossover)
| VariableLengthTestChromosomeGenerator
    (properties : SearchAlgorithmProperties) (m : Mutation) (x : Crossover)
    (initVarLength : Js.value)
| TestChromosomeGenerator
    (properties : SearchAlgorithmProperties) (m : Mutation) (x : Crossover).


(** The field [dict : Record<string, any>]: the properties of the
    configuration object. *)
Definition Dict : Type := list (string * Js.value).

(** [for (const c of conditions)] runs over the elements of an array and
    over the characters of a string (each character is a string, which has
    no [type], so the recursive call throws); any other value is not
    iterable. *)
Fixpoint _getStoppingCondition (stoppingCondition : Js.value)
    : R StoppingCondition :=
  match stoppingCondition with
  | Js.VUndefined | Js.VNull => raise TypeError
  | Js.VObj properties =>
      let stoppingCond := Js.lookup "type" properties in
      if Js.looseEqStr stoppingCond "fixed-iteration" then
        ok (FixedIterationsStoppingCondition (Js.lookup "iterations" properties))
      else if Js.looseEqStr stoppingCond "fixed-time" then
        ok (FixedTimeStoppingCondtion (Js.lookup "duration" properties))
      else if Js.looseEqStr stoppingCond "optimal" then
        ok OptimalSolutionStoppingCondition
      else if Js.looseEqStr stoppingCond "one-of" then
        (fix find (ps : list (string * Js.value)) : R StoppingCondition :=
           match ps with
           | [] => raise TypeError
           | (k, conditions) :: ps' =>
               if String.eqb k "conditions" then
                 match conditions with
                 | Js.VArr cs =>
                     (fix each (cs : list Js.value) (l : list StoppingCondition)
                        : R StoppingCondition :=
                        match cs with
                        | [] => ok (OneOfStoppingCondition l)
                        | c :: cs' =>
                            match _getStoppingCondition c with
                            | inl e => inl e
                            | inr sc => each cs' (l ++ [sc])
                            end
                        end) cs []
                 | Js.VStr "" => ok (OneOfStoppingCondition [])
                 | Js.VStr _ => raise (ConfigException "No stopping condition given")
                 | _ => raise TypeError
                 end
               else find ps'
           end) properties
      else raise (ConfigException "No stopping condition given")
  | _ => raise (ConfigException "No stopping condition given")
  end.

Section Getters.
Variable dict : Dict.

Definition getSearchAlgorithmProperties : R SearchAlgorithmProperties :=
  let populationSize := Js.lookup "population-size" dict in
  let chromosomeLength := Js.lookup "chromosome-length" dict in
  crossoverProbability <~ getProp (Js.lookup "crossover" dict) "probability" ;;
  mutationProbability <~ getProp (Js.lookup "mutation" dict) "probability" ;;
  maxMutationCountStart <~
    getProp (Js.lookup "mutation" dict) "maxMutationCountStart" ;;
  maxMutationCountFocusedPhase <~
    getProp (Js.lookup "mutation" dict) "maxMutationCountFocusedPhase" ;;
  randomSelectionProbabilityStart <~
    getProp (Js.lookup "selection" dict) "randomSelectionProbabilityStart" ;;
  randomSelectionProbabilityFocusedPhase <~
    getProp (Js.lookup "selection" dict)
            "randomSelectionProbabilityFocusedPhase" ;;
  maxArchiveSizeStart <~
    getProp (Js.lookup "archive" dict) "maxArchiveSizeStart" ;;
  maxArchiveSizeFocusedPhase <~
    getProp (Js.lookup "archive" dict) "maxArchiveSizeFocusedPhase" ;;
  let startOfFocusedPhase := Js.lookup "startOfFocusedPhase" dict in
  stoppingCondition <~
    _getStoppingCondition (Js.lookup "stopping-condition" dict) ;;
  intRange <~
    (if Js.hasKey "integerRange" dict then
       let integerRange := Js.lookup "integerRange" dict in
       min <~ getProp integerRange "min" ;;
       max <~ getProp integerRange "max" ;;
       ok (Some (min, max))
     else ok None) ;;
  ok {| populationSize := populationSize;
        chromosomeLength := chromosomeLength;
        mutationProbablity := mutationProbability;
        crossoverProbability := crossoverProbability;
        maxMutationCounter :=
          (maxMutationCountStart, maxMutationCountFocusedPhase);
        selectionProbabilities :=
          (randomSelectionProbabilityStart,
           randomSelectionProbabilityFocusedPhase);
        maxArchiveSizes := (maxArchiveSizeStart, maxArchiveSizeFocusedPhase);
        startOfFocusedPhase := startOfFocusedPhase;
        stoppingCondition := stoppingCondition;
        intRange := intRange |}.

Definition _getMutationOperator : R Mutation :=
  operator <~ getProp (Js.lookup "mutation" dict) "operator" ;;
  if Js.strictEqStr operator "bitflip" then ok BitflipMutation
  else if Js.strictEqStr operator "variablelength" then
    min <~ getProp (Js.lookup "integerRange" dict) "min" ;;
    max <~ getProp (Js.lookup "integerRange" dict) "max" ;;
    let length := Js.lookup "chromosome-length" dict in
    alpha <~ getProp (Js.lookup "mutation" dict) "alpha" ;;
    ok (VariableLengthMutation min max length alpha)
  else
    (* case 'integerlist': default: *)
    min <~ getProp (Js.lookup "integerRange" dict) "min" ;;
    max <~ getProp (Js.lookup "integerRange" dict) "max" ;;
    ok (IntegerListMutation min max).

Definition _getCrossoverOperator : R Crossover :=
  operator <~ getProp (Js.lookup "crossover" dict) "operator" ;;
  if Js.strictEqStr operator "singlepointrelative"
  then ok SinglePointRelativeCrossover
  else (* case 'singlepoint': default: *) ok SinglePointCrossover.


Definition getChromosomeGenerator : R ChromosomeGenerator :=
  let chromosome := Js.lookup "chromosome" dict in
  if Js.strictEqStr chromosome "bitstring" then
    properties <~ getSearchAlgorithmProperties ;;
    m <~ _getMutationOperator ;;
    x <~ _getCrossoverOperator ;;
    ok (BitstringChromosomeGenerator properties m x)
  else if Js.strictEqStr chromosome "integerlist" then
    properties <~ getSearchAlgorithmProperties ;;
    m <~ _getMutationOperator ;;
    x <~ _getCrossoverOperator ;;
    ok (IntegerListChromosomeGenerator properties m x)
  else if Js.strictEqStr chromosome "variablelengthtest" then
    properties <~ getSearchAlgorithmProperties ;;
    m <~ _getMutationOperator ;;
    x <~ _getCrossoverOperator ;;
    ok (VariableLengthTestChromosomeGenerator properties m x
          (Js.lookup "init-var-length" dict))
  else
    (* case 'test': default: *)
    properties <~ getSearchAlgorithmProperties ;;
    m <~ _getMutationOperator ;;
    x <~ _getCrossoverOperator ;;
    ok (TestChromosomeGenerator properties m x).


(** [getAlgorithm] returns what the member access on the enum yields:
    [None] is JavaScript's [undefined]. *)
Definition getAlgorithm : R (option SearchAlgorithmType.t) :=
  let algorithm := Js.lookup "algorithm" dict in
  if Js.strictEqStr algorithm "random" then
    ok (SearchAlgorithmType.member "RANDOM")
  else if Js.strictEqStr algorithm "one-plus-one" then
    ok (SearchAlgorithmType.member "ONE_PLUS_ONE")
  else if Js.strictEqStr algorithm "simplega" then
    ok (SearchAlgorithmType.member "SIMPLEGA")
  else if Js.strictEqStr algorithm "mosa" then
    ok (SearchAlgorithmType.member "MOSA")
  else if Js.strictEqStr algorithm "mio" then
    ok (SearchAlgorithmType.member "MIO")
  else
    raise (IllegalArgumentException
             "Invalid configuration. Unknown algorithm: " algorithm).

End Getters.

End WhiskerSearchConfiguration.

(** ** RandomTestGenerator *)

Module RandomTestGenerator.
Import Eff.

(** [new WhiskerTest(testChromosome)]. *)
Record WhiskerTest (TestChromosome : Type) : Type := {
  chromosome : TestChromosome
}.
Arguments Build_WhiskerTest {TestChromosome} _.
Arguments chromosome {TestChromosome} _.

(** The counters of the process-wide [StatisticsCollector] that
    [generateTests] writes. *)
Record Statistics : Type := {
  fitnessFunctionCount : Z;
  iterationCount : Z;
  coveredFitnessFunctionCount : Z;
  createdTestsCount : Z
}.

(** The fields of a [RandomTestGenerator]; [Goal] is the type of the
    fitness-function objects (compared by identity). *)
Record Fields (TestChromosome Goal : Type) : Type := {
  _startTime : Z;
  _iterations : Z;
  _tests : list TestChromosome;
  _fitnessFunctions : JsMap.t Goal
}.
Arguments _startTime {TestChromosome Goal} _.
Arguments _iterations {TestChromosome Goal} _.
Arguments _tests {TestChromosome Goal} _.
Arguments _fitnessFunctions {TestChromosome Goal} _.

(** The state of the loop of [generateTests]: the fields, the locals
    [testSuite] and [uncoveredGoals], and the statistics. *)
Record LoopState (TestChromosome Goal : Type) : Type := {
  this : Fields TestChromosome Goal;
  testSuite : list (WhiskerTest TestChromosome);
  uncoveredGoals : list Goal;
  statistics : Statistics
}.
Arguments this {TestChromosome Goal} _.
Arguments testSuite {TestChromosome Goal} _.
Arguments uncoveredGoals {TestChromosome Goal} _.
Arguments statistics {TestChromosome Goal} _.

Section Generator.
Context {TestChromosome Goal World : Type} `{EqDecision Goal}.
(** [ff.isCovered(testChromosome)]. *)
Variable isCovered : Goal -> TestChromosome -> bool.
(** [this._extractCoverageGoals()], [Date.now()], the generator and the
    stopping condition of the configuration. *)
Variable _extractCoverageGoals : JsMap.t Goal.
Variable now : World -> Z * World.
Variable chromosomeGenerator : World -> TestChromosome * World.
Variable isFinished : Fields TestChromosome Goal -> World -> bool * World.

(** The first inner loop: the state is the state of [generateTests] and
    the local [coveredGoals]. *)
Definition keepStep (testChromosome : TestChromosome)
    (acc : LoopState TestChromosome Goal * list Goal) (ff : Goal)
    : LoopState TestChromosome Goal * list Goal :=
  let '(st, coveredGoals) := acc in
  if isCovered ff testChromosome then
    ({| this := {| _startTime := _startTime (this st);
                   _iterations := _iterations (this st);
                   _tests := _tests (this st) ++ [testChromosome];
                   _fitnessFunctions := _fitnessFunctions (this st) |};
        testSuite := testSuite st ++ [Build_WhiskerTest testChromosome];
        uncoveredGoals := uncoveredGoals st;
        statistics :=
          {| fitnessFunctionCount := fitnessFunctionCount (statistics st);
             iterationCount := iterationCount (statistics st);
             coveredFitnessFunctionCount :=
               coveredFitnessFunctionCount (statistics st) + 1;
             createdTestsCount := createdTestsCount (statistics st) |} |},
     coveredGoals ++ [ff])
  else (st, coveredGoals).

(** The body of the [while] loop once the chromosome is drawn. *)
Definition turnWith (testChromosome : TestChromosome)
    (st : LoopState TestChromosome Goal) : LoopState TestChromosome Goal :=
  let st :=
    {| this := {| _startTime := _startTime (this st);
                  _iterations := _iterations (this st) + 1;
                  _tests := _tests (this st);
                  _fitnessFunctions := _fitnessFunctions (this st) |};
       testSuite := testSuite st;
       uncoveredGoals := uncoveredGoals st;
       statistics :=
         {| fitnessFunctionCount := fitnessFunctionCount (statistics st);
            iterationCount := iterationCount (statistics st) + 1;
            coveredFitnessFunctionCount :=
              coveredFitnessFunctionCount (statistics st);
            createdTestsCount := createdTestsCount (statistics st) |} |} in
  let '(st, coveredGoals) :=
    foldl (keepStep testChromosome) (st, []) (uncoveredGoals st) in
  {| this := this st;
     testSuite := testSuite st;
     uncoveredGoals :=
       foldl (fun uncovered ff => JsList.remove ff uncovered)
             (uncoveredGoals st) coveredGoals;
     statistics := statistics st |}.

Definition turn (st : LoopState TestChromosome Goal)
    : M World (LoopState TestChromosome Goal) :=
  testChromosome <- lift chromosomeGenerator ;;
  ret (turnWith testChromosome st).

(** [generateTests] up to its loop. *)
Definition start (self : Fields TestChromosome Goal) (stats : Statistics)
    : M World (LoopState TestChromosome Goal) :=
  startTime <- lift now ;;
  ret {| this := {| _startTime := startTime;
                    _iterations := _iterations self;
                    _tests := _tests self;
                    _fitnessFunctions := _extractCoverageGoals |};
         testSuite := [];
         uncoveredGoals := JsMap.values _extractCoverageGoals;
         statistics :=
           {| fitnessFunctionCount :=
                Z.of_nat (JsMap.size _extractCoverageGoals);
              iterationCount := iterationCount stats;
              coveredFitnessFunctionCount := coveredFitnessFunctionCount stats;
              createdTestsCount := createdTestsCount stats |} |}.

(** The loop with its stopping condition; [fuel] bounds the number of
    turns. *)
Fixpoint searchLoop (fuel : nat) (st : LoopState TestChromosome Goal)
    : M World (LoopState TestChromosome Goal) :=
  finished <- lift (isFinished (this st)) ;;
  if (finished : bool) then ret st
  else match fuel with
       | O => throw
       | S fuel' => st' <- turn st ;; searchLoop fuel' st'
       end.

(** [generateTests]: the result is the suite together with the object's
    fields and the statistics as the call leaves them.
    [_collectStatistics] belongs to the base class and is not modelled. *)
Definition generateTests (fuel : nat) (self : Fields TestChromosome Goal)
    (stats : Statistics) : M World (LoopState TestChromosome Goal) :=
  st <- start self stats ;;
  st <- searchLoop fuel st ;;
  ret {| this := this st;
         testSuite := testSuite st;
         uncoveredGoals := uncoveredGoals st;
         statistics :=
           {| fitnessFunctionCount := fitnessFunctionCount (statistics st);
              iterationCount := iterationCount (statistics st);
              coveredFitnessFunctionCount :=
                coveredFitnessFunctionCount (statistics st);
              createdTestsCount := _iterations (this st) + 1 |} |}.

(** The methods of the interface [SearchAlgorithm]: a method returns its
    value, or the updated fields for a setter, or the exception it
    throws. *)
Definition getCurrentSolution (self : Fields TestChromosome Goal)
    : Exn.R (list TestChromosome) := Exn.ok (_tests self).

Definition getFitnessFunctions (self : Fields TestChromosome Goal)
    : Exn.R (list Goal) := Exn.ok (JsMap.values (_fitnessFunctions self)).

Definition getNumberOfIterations (self : Fields TestChromosome Goal)
    : Exn.R Z := Exn.ok (_iterations self).

Definition getStartTime (self : Fields TestChromosome Goal)
    : Exn.R Z := Exn.ok (_startTime self).

Definition findSolution (self : Fields TestChromosome Goal)
    : Exn.R (list TestChromosome) := Exn.raise NotSupportedFunctionException.

Definition setChromosomeGenerator (self : Fields TestChromosome Goal)
    (generator : World -> TestChromosome * World)
    : Exn.R (Fields TestChromosome Goal) :=
  Exn.raise NotSupportedFunctionException.

Definition setFitnessFunction (self : Fields TestChromosome Goal)
    (fitnessFunction : Goal) : Exn.R (Fields TestChromosome Goal) :=
  Exn.raise NotSupportedFunctionException.

Definition setFitnessFunctions (self : Fields TestChromosome Goal)
    (fitnessFunctions : JsMap.t Goal) : Exn.R (Fields TestChromosome Goal) :=
  Exn.raise NotSupportedFunctionException.

Definition setHeuristicFunctions {Function : Type}
    (self : Fields TestChromosome Goal)
    (heuristicFunctions : JsMap.t Function)
    : Exn.R (Fields TestChromosome Goal) :=
  Exn.raise NotSupportedFunctionException.

Definition setProperties {SearchAlgorithmProperties : Type}
    (self : Fields TestChromosome Goal)
    (properties : SearchAlgorithmProperties)
    : Exn.R (Fields TestChromosome Goal) :=
  Exn.raise NotSupportedFunctionException.

Definition setSelectionOperator {Selection : Type}
    (self : Fields TestChromosome Goal) (selectionOperator : Selection)
    : Exn.R (Fields TestChromosome Goal) :=
  Exn.raise NotSupportedFunctionException.

End Generator.

End RandomTestGenerator.

(** * Specification predicates *)

Section Predicates.
Context {C number : Type}.
Variable fitnessFunctions : JsMap.t (FitnessFunction C number).

(** Every entry of the archive is optimal for the fitness function of its
    key. *)
Definition archiveOptimal (archive : JsMap.t C) : Prop :=
  forall g c, JsMap.get g archive = Some c ->
    exists ff, JsMap.get g fitnessFunctions = Some ff
               /\ isOptimal ff (getFitness ff c) = true.

(** [compare] is a total order on fitness values: a positive result means
    that the first value is better, a negative one that the second is. *)
Record TotalOrderCompare (cmp : number -> number -> Z) : Prop := {
  compare_antisym : forall a b, cmp a b < 0 <-> 0 < cmp b a;
  compare_trans : forall a b c, 0 <= cmp a b -> 0 <= cmp b c -> 0 <= cmp a c
}.

Definition allTotalOrders : Prop :=
  forall key ff, JsMap.get key fitnessFunctions = Some ff ->
    TotalOrderCompare (compare ff).

(** On the goals without an archive entry, [a] is nowhere worse than
    [b]. *)
Definition nowhereWorse (archive : JsMap.t C) (a b : C) : Prop :=
  forall key ff,
    JsMap.get key fitnessFunctions = Some ff ->
    JsMap.get key archive = None ->
    0 <= compare ff (getFitness ff a) (getFitness ff b).

(** On some goal without an archive entry, [a] is strictly better than
    [b]. *)
Definition somewhereBetter (archive : JsMap.t C) (a b : C) : Prop :=
  exists key ff,
    JsMap.get key fitnessFunctions = Some ff
    /\ JsMap.get key archive = None
    /\ 0 < compare ff (getFitness ff a) (getFitness ff b).

Section Preference.
Variable getLength : C -> Z.
Variable ff : FitnessFunction C number.

(** [x] is preferred to [y] for the goal of [ff]: better fitness, or the
    same fitness and shorter. *)
Definition strictlyBetter (x y : C) : Prop :=
  0 < compare ff (getFitness ff x) (getFitness ff y)
  \/ (compare ff (getFitness ff x) (getFitness ff y) = 0
      /\ getLength x < getLength y).

Definition atLeastAsGood (x y : C) : Prop :=
  0 < compare ff (getFitness ff x) (getFitness ff y)
  \/ (compare ff (getFitness ff x) (getFitness ff y) = 0
      /\ getLength x <= getLength y).

(** [c] is the best chromosome of the list for the goal: best fitness,
    ties broken by shorter length, further ties by earliest position. *)
Definition isBest (chromosomes : list C) (c : C) : Prop :=
  exists pre post,
    chromosomes = pre ++ c :: post
    /\ (forall x, In x pre -> strictlyBetter c x)
    /\ (forall x, In x post -> atLeastAsGood c x).

End Preference.

(** [c] is the chromosome [preferenceSorting] picks for one of the keys
    [ks] that has no archive entry. *)
Definition preferredBy (getLength : C -> Z) (archive : JsMap.t C)
    (chromosomes : list C) (ks : list Z) (c : C) : Prop :=
  exists key ff,
    In key ks
    /\ JsMap.get key fitnessFunctions = Some ff
    /\ JsMap.get key archive = None
    /\ isBest getLength ff chromosomes c.

(** The invariant of the outer loop of [preferenceSorting] once the keys
    [ks] are done. *)
Definition preferenceInv (getLength : C -> Z) (archive : JsMap.t C)
    (chromosomes : list C) (ks : list Z) (bestFront rest : list C) : Prop :=
  NoDup bestFront
  /\ (forall c, In c bestFront <->
                preferredBy getLength archive chromosomes ks c)
  /\ Permutation (bestFront ++ rest) chromosomes
  /\ sublist rest chromosomes.

End Predicates.

(** The variant of the [while] loop of [fastNonDominatedSorting]: the
    number of chromosomes whose domination count is still positive. *)
Definition positives {C : Type} `{Countable C} (dominationCount : gmap C Z)
    : nat :=
  size (filter (fun kv : C * Z => 0 < kv.2) dominationCount).

(** The number of positions of a list that hold the object [x]. *)
Definition occurrences {C : Type} `{EqDecision C} (x : C) (l : list C) : nat :=
  length (filter (fun y => y = x) l).

Section FrontsSpec.
Context {C : Type} `{Countable C}.
Variable dom : C -> C -> bool.

(** The chromosomes of [S] that dominate [q]. *)
Definition dominatorsIn (S : list C) (q : C) : list C :=
  filter (fun p => dom p q = true) S.

(** The invariant of the [while] loop of [fastNonDominatedSorting] on a
    list [L] without repeated objects: the fronts built so far and the
    current front hold no chromosome twice, the count of a chromosome is
    the number of its dominators outside the finished fronts, and a
    chromosome is in a front as soon as its count is 0. *)
Definition frontsInv (L : list C) (dominationCount : gmap C Z)
    (currentFront : list C) (fronts : list (list C)) : Prop :=
  NoDup (concat fronts ++ currentFront)
  /\ (forall x, x ∈ concat fronts ++ currentFront -> x ∈ L)
  /\ (forall q, q ∈ L ->
        default 0 (dominationCount !! q)
        = Z.of_nat (length (dominatorsIn L q))
          - Z.of_nat (length (dominatorsIn (concat fronts) q)))
  /\ (forall q, q ∈ L ->
        (q ∈ concat fronts ++ currentFront
         <-> default 0 (dominationCount !! q) = 0)).

End FrontsSpec.

Section RandomSearchSpec.
Context {TestChromosome Goal : Type}.
Variable isCovered : Goal -> TestChromosome -> bool.

(** The chromosomes of the suite that random search builds from the
    chromosomes [cs] it generates, in the words of the specification: a
    generated chromosome is kept for each still-uncovered goal it covers,
    and those goals leave the uncovered set. *)
Fixpoint suiteOf (uncovered : list Goal) (cs : list TestChromosome)
    : list TestChromosome :=
  match cs with
  | [] => []
  | c :: cs' =>
      map (fun _ => c) (filter (fun g => isCovered g c = true) uncovered)
      ++ suiteOf (filter (fun g => isCovered g c = false) uncovered) cs'
  end.

Fixpoint uncoveredAfter (uncovered : list Goal) (cs : list TestChromosome)
    : list Goal :=
  match cs with
  | [] => uncovered
  | c :: cs' =>
      uncoveredAfter (filter (fun g => isCovered g c = false) uncovered) cs'
  end.

(** [c] covers a goal that none of the chromosomes [earlier] covers. *)
Definition coversNew (goals : list Goal) (earlier : list TestChromosome)
    (c : TestChromosome) : Prop :=
  exists g, In g goals
            /\ isCovered g c = true
            /\ forall c', In c' earlier -> isCovered g c' = false.

End RandomSearchSpec.

(** The chromosomes that a run generates are observed by running the
    program itself on a world that carries a log beside it.
    [recording chromosomeGenerator] is the generator of the configuration
    that also appends each chromosome [chromosomeGenerator.get()] yields to
    the log, in order. *)
Definition recording {TestChromosome World : Type}
    (chromosomeGenerator : World -> TestChromosome * World)
    : World * list TestChromosome
      -> TestChromosome * (World * list TestChromosome) :=
  fun wl => let '(c, w') := chromosomeGenerator (fst wl) in
            (c, (w', snd wl ++ [c])).

(** A collaborator ([Date.now()], the stopping condition) on such a world:
    it reads and advances the world and leaves the log as it is. *)
Definition besideLog {A World Log : Type} (f : World -> A * World)
    : World * Log -> A * (World * Log) :=
  fun wl => let '(a, w') := f (fst wl) in (a, (w', snd wl)).

(** What the specification says of the suite that random search returns:
    no duplicate tests, every test covers a goal that no earlier test of
    the suite covers, and no more tests than goals. *)
Definition suiteAsSpecified {TestChromosome Goal : Type}
    (isCovered : Goal -> TestChromosome -> bool) (goals : list Goal)
    (suite : list TestChromosome) : Prop :=
  NoDup suite
  /\ (forall pre t post, suite = pre ++ t :: post ->
        coversNew isCovered goals pre t)
  /\ (length suite <= length goals)%nat.

(** ** Predicates for the further properties of the code *)

Section FrontsAnySpec.
Context {C number : Type} `{Countable C}.
Variable fitnessFunctions : JsMap.t (FitnessFunction C number).
Variable archive : JsMap.t C.
Variable L : list C.

(** The positions of the list whose chromosome has a domination count of 0
    after the first loop of [fastNonDominatedSorting]. *)
Definition undominatedPositions : list C :=
  filter (fun p => snd (MOSA.dominationOf fitnessFunctions archive L p) = 0) L.

(** The invariant of the [while] loop of [fastNonDominatedSorting] on any
    list: no front is empty; behind the first front the fronts hold
    chromosomes of the list that had a positive count, each at most once,
    and whose count is used up; a count that is still positive belongs to
    a chromosome of the list that had a positive count. *)
Definition releasedInv (dominationCount : gmap C Z) (currentFront : list C)
    (fronts : list (list C)) : Prop :=
  Forall (fun front => front <> []) fronts
  /\ exists released,
       concat fronts ++ currentFront = undominatedPositions ++ released
       /\ NoDup released
       /\ (forall x, x ∈ released ->
             x ∈ L
             /\ 0 < snd (MOSA.dominationOf fitnessFunctions archive L x)
             /\ default 0 (dominationCount !! x) <= 0)
       /\ (forall x, 0 < default 0 (dominationCount !! x) ->
             x ∈ L
             /\ 0 < snd (MOSA.dominationOf fitnessFunctions archive L x)).

End FrontsAnySpec.

Section RankedSpec.
Context {C : Type}.
Variable dom : C -> C -> bool.

(** Every dominator that a chromosome of [front] has in [L] lies in one of
    the fronts [earlier], and one of them in the last of these. *)
Definition rankedAt (L : list C) (earlier : list (list C)) (front : list C)
    : Prop :=
  forall q, q ∈ front ->
    (forall p, p ∈ L -> dom p q = true -> p ∈ concat earlier)
    /\ (forall earlier' previous, earlier = earlier' ++ [previous] ->
          exists p, p ∈ previous /\ dom p q = true).

(** The fronts are the ranks of [L] under domination. *)
Definition rankedFronts (L : list C) (fronts : list (list C)) : Prop :=
  forall earlier front later,
    fronts = earlier ++ front :: later -> rankedAt L earlier front.

End RankedSpec.

(** Every goal with an entry in [archive] has an entry in [archive'] that
    is at most as long. *)
Definition archiveKept {C : Type} (getLength : C -> Z)
    (archive archive' : JsMap.t C) : Prop :=
  forall key c, JsMap.get key archive = Some c ->
    exists c', JsMap.get key archive' = Some c'
               /\ getLength c' <= getLength c.

Section SolutionSpec.
Context {C number : Type}.
Variable fitnessFunctions : JsMap.t (FitnessFunction C number).

(** The invariant of the loop of [findSolution] after [turns] turns, for
    an object whose counter was [iterations0] at the call. *)
Definition solutionInv `{EqDecision C} (iterations0 : Z)
    (st : MOSA.Fields C * list C) (turns : nat) : Prop :=
  MOSA._iterations (fst st) = iterations0 + Z.of_nat turns
  /\ NoDup (JsMap.keys (MOSA._archive (fst st)))
  /\ archiveOptimal fitnessFunctions (MOSA._archive (fst st))
  /\ MOSA._bestIndividuals (fst st)
     = match turns with
       | O => []
       | S _ => JsList.distinct (JsMap.values (MOSA._archive (fst st)))
       end.

(** [d] is the largest sub-vector dominance of [c] against the other
    chromosomes of the front, 0 when there is no other. *)
Definition largestSVD (front : list C) (c : C) (d : Z) : Prop :=
  (forall c2, c2 ∈ front -> c2 <> c ->
     MOSA.calculateSVD fitnessFunctions c c2 <= d)
  /\ (d = 0
      \/ exists c2, c2 ∈ front /\ c2 <> c
                    /\ d = MOSA.calculateSVD fitnessFunctions c c2).

End SolutionSpec.

(** What a part of the loop of [generateTests] adds to the fields and to
    the statistics: [turns] iterations and the tests [kept]. *)
Definition advancedBy {TestChromosome Goal : Type} (turns : nat)
    (kept : list TestChromosome)
    (st st' : RandomTestGenerator.LoopState TestChromosome Goal) : Prop :=
  RandomTestGenerator._startTime (RandomTestGenerator.this st')
  = RandomTestGenerator._startTime (RandomTestGenerator.this st)
  /\ RandomTestGenerator._fitnessFunctions (RandomTestGenerator.this st')
     = RandomTestGenerator._fitnessFunctions (RandomTestGenerator.this st)
  /\ RandomTestGenerator._iterations (RandomTestGenerator.this st')
     = RandomTestGenerator._iterations (RandomTestGenerator.this st)
       + Z.of_nat turns
  /\ RandomTestGenerator._tests (RandomTestGenerator.this st')
     = RandomTestGenerator._tests (RandomTestGenerator.this st) ++ kept
  /\ map RandomTestGenerator.chromosome (RandomTestGenerator.testSuite st')
     = map RandomTestGenerator.chromosome (RandomTestGenerator.testSuite st)
       ++ kept
  /\ RandomTestGenerator.fitnessFunctionCount (RandomTestGenerator.statistics st')
     = RandomTestGenerator.fitnessFunctionCount (RandomTestGenerator.statistics st)
  /\ RandomTestGenerator.iterationCount (RandomTestGenerator.statistics st')
     = RandomTestGenerator.iterationCount (RandomTestGenerator.statistics st)
       + Z.of_nat turns
  /\ RandomTestGenerator.coveredFitnessFunctionCount
       (RandomTestGenerator.statistics st')
     = RandomTestGenerator.coveredFitnessFunctionCount
         (RandomTestGenerator.statistics st)
       + Z.of_nat (length kept)
  /\ RandomTestGenerator.createdTestsCount (RandomTestGenerator.statistics st')
     = RandomTestGenerator.createdTestsCount (RandomTestGenerator.statistics st).

(** [undefined] and [null]: the values whose properties cannot be read. *)
Definition nullish (v : Js.value) : bool :=
  match v with
  | Js.VUndefined | Js.VNull => true
  | _ => false
  end.

(** The conditions of a list parsed in order; the first one that fails
    gives the error. *)
Fixpoint parseAll
    (parse : Js.value -> Exn.R WhiskerSearchConfiguration.StoppingCondition)
    (conditions : list Js.value)
    : Exn.R (list WhiskerSearchConfiguration.StoppingCondition) :=
  match conditions with
  | [] => Exn.ok []
  | c :: conditions' =>
      Exn.bind (parse c) (fun sc =>
      Exn.bind (parseAll parse conditions') (fun l =>
      Exn.ok (sc :: l)))
  end.

(** * Scenarios

    Concrete collaborators in the style of the test suites of the
    repository: bit-string chromosomes, OneMax and SingleBit goals, and a
    scripted source of randomness. *)

Module Scenario.

(** A bit-string chromosome: the identity of the object and its genes. *)
Definition Chrom : Type := nat * list bool.

Definition getLength (c : Chrom) : Z := Z.of_nat (length (snd c)).

Definition oneMax (size : Z) : FitnessFunction Chrom Z :=
  {| getFitness := fun c => Z.of_nat (length (filter (fun b => b = true) (snd c)));
     isOptimal := fun fitness => fitness =? size;
     compare := fun a b => a - b |}.

Definition singleBit (bit : nat) : FitnessFunction Chrom Z :=
  {| getFitness := fun c => if nth bit (snd c) false then 1 else 0;
     isOptimal := fun fitness => fitness =? 1;
     compare := fun a b => a - b |}.

(** The world is the script of the draws still to come. *)
Definition World : Type := list Z.

Definition draw (w : World) : Z * World :=
  match w with
  | z :: w' => (z, w')
  | [] => (0, [])
  end.

Definition bits (z : Z) : list bool := map (Z.testbit z) [0; 1; 2; 3].

(** A fresh chromosome: its identity is the position in the script, its
    genes are the bits of the draw. *)
Definition fresh (w : World) : Chrom * World :=
  let '(z, w') := draw w in ((length w, bits z), w').

(** A draw [z] stands for the double [z / 100]; [nextInt] scales it into
    the range; [shuffle] leaves the list as it is; the rank selection
    picks the last (best) chromosome. *)
Definition env : MOSA.Collaborators Chrom World :=
  {| MOSA.getPopulationSize := 4;
     MOSA.getCrossoverProbability := (8 # 10)%Q;
     MOSA.getMutationProbablity := (1 # 2)%Q;
     MOSA.nextDouble := fun w => let '(z, w') := draw w in (z # 100, w')%Q;
     MOSA.nextInt := fun lo hi w =>
                       let '(z, w') := draw w in (lo + z * (hi - lo) / 100, w');
     MOSA.shuffle := fun l w => (l, w);
     MOSA.selectionOperator := fun l w => (List.last l (O, []), w);
     MOSA.crossover := fun a b w => ((a, b), w);
     MOSA.mutate := fun _ w => fresh w;
     MOSA.chromosomeGenerator := fresh |}.

Definition newMOSA : MOSA.Fields Chrom :=
  {| MOSA._iterations := 0;
     MOSA._bestIndividuals := [];
     MOSA._archive := JsMap.empty |}.

(** One goal: OneMax on four bits. *)
Definition oneGoal : JsMap.t (FitnessFunction Chrom Z) := [(0, oneMax 4)].

(** Two goals: OneMax on four bits and the first bit. *)
Definition twoGoals : JsMap.t (FitnessFunction Chrom Z) :=
  [(0, oneMax 4); (1, singleBit 0)].

(** The generator yields 1110, 1100, 1000 and 0000; then each of the two
    turns of the offspring loop selects twice the parent at index 2 and
    draws 0.99 three times: no crossover, no mutation. *)
Definition script : World :=
  [7; 3; 1; 0; 50; 50; 99; 99; 99; 50; 50; 99; 99; 99].

Definition mosaRun (goals : JsMap.t (FitnessFunction Chrom Z)) (turns : nat)
    : option ((MOSA.Fields Chrom * list Chrom) * World) :=
  Eff.bind (MOSA.initialise getLength goals env newMOSA)
           (MOSA.iterate getLength goals env turns) script.

Definition c1110 : Chrom := (14%nat, bits 7).
Definition c1100 : Chrom := (13%nat, bits 3).
Definition c1000 : Chrom := (12%nat, bits 1).
Definition c0000 : Chrom := (11%nat, bits 0).

(** The draws of one turn of the loop in which every offspring is mutated:
    each of the two turns of the offspring loop selects the parent at
    index 2 twice, does not cross, and mutates both children into fresh
    chromosomes. *)
Definition mutatingTurn : World :=
  [50; 50; 99; 0; 6; 0; 5; 50; 50; 99; 0; 9; 0; 10].

(** Random search: the goals are the bits 0 and 1, a goal is covered by a
    chromosome that has the bit set; the search stops after one
    iteration. *)
Definition bitGoals : JsMap.t nat := [(0, 0%nat); (1, 1%nat)].

Definition bitCovered (bit : nat) (c : Chrom) : bool := nth bit (snd c) false.

Definition newRandom : RandomTestGenerator.Fields Chrom nat :=
  {| RandomTestGenerator._startTime := 0;
     RandomTestGenerator._iterations := 0;
     RandomTestGenerator._tests := [];
     RandomTestGenerator._fitnessFunctions := JsMap.empty |}.

Definition noStatistics : RandomTestGenerator.Statistics :=
  {| RandomTestGenerator.fitnessFunctionCount := 0;
     RandomTestGenerator.iterationCount := 0;
     RandomTestGenerator.coveredFitnessFunctionCount := 0;
     RandomTestGenerator.createdTestsCount := 0 |}.

Definition oneIteration (this : RandomTestGenerator.Fields Chrom nat)
    (w : World) : bool * World :=
  (1 <=? RandomTestGenerator._iterations this, w).

Definition randomRun (w : World)
    : option (RandomTestGenerator.LoopState Chrom nat * World) :=
  RandomTestGenerator.generateTests bitCovered bitGoals
    (fun w => (0, w)) fresh oneIteration 5 newRandom noStatistics w.

(** Collaborators of a search without variation: both probabilities are
    0; a draw [z] stands for the double [|z| / 100], and for the integer
    that [z mod 100] scales into the range of [nextInt]. *)
Definition cloning : MOSA.Collaborators Chrom World :=
  {| MOSA.getPopulationSize := 4;
     MOSA.getCrossoverProbability := 0%Q;
     MOSA.getMutationProbablity := 0%Q;
     MOSA.nextDouble := fun w => let '(z, w') := draw w in (Z.abs z # 100, w')%Q;
     MOSA.nextInt := fun lo hi w =>
                       let '(z, w') := draw w in
                       (lo + (z mod 100) * (hi - lo) / 100, w');
     MOSA.shuffle := MOSA.shuffle env;
     MOSA.selectionOperator := MOSA.selectionOperator env;
     MOSA.crossover := MOSA.crossover env;
     MOSA.mutate := MOSA.mutate env;
     MOSA.chromosomeGenerator := fresh |}.

(** The stopping condition of a search of one iteration. *)
Definition afterOneIteration (this : MOSA.Fields Chrom) (w : World)
    : bool * World :=
  (1 <=? MOSA._iterations this, w).

Definition c1111 : Chrom := (15%nat, bits 15).

(** A one-of stopping condition as a configuration file has it. *)
Definition oneOfCondition : list (string * Js.value) :=
  [("type", Js.VStr "one-of");
   ("conditions",
    Js.VArr [Js.VObj [("type", Js.VStr "fixed-iteration");
                      ("iterations", Js.VNum 10)];
             Js.VObj [("type", Js.VStr "optimal")]])].

End Scenario.

(** * Properties *)

(** ** Facts about [JsMap] *)

Section JsMapFacts.
Context {V : Type}.

Lemma JsMap_get_set (k k' : Z) (v : V) (m : JsMap.t V) :
  JsMap.get k' (JsMap.set k v m)
  = if Z.eqb k k' then Some v else JsMap.get k' m.
Proof.
  induction m as [|[k0 v0] m IH]; simpl.
  - reflexivity.
  - destruct (Z.eqb_spec k0 k) as [->|Hne]; simpl.
    + destruct (Z.eqb k k'); reflexivity.
    + rewrite IH. destruct (Z.eqb_spec k0 k') as [->|Hne'].
      * destruct (Z.eqb_spec k k'); [congruence | reflexivity].
      * reflexivity.
Qed.

Lemma JsMap_get_set_eq (k : Z) (v : V) (m : JsMap.t V) :
  JsMap.get k (JsMap.set k v m) = Some v.
Proof. rewrite JsMap_get_set, Z.eqb_refl. reflexivity. Qed.

Lemma JsMap_get_set_ne (k k' : Z) (v : V) (m : JsMap.t V) :
  k <> k' -> JsMap.get k' (JsMap.set k v m) = JsMap.get k' m.
Proof.
  intros Hne. rewrite JsMap_get_set.
  destruct (Z.eqb_spec k k'); [contradiction | reflexivity].
Qed.

Lemma JsMap_get_keys (k : Z) (m : JsMap.t V) :
  In k (JsMap.keys m) -> exists v, JsMap.get k m = Some v.
Proof.
  induction m as [|[k0 v0] m IH]; simpl; [tauto|].
  intros [->|Hin].
  - rewrite Z.eqb_refl. eauto.
  - destruct (Z.eqb k0 k); eauto.
Qed.

Lemma JsMap_has_true (k : Z) (m : JsMap.t V) :
  JsMap.has k m = true <-> exists v, JsMap.get k m = Some v.
Proof.
  unfold JsMap.has. destruct (JsMap.get k m) as [v|]; split; eauto;
    try discriminate.
  intros [v Hv]. discriminate.
Qed.

Lemma JsMap_has_false (k : Z) (m : JsMap.t V) :
  JsMap.has k m = false <-> JsMap.get k m = None.
Proof.
  unfold JsMap.has. destruct (JsMap.get k m); split; congruence.
Qed.

End JsMapFacts.

(** ** The archive of MOSA *)

Section ArchiveFacts.
Context {C number : Type} `{Countable C}.
Variable getLength : C -> Z.
Variable fitnessFunctions : JsMap.t (FitnessFunction C number).

Lemma archiveOptimal_empty : archiveOptimal fitnessFunctions JsMap.empty.
Proof. intros g c Hg. discriminate. Qed.

Lemma consider_optimal key ff st c :
  JsMap.get key fitnessFunctions = Some ff ->
  archiveOptimal fitnessFunctions (snd st) ->
  archiveOptimal fitnessFunctions (snd (MOSA.consider getLength key ff st c)).
Proof.
  intros Hff Hinv. destruct st as [bestLength archive]. unfold MOSA.consider.
  destruct (isOptimal ff (getFitness ff c)) eqn:Hopt; simpl; [|exact Hinv].
  destruct (getLength c <? bestLength); simpl; [|exact Hinv].
  intros g c' Hg. rewrite JsMap_get_set in Hg.
  destruct (Z.eqb_spec key g) as [<-|Hne].
  - injection Hg as <-. eauto.
  - apply (Hinv g c' Hg).
Qed.

Lemma foldl_consider_optimal key ff chromosomes st :
  JsMap.get key fitnessFunctions = Some ff ->
  archiveOptimal fitnessFunctions (snd st) ->
  archiveOptimal fitnessFunctions (snd (foldl (MOSA.consider getLength key ff) st chromosomes)).
Proof.
  intros Hff. revert st.
  induction chromosomes as [|c cs IH]; intros st Hinv; simpl; [exact Hinv|].
  apply IH, consider_optimal; assumption.
Qed.

Lemma updateArchiveFor_optimal chromosomes archive key :
  archiveOptimal fitnessFunctions archive ->
  archiveOptimal fitnessFunctions
    (MOSA.updateArchiveFor getLength fitnessFunctions chromosomes archive key).
Proof.
  intros Hinv. unfold MOSA.updateArchiveFor.
  destruct (JsMap.get key fitnessFunctions) as [ff|] eqn:Hff; [|exact Hinv].
  apply foldl_consider_optimal; assumption.
Qed.

Lemma updateArchive_optimal archive chromosomes :
  archiveOptimal fitnessFunctions archive ->
  archiveOptimal fitnessFunctions
    (MOSA.updateArchive getLength fitnessFunctions archive chromosomes).
Proof.
  unfold MOSA.updateArchive.
  generalize (JsMap.keys fitnessFunctions) as ks. intros ks. revert archive.
  induction ks as [|k ks IH]; intros archive Hinv; simpl; [exact Hinv|].
  apply IH, updateArchiveFor_optimal, Hinv.
Qed.

End ArchiveFacts.

(** ** The effect monad *)

Lemma bind_Some {World A B} (m : Eff.M World A) (k : A -> Eff.M World B)
    (w : World) (r : B * World) :
  Eff.bind m k w = Some r <->
  exists a w1, m w = Some (a, w1) /\ k a w1 = Some r.
Proof.
  unfold Eff.bind. destruct (m w) as [[a w1]|]; split.
  - intros Hk. exists a, w1. split; [reflexivity | exact Hk].
  - intros (a' & w1' & Heq & Hk). injection Heq as -> ->. exact Hk.
  - discriminate.
  - intros (a' & w1' & Heq & _). discriminate.
Qed.

Ltac bind_inv H :=
  let a := fresh "a" in
  let w := fresh "w" in
  let Hm := fresh "Hm" in
  apply bind_Some in H; destruct H as (a & w & Hm & H).

Tactic Notation "bind_dest" hyp(H) "as" ident(a) ident(w) ident(Hm) :=
  apply bind_Some in H; destruct H as (a & w & Hm & H).

Section ArchiveRun.
Context {C number World : Type} `{Countable C}.
Variable getLength : C -> Z.
Variable fitnessFunctions : JsMap.t (FitnessFunction C number).
Variable env : MOSA.Collaborators C World.

Lemma iteration_optimal st w st' w' :
  MOSA.iteration getLength fitnessFunctions env st w = Some (st', w') ->
  archiveOptimal fitnessFunctions (MOSA._archive (fst st)) ->
  archiveOptimal fitnessFunctions (MOSA._archive (fst st')).
Proof.
  destruct st as [this parentPopulation]. unfold MOSA.iteration.
  intros Hrun Hinv.
  bind_inv Hrun. bind_inv Hrun. bind_inv Hrun.
  injection Hrun as <- _. simpl.
  apply updateArchive_optimal, updateArchive_optimal, Hinv.
Qed.

Lemma initialise_optimal this w st w' :
  MOSA.initialise getLength fitnessFunctions env this w = Some (st, w') ->
  archiveOptimal fitnessFunctions (MOSA._archive (fst st)).
Proof.
  unfold MOSA.initialise. intros Hrun. bind_inv Hrun.
  injection Hrun as <- _. simpl.
  apply updateArchive_optimal, archiveOptimal_empty.
Qed.

Lemma iterate_optimal n st w st' w' :
  MOSA.iterate getLength fitnessFunctions env n st w = Some (st', w') ->
  archiveOptimal fitnessFunctions (MOSA._archive (fst st)) ->
  archiveOptimal fitnessFunctions (MOSA._archive (fst st')).
Proof.
  revert st w. induction n as [|n IH]; intros st w Hrun Hinv; simpl in Hrun.
  - injection Hrun as <- _. exact Hinv.
  - bind_inv Hrun. eapply IH; [exact Hrun|].
    eapply iteration_optimal; eassumption.
Qed.

Lemma searchLoop_optimal isFinished fuel st w st' w' :
  MOSA.searchLoop getLength fitnessFunctions env isFinished fuel st w
  = Some (st', w') ->
  archiveOptimal fitnessFunctions (MOSA._archive (fst st)) ->
  archiveOptimal fitnessFunctions (MOSA._archive (fst st')).
Proof.
  revert st w. induction fuel as [|fuel IH]; intros st w Hrun Hinv;
    simpl in Hrun.
  - bind_dest Hrun as finished w1 Hfinished. destruct finished; [|discriminate].
    injection Hrun as <- _. exact Hinv.
  - bind_dest Hrun as finished w1 Hfinished. destruct finished.
    + injection Hrun as <- _. exact Hinv.
    + bind_dest Hrun as st1 w2 Hturn. eapply IH; [exact Hrun|].
      eapply iteration_optimal; eassumption.
Qed.

(** C1: every entry of the archive is optimal for the fitness function of
    its goal.  [updateArchive] keeps the invariant (it never stores a
    chromosome that is not optimal for the key), and so the archive of a
    MOSA run satisfies it after the initial population, after any number
    of turns of the loop of [findSolution], and when the loop ends under
    its stopping condition. *)
Theorem archive_invariant :
  (forall archive chromosomes,
      archiveOptimal fitnessFunctions archive ->
      archiveOptimal fitnessFunctions
        (MOSA.updateArchive getLength fitnessFunctions archive chromosomes))
  /\ (forall this n w st w',
         Eff.bind (MOSA.initialise getLength fitnessFunctions env this)
                  (MOSA.iterate getLength fitnessFunctions env n) w
         = Some (st, w') ->
         archiveOptimal fitnessFunctions (MOSA._archive (fst st)))
  /\ (forall isFinished this fuel w st w',
         Eff.bind (MOSA.initialise getLength fitnessFunctions env this)
                  (MOSA.searchLoop getLength fitnessFunctions env isFinished
                                   fuel) w
         = Some (st, w') ->
         archiveOptimal fitnessFunctions (MOSA._archive (fst st))).
Proof.
  split; [|split].
  - intros archive chromosomes. apply updateArchive_optimal.
  - intros this n w st w' Hrun. bind_dest Hrun as st0 w0 Hinit.
    eapply iterate_optimal; [exact Hrun|].
    eapply initialise_optimal. exact Hinit.
  - intros isFinished this fuel w st w' Hrun. bind_dest Hrun as st0 w0 Hinit.
    eapply searchLoop_optimal; [exact Hrun|].
    eapply initialise_optimal. exact Hinit.
Qed.

End ArchiveRun.

Section ReplacementPolicy.
Context {C number : Type} `{Countable C}.
Variable getLength : C -> Z.
Variable key : Z.
Variable ff : FitnessFunction C number.

#[local] Abbreviation considerAll := (foldl (MOSA.consider getLength key ff)).
#[local] Abbreviation optimal c := (isOptimal ff (getFitness ff c) = true).

(** The local [bestLength] is the length of the entry of the key. *)
Lemma consider_bestLength st c :
  fst st = MOSA.currentLength getLength key (snd st) ->
  fst (MOSA.consider getLength key ff st c)
  = MOSA.currentLength getLength key (snd (MOSA.consider getLength key ff st c)).
Proof.
  destruct st as [bestLength archive]. simpl. intros Hbl.
  unfold MOSA.consider.
  destruct (isOptimal ff (getFitness ff c) && (getLength c <? bestLength));
    simpl; [|exact Hbl].
  unfold MOSA.currentLength. rewrite JsMap_get_set_eq. reflexivity.
Qed.

Lemma considerAll_bestLength cs st :
  fst st = MOSA.currentLength getLength key (snd st) ->
  fst (considerAll st cs)
  = MOSA.currentLength getLength key (snd (considerAll st cs)).
Proof.
  revert st. induction cs as [|c cs IH]; intros st Hbl; simpl; [exact Hbl|].
  apply IH, consider_bestLength, Hbl.
Qed.

(** What the whole inner loop leaves behind, from any loop state. *)
Lemma considerAll_result cs bestLength archive :
  (considerAll (bestLength, archive) cs = (bestLength, archive)
   /\ forall c, In c cs -> optimal c -> bestLength <= getLength c)
  \/ (exists pre e post,
         cs = pre ++ e :: post
         /\ optimal e /\ getLength e < bestLength
         /\ fst (considerAll (bestLength, archive) cs) = getLength e
         /\ JsMap.get key (snd (considerAll (bestLength, archive) cs)) = Some e
         /\ (forall k, k <> key ->
               JsMap.get k (snd (considerAll (bestLength, archive) cs))
               = JsMap.get k archive)
         /\ (forall c, In c pre -> optimal c -> getLength e < getLength c)
         /\ (forall c, In c post -> optimal c -> getLength e <= getLength c)).
Proof.
  revert bestLength archive.
  induction cs as [|c cs IH]; intros bestLength archive.
  - left. split; [reflexivity | intros c []].
  - cbn [foldl].
    assert (Hstep : MOSA.consider getLength key ff (bestLength, archive) c
                    = if isOptimal ff (getFitness ff c)
                         && (getLength c <? bestLength)
                      then (getLength c, JsMap.set key c archive)
                      else (bestLength, archive)) by reflexivity.
    rewrite Hstep. clear Hstep.
    destruct (isOptimal ff (getFitness ff c)) eqn:Hopt; simpl.
    + destruct (Z.ltb_spec (getLength c) bestLength) as [Hlt|Hge].
      * destruct (IH (getLength c) (JsMap.set key c archive))
          as [[Heq Hall]|(pre & e & post & -> & He & Hlen & Hfst & Hget & Hoth & Hpre & Hpost)].
        -- right. exists [], c, cs. rewrite Heq. simpl.
           repeat split; try assumption; try tauto.
           ++ apply JsMap_get_set_eq.
           ++ intros k Hk. apply JsMap_get_set_ne. congruence.
        -- right. exists (c :: pre), e, post.
           repeat split; try assumption; try lia.
           ++ intros k Hk. rewrite Hoth by assumption.
              apply JsMap_get_set_ne. congruence.
           ++ intros c' [<-|Hin] Hc'; [lia | auto].
      * destruct (IH bestLength archive)
          as [[Heq Hall]|(pre & e & post & -> & He & Hlen & Hfst & Hget & Hoth & Hpre & Hpost)].
        -- left. split; [exact Heq|].
           intros c' [<-|Hin] Hc'; [lia | auto].
        -- right. exists (c :: pre), e, post.
           repeat split; try assumption.
           intros c' [<-|Hin] Hc'; [lia | auto].
    + destruct (IH bestLength archive)
        as [[Heq Hall]|(pre & e & post & -> & He & Hlen & Hfst & Hget & Hoth & Hpre & Hpost)].
      * left. split; [exact Heq|].
        intros c' [<-|Hin] Hc'; [congruence | auto].
      * right. exists (c :: pre), e, post.
        repeat split; try assumption.
        intros c' [<-|Hin] Hc'; [congruence | auto].
Qed.

(** C2: the replacement policy of the archive.  When a candidate is
    considered for a goal, in any state the inner loop of [updateArchive]
    can be in: the entry changes only if the candidate is optimal and the
    goal has no entry or the candidate is strictly shorter than the entry,
    and then the candidate is the new entry; a candidate that is not
    shorter than the entry (equal length included) leaves the archive as it
    is; an optimal candidate shorter than the entry (than
    [MAX_SAFE_INTEGER] when there is none) becomes the entry.  Over the
    whole loop the entry that remains is the first of the
    shortest optimal candidates: every optimal candidate considered before
    it is strictly longer, every one after it at least as long. *)
Theorem archive_replacement_policy (archive : JsMap.t C) :
  (forall pre candidate,
      let st := considerAll
                  (MOSA.currentLength getLength key archive, archive) pre in
      let st' := MOSA.consider getLength key ff st candidate in
      (snd st' <> snd st ->
         optimal candidate
         /\ (JsMap.get key (snd st) = None
             \/ exists current, JsMap.get key (snd st) = Some current
                                /\ getLength candidate < getLength current)
         /\ JsMap.get key (snd st') = Some candidate)
      /\ (forall current, JsMap.get key (snd st) = Some current ->
            getLength current <= getLength candidate -> snd st' = snd st)
      /\ (optimal candidate ->
          getLength candidate < MOSA.currentLength getLength key (snd st) ->
          JsMap.get key (snd st') = Some candidate))
  /\ (forall chromosomes,
        let final := snd (considerAll
                            (MOSA.currentLength getLength key archive, archive)
                            chromosomes) in
        (final = archive
         /\ forall c, In c chromosomes -> optimal c ->
              MOSA.currentLength getLength key archive <= getLength c)
        \/ (exists pre e post,
              chromosomes = pre ++ e :: post
              /\ optimal e
              /\ getLength e < MOSA.currentLength getLength key archive
              /\ JsMap.get key final = Some e
              /\ (forall c, In c pre -> optimal c -> getLength e < getLength c)
              /\ (forall c, In c post -> optimal c ->
                    getLength e <= getLength c))).
Proof.
  split.
  - intros pre candidate st st'.
    assert (Hbl : fst st = MOSA.currentLength getLength key (snd st)).
    { apply considerAll_bestLength. reflexivity. }
    subst st'. destruct st as [bestLength current]. simpl in *.
    unfold MOSA.consider.
    destruct (isOptimal ff (getFitness ff candidate)) eqn:Hopt; simpl.
    + destruct (Z.ltb_spec (getLength candidate) bestLength) as [Hlt|Hge]; simpl.
      * split; [|split].
        -- intros _. split; [reflexivity|]. split; [|apply JsMap_get_set_eq].
           unfold MOSA.currentLength in Hbl.
           destruct (JsMap.get key current) as [cur|]; [right | left; reflexivity].
           exists cur. split; [reflexivity | lia].
        -- intros cur Hcur Hle. unfold MOSA.currentLength in Hbl.
           rewrite Hcur in Hbl. lia.
        -- intros _ _. apply JsMap_get_set_eq.
      * split; [intros Hne; contradiction|]. split; [reflexivity|].
        intros _ Hshorter. lia.
    + split; [intros Hne; contradiction|]. split; [reflexivity|].
      intros Hoptimal. discriminate.
  - intros chromosomes final. subst final.
    destruct (considerAll_result chromosomes
                (MOSA.currentLength getLength key archive) archive)
      as [[Heq Hall]|(pre & e & post & Hcs & He & Hlen & Hfst & Hget & Hoth & Hpre & Hpost)].
    + left. rewrite Heq. split; [reflexivity | exact Hall].
    + right. exists pre, e, post. repeat split; assumption.
Qed.

End ReplacementPolicy.

(** ** Dominance *)

Section Dominance.
Context {C number : Type} `{Countable C}.
Variable fitnessFunctions : JsMap.t (FitnessFunction C number).
Variable archive : JsMap.t C.

#[local] Abbreviation dominatesLoop a b :=
  (foldl (MOSA.dominatesStep fitnessFunctions archive a b)).

Lemma dominatesLoop_None a b ks : dominatesLoop a b None ks = None.
Proof. induction ks as [|k ks IH]; simpl; [reflexivity | exact IH]. Qed.

(** The loop of [dominates] over a list of keys: it returns early exactly
    when some uncovered key among them compares negative, and otherwise
    carries whether a key compared positive. *)
Lemma dominatesLoop_spec a b ks acc :
  match dominatesLoop a b (Some acc) ks with
  | Some r =>
      (forall key ff, In key ks ->
         JsMap.get key fitnessFunctions = Some ff ->
         JsMap.get key archive = None ->
         0 <= compare ff (getFitness ff a) (getFitness ff b))
      /\ (r = true <->
          acc = true
          \/ exists key ff, In key ks
               /\ JsMap.get key fitnessFunctions = Some ff
               /\ JsMap.get key archive = None
               /\ 0 < compare ff (getFitness ff a) (getFitness ff b))
  | None =>
      exists key ff, In key ks
        /\ JsMap.get key fitnessFunctions = Some ff
        /\ JsMap.get key archive = None
        /\ compare ff (getFitness ff a) (getFitness ff b) < 0
  end.
Proof.
  revert acc. induction ks as [|k ks IH]; intros acc.
  - simpl. split; [intros key ff []|].
    split; [auto|]. intros [Hacc|(key & ff & [] & _)]. exact Hacc.
  - cbn [foldl]. unfold MOSA.dominatesStep at 2.
    destruct (JsMap.has k archive) eqn:Hhas; cbn [negb].
    + apply JsMap_has_true in Hhas. destruct Hhas as [c Hc].
      specialize (IH acc).
      destruct (dominatesLoop a b (Some acc) ks) as [r|].
      * destruct IH as [Hall Hr]. split.
        -- intros key ff [<-|Hin] Hff Hunc; [congruence | eauto].
        -- rewrite Hr. split.
           ++ intros [Hacc|(key & ff & Hin & Hrest)]; [auto|].
              right. exists key, ff. split; [right; exact Hin | exact Hrest].
           ++ intros [Hacc|(key & ff & [<-|Hin] & Hff & Hunc & Hpos)];
                [auto | congruence |].
              right. exists key, ff. auto.
      * destruct IH as (key & ff & Hin & Hrest).
        exists key, ff. split; [right; exact Hin | exact Hrest].
    + apply JsMap_has_false in Hhas.
      destruct (JsMap.get k fitnessFunctions) as [ffk|] eqn:Hffk.
      * destruct (Z.ltb_spec (compare ffk (getFitness ffk a) (getFitness ffk b)) 0)
          as [Hneg|Hnonneg].
        { rewrite dominatesLoop_None. exists k, ffk. auto with datatypes. }
        destruct (Z.gtb_spec (compare ffk (getFitness ffk a) (getFitness ffk b)) 0)
          as [Hpos|Hnonpos].
        -- specialize (IH true).
           destruct (dominatesLoop a b (Some true) ks) as [r|].
           ++ destruct IH as [Hall Hr]. split.
              ** intros key ff [<-|Hin] Hff Hunc; [|eauto].
                 rewrite Hffk in Hff. injection Hff as <-. exact Hnonneg.
              ** rewrite Hr. split; [|auto].
                 intros _. right. exists k, ffk.
                 repeat split; auto with datatypes.
           ++ destruct IH as (key & ff & Hin & Hrest).
              exists key, ff. split; [right; exact Hin | exact Hrest].
        -- specialize (IH acc).
           destruct (dominatesLoop a b (Some acc) ks) as [r|].
           ++ destruct IH as [Hall Hr]. split.
              ** intros key ff [<-|Hin] Hff Hunc; [|eauto].
                 rewrite Hffk in Hff. injection Hff as <-. exact Hnonneg.
              ** rewrite Hr. split.
                 --- intros [Hacc|(key & ff & Hin & Hrest)]; [auto|].
                     right. exists key, ff. split; [right; exact Hin | exact Hrest].
                 --- intros [Hacc|(key & ff & [<-|Hin] & Hff & Hunc & Hpos)];
                       [auto | |].
                     +++ rewrite Hffk in Hff. injection Hff as <-. lia.
                     +++ right. exists key, ff. auto.
           ++ destruct IH as (key & ff & Hin & Hrest).
              exists key, ff. split; [right; exact Hin | exact Hrest].
      * specialize (IH acc).
        destruct (dominatesLoop a b (Some acc) ks) as [r|].
        -- destruct IH as [Hall Hr]. split.
           ++ intros key ff [<-|Hin] Hff Hunc; [congruence | eauto].
           ++ rewrite Hr. split.
              ** intros [Hacc|(key & ff & Hin & Hrest)]; [auto|].
                 right. exists key, ff. split; [right; exact Hin | exact Hrest].
              ** intros [Hacc|(key & ff & [<-|Hin] & Hff & Hunc & Hpos)];
                   [auto | congruence |].
                 right. exists key, ff. auto.
        -- destruct IH as (key & ff & Hin & Hrest).
           exists key, ff. split; [right; exact Hin | exact Hrest].
Qed.

Lemma JsMap_get_In_keys {V} key (v : V) (m : JsMap.t V) :
  JsMap.get key m = Some v -> In key (JsMap.keys m).
Proof.
  induction m as [|[k0 v0] m IH]; simpl; [discriminate|].
  destruct (Z.eqb_spec k0 key); [auto | intros Hget; right; auto].
Qed.

Lemma dominates_iff a b :
  MOSA.dominates fitnessFunctions archive a b = true <->
  nowhereWorse fitnessFunctions archive a b
  /\ somewhereBetter fitnessFunctions archive a b.
Proof.
  unfold MOSA.dominates, nowhereWorse, somewhereBetter.
  pose proof (dominatesLoop_spec a b (JsMap.keys fitnessFunctions) false) as Hloop.
  destruct (dominatesLoop a b (Some false) (JsMap.keys fitnessFunctions)) as [r|].
  - destruct Hloop as [Hall Hr]. rewrite Hr. split.
    + intros [Hfalse|(key & ff & Hin & Hff & Hunc & Hpos)]; [discriminate|].
      split; [|exists key, ff; auto].
      intros key' ff' Hff' Hunc'.
      apply (Hall key' ff'); [eapply JsMap_get_In_keys; eassumption | |]; assumption.
    + intros [_ (key & ff & Hff & Hunc & Hpos)]. right.
      exists key, ff. split; [eapply JsMap_get_In_keys; eassumption | auto].
  - destruct Hloop as (key & ff & Hin & Hff & Hunc & Hneg). split; [discriminate|].
    intros [Hall _]. specialize (Hall key ff Hff Hunc). lia.
Qed.

Lemma dominates_asym :
  allTotalOrders fitnessFunctions ->
  forall a b,
    MOSA.dominates fitnessFunctions archive a b = true ->
    MOSA.dominates fitnessFunctions archive b a = false.
Proof.
  intros Htotal a b Hab. apply dominates_iff in Hab.
  destruct Hab as [_ (key & ff & Hff & Hunc & Hpos)].
  destruct (MOSA.dominates fitnessFunctions archive b a) eqn:Hba;
    [|reflexivity].
  apply dominates_iff in Hba. destruct Hba as [Hall _].
  specialize (Hall key ff Hff Hunc).
  apply (compare_antisym _ (Htotal key ff Hff)) in Hpos. lia.
Qed.

Lemma dominates_trans :
  allTotalOrders fitnessFunctions ->
  forall a b c,
    MOSA.dominates fitnessFunctions archive a b = true ->
    MOSA.dominates fitnessFunctions archive b c = true ->
    MOSA.dominates fitnessFunctions archive a c = true.
Proof.
  intros Htotal a b c Hab Hbc. apply dominates_iff in Hab, Hbc.
  destruct Hab as [Hab (key & ff & Hff & Hunc & Hpos)].
  destruct Hbc as [Hbc _].
  apply dominates_iff. split.
  - intros key' ff' Hff' Hunc'.
    apply (compare_trans _ (Htotal key' ff' Hff')) with (getFitness ff' b);
      [apply (Hab key' ff') | apply (Hbc key' ff')]; assumption.
  - exists key, ff. split; [exact Hff|]. split; [exact Hunc|].
    pose proof (Htotal key ff Hff) as [Hanti Htrans].
    destruct (Z.lt_ge_cases 0 (compare ff (getFitness ff a) (getFitness ff c)))
      as [Hgt|Hle]; [exact Hgt|].
    exfalso.
    assert (Hca : 0 <= compare ff (getFitness ff c) (getFitness ff a)).
    { destruct (Z.lt_ge_cases (compare ff (getFitness ff c) (getFitness ff a)) 0)
        as [Hlt|Hge]; [|lia].
      apply Hanti in Hlt. lia. }
    assert (Hba : 0 <= compare ff (getFitness ff b) (getFitness ff a)).
    { apply Htrans with (getFitness ff c);
        [apply (Hbc key ff); assumption | exact Hca]. }
    apply Hanti in Hpos. lia.
Qed.

(** C4: dominance is a strict partial order.  [dominates a b] holds exactly
    when [a] is nowhere worse than [b] on the goals without an archive
    entry and strictly better on one of them; if every fitness function
    compares by a total order, then [a] dominating [b] excludes [b]
    dominating [a], and dominance is transitive. *)
Theorem dominance_strict_partial_order :
  allTotalOrders fitnessFunctions ->
  (forall a b,
      MOSA.dominates fitnessFunctions archive a b = true <->
      nowhereWorse fitnessFunctions archive a b
      /\ somewhereBetter fitnessFunctions archive a b)
  /\ (forall a b,
         MOSA.dominates fitnessFunctions archive a b = true ->
         MOSA.dominates fitnessFunctions archive b a = false)
  /\ (forall a b c,
         MOSA.dominates fitnessFunctions archive a b = true ->
         MOSA.dominates fitnessFunctions archive b c = true ->
         MOSA.dominates fitnessFunctions archive a c = true).
Proof.
  intros Htotal. split; [exact dominates_iff|].
  split; [exact (dominates_asym Htotal) | exact (dominates_trans Htotal)].
Qed.

End Dominance.

(** ** Preference sorting *)

Section TotalOrderFacts.
Context {number : Type}.
Variable cmp : number -> number -> Z.
Hypothesis Htotal : TotalOrderCompare cmp.

Lemma compare_zero_sym a b : cmp a b = 0 -> cmp b a = 0.
Proof.
  intros Hab. pose proof (compare_antisym _ Htotal a b) as H1.
  pose proof (compare_antisym _ Htotal b a) as H2. lia.
Qed.

Lemma compare_pos_nonneg_trans a b c :
  0 < cmp a b -> 0 <= cmp b c -> 0 < cmp a c.
Proof.
  intros Hab Hbc.
  destruct (Z.lt_ge_cases 0 (cmp a c)) as [Hgt|Hle]; [exact Hgt | exfalso].
  assert (Hca : 0 <= cmp c a).
  { pose proof (compare_antisym _ Htotal c a). lia. }
  pose proof (compare_trans _ Htotal b c a Hbc Hca) as Hba.
  pose proof (compare_antisym _ Htotal b a). lia.
Qed.

Lemma compare_nonneg_pos_trans a b c :
  0 <= cmp a b -> 0 < cmp b c -> 0 < cmp a c.
Proof.
  intros Hab Hbc.
  destruct (Z.lt_ge_cases 0 (cmp a c)) as [Hgt|Hle]; [exact Hgt | exfalso].
  assert (Hca : 0 <= cmp c a).
  { pose proof (compare_antisym _ Htotal c a). lia. }
  pose proof (compare_trans _ Htotal c a b Hca Hab) as Hcb.
  pose proof (compare_antisym _ Htotal c b). lia.
Qed.

Lemma compare_zero_trans a b c : cmp a b = 0 -> cmp b c = 0 -> cmp a c = 0.
Proof.
  intros Hab Hbc.
  pose proof (compare_zero_sym _ _ Hab) as Hba.
  pose proof (compare_zero_sym _ _ Hbc) as Hcb.
  assert (Hac : 0 <= cmp a c) by (apply compare_trans with b; [exact Htotal | lia..]).
  assert (Hca : 0 <= cmp c a) by (apply compare_trans with b; [exact Htotal | lia..]).
  pose proof (compare_antisym _ Htotal a c).
  pose proof (compare_antisym _ Htotal c a). lia.
Qed.

End TotalOrderFacts.

Section BestFor.
Context {C number : Type}.
Variable getLength : C -> Z.
Variable ff : FitnessFunction C number.
Hypothesis Htotal : TotalOrderCompare (compare ff).

#[local] Abbreviation sb := (strictlyBetter getLength ff).
#[local] Abbreviation alag := (atLeastAsGood getLength ff).

Lemma strictlyBetter_trans x y z : sb x y -> sb y z -> sb x z.
Proof.
  unfold strictlyBetter. intros [Hxy|[Hxy Lxy]] [Hyz|[Hyz Lyz]].
  - left. apply (compare_pos_nonneg_trans _ Htotal) with (getFitness ff y); lia.
  - left. apply (compare_pos_nonneg_trans _ Htotal) with (getFitness ff y); lia.
  - left. apply (compare_nonneg_pos_trans _ Htotal) with (getFitness ff y); lia.
  - right. split; [|lia].
    apply (compare_zero_trans _ Htotal) with (getFitness ff y); assumption.
Qed.

Lemma strictlyBetter_atLeastAsGood_trans x y z : sb x y -> alag y z -> sb x z.
Proof.
  unfold strictlyBetter, atLeastAsGood.
  intros [Hxy|[Hxy Lxy]] [Hyz|[Hyz Lyz]].
  - left. apply (compare_pos_nonneg_trans _ Htotal) with (getFitness ff y); lia.
  - left. apply (compare_pos_nonneg_trans _ Htotal) with (getFitness ff y); lia.
  - left. apply (compare_nonneg_pos_trans _ Htotal) with (getFitness ff y); lia.
  - right. split; [|lia].
    apply (compare_zero_trans _ Htotal) with (getFitness ff y); assumption.
Qed.

(** The inner loop of [preferenceSorting] keeps the best chromosome of the
    part of the list it has seen. *)
Lemma betterStep_isBest seen best c :
  isBest getLength ff seen best ->
  isBest getLength ff (seen ++ [c])
    (fst (MOSA.betterStep getLength ff (best, getFitness ff best) c))
  /\ snd (MOSA.betterStep getLength ff (best, getFitness ff best) c)
     = getFitness ff
         (fst (MOSA.betterStep getLength ff (best, getFitness ff best) c)).
Proof.
  intros (pre & post & -> & Hpre & Hpost). unfold MOSA.betterStep.
  destruct (Z.gtb_spec (compare ff (getFitness ff c) (getFitness ff best)) 0)
    as [Hpos|Hnonpos]; cbn [orb].
  - simpl. split; [|reflexivity].
    exists (pre ++ best :: post), []. split; [reflexivity|].
    assert (Hcb : sb c best) by (left; lia).
    split; [|intros x []].
    intros x Hin. apply in_app_or in Hin. destruct Hin as [Hin|[<-|Hin]].
    + eapply strictlyBetter_trans; [exact Hcb | auto].
    + exact Hcb.
    + eapply strictlyBetter_atLeastAsGood_trans; [exact Hcb | auto].
  - destruct (Z.eqb_spec (compare ff (getFitness ff c) (getFitness ff best)) 0)
      as [Hzero|Hnonzero]; cbn [andb].
    + destruct (Z.ltb_spec (getLength c) (getLength best)) as [Hlt|Hge].
      * simpl. split; [|reflexivity].
        exists (pre ++ best :: post), []. split; [reflexivity|].
        assert (Hcb : sb c best) by (right; split; assumption).
        split; [|intros x []].
        intros x Hin. apply in_app_or in Hin. destruct Hin as [Hin|[<-|Hin]].
        -- eapply strictlyBetter_trans; [exact Hcb | auto].
        -- exact Hcb.
        -- eapply strictlyBetter_atLeastAsGood_trans; [exact Hcb | auto].
      * simpl. split; [|reflexivity].
        exists pre, (post ++ [c]). split; [rewrite <- app_assoc; reflexivity|].
        split; [exact Hpre|].
        intros x Hin. apply in_app_or in Hin. destruct Hin as [Hin|[<-|[]]]; [auto|].
        right. split; [|lia]. apply (compare_zero_sym _ Htotal). exact Hzero.
    + simpl. split; [|reflexivity].
      exists pre, (post ++ [c]). split; [rewrite <- app_assoc; reflexivity|].
      split; [exact Hpre|].
      intros x Hin. apply in_app_or in Hin. destruct Hin as [Hin|[<-|[]]]; [auto|].
      left. pose proof (compare_antisym _ Htotal (getFitness ff c) (getFitness ff best)).
      lia.
Qed.

Lemma betterLoop_isBest rest seen best :
  isBest getLength ff seen best ->
  isBest getLength ff (seen ++ rest)
    (fst (foldl (MOSA.betterStep getLength ff) (best, getFitness ff best) rest)).
Proof.
  revert seen best. induction rest as [|c rest IH]; intros seen best Hbest.
  - simpl. rewrite app_nil_r. exact Hbest.
  - cbn [foldl].
    destruct (betterStep_isBest seen best c Hbest) as [Hbest' Hfit].
    destruct (MOSA.betterStep getLength ff (best, getFitness ff best) c)
      as [best' fit']. simpl in Hbest', Hfit. subst fit'.
    replace (seen ++ c :: rest) with ((seen ++ [c]) ++ rest)
      by (rewrite <- app_assoc; reflexivity).
    apply IH. exact Hbest'.
Qed.

Lemma bestFor_isBest chromosomes :
  chromosomes <> [] ->
  exists best, MOSA.bestFor getLength ff chromosomes = Some best
               /\ isBest getLength ff chromosomes best.
Proof.
  destruct chromosomes as [|first rest]; [congruence|]. intros _.
  eexists. split; [reflexivity|].
  apply (betterLoop_isBest rest [first] first).
  exists [], []. split; [reflexivity|]. split; intros x [].
Qed.

End BestFor.

(** ** Fast non-dominated sorting returns *)

Section FrontsLoop.
Context {C : Type} `{Countable C}.

Lemma releaseStep_positives (dominationCount : gmap C Z) nextFront q :
  (positives (fst (MOSA.releaseStep (dominationCount, nextFront) q))
   + length (snd (MOSA.releaseStep (dominationCount, nextFront) q))
   = positives dominationCount + length nextFront)%nat.
Proof.
  unfold MOSA.releaseStep, positives. cbn [fst snd].
  destruct (dominationCount !! q) as [c|] eqn:Hq;
    cbv [default from_option id].
  - destruct (Z.eqb_spec (c - 1) 0) as [Hone|Hother].
    + assert (c = 1) as -> by lia.
      rewrite map_filter_insert_False by (simpl; lia).
      rewrite map_filter_delete, map_size_delete_Some.
      * rewrite length_app. simpl.
        assert (size (filter (fun kv : C * Z => 0 < kv.2) dominationCount) <> 0%nat).
        { intros Hzero. apply map_size_empty_inv in Hzero.
          assert (Hin : filter (fun kv : C * Z => 0 < kv.2) dominationCount !! q
                        = Some 1).
          { apply map_lookup_filter_Some. split; [exact Hq | simpl; lia]. }
          rewrite Hzero, lookup_empty in Hin. discriminate. }
        lia.
      * exists 1. apply map_lookup_filter_Some. split; [exact Hq | simpl; lia].
    + destruct (Z.lt_ge_cases 0 (c - 1)) as [Hpos|Hneg].
      * rewrite map_filter_insert_True by (simpl; lia).
        rewrite map_size_insert_Some; [reflexivity|].
        exists c. apply map_lookup_filter_Some. split; [exact Hq | simpl; lia].
      * rewrite map_filter_insert_not'; [reflexivity | simpl; lia |].
        intros y Hy. simpl. rewrite Hq in Hy. injection Hy as <-. lia.
  - simpl. rewrite map_filter_insert_not'; [reflexivity | simpl; lia |].
    intros y Hy. rewrite Hq in Hy. discriminate.
Qed.

Lemma releaseAll_positives qs (st : gmap C Z * list C) :
  (positives (fst (foldl MOSA.releaseStep st qs))
   + length (snd (foldl MOSA.releaseStep st qs))
   = positives (fst st) + length (snd st))%nat.
Proof.
  revert st. induction qs as [|q qs IH]; intros st; [reflexivity|].
  cbn [foldl]. rewrite IH. destruct st as [dominationCount nextFront].
  apply releaseStep_positives.
Qed.

Lemma nextFrontOf_positives dominatedValues (dominationCount : gmap C Z)
    currentFront :
  (positives (fst (MOSA.nextFrontOf dominatedValues dominationCount currentFront))
   + length (snd (MOSA.nextFrontOf dominatedValues dominationCount currentFront))
   = positives dominationCount)%nat.
Proof.
  unfold MOSA.nextFrontOf.
  assert (Hgen : forall ps (st : gmap C Z * list C),
    (positives (fst (foldl (fun st p =>
         foldl MOSA.releaseStep st (default [] (dominatedValues !! p))) st ps))
     + length (snd (foldl (fun st p =>
         foldl MOSA.releaseStep st (default [] (dominatedValues !! p))) st ps))
     = positives (fst st) + length (snd st))%nat).
  { induction ps as [|p ps IH]; intros st; [reflexivity|].
    cbn [foldl]. rewrite IH. apply releaseAll_positives. }
  rewrite Hgen. simpl. lia.
Qed.

Lemma frontsLoop_returns fuel dominatedValues (dominationCount : gmap C Z)
    currentFront fronts :
  (positives dominationCount < fuel)%nat ->
  exists result,
    MOSA.frontsLoop fuel dominatedValues dominationCount currentFront fronts
    = Some result.
Proof.
  revert dominationCount currentFront fronts.
  induction fuel as [|fuel IH]; intros dominationCount currentFront fronts Hlt.
  - lia.
  - destruct currentFront as [|p currentFront]; [simpl; eauto|].
    cbn [MOSA.frontsLoop].
    pose proof (nextFrontOf_positives dominatedValues dominationCount
                  (p :: currentFront)) as Hvariant.
    destruct (MOSA.nextFrontOf dominatedValues dominationCount (p :: currentFront))
      as [dominationCount' nextFront]. cbn [fst snd] in Hvariant.
    destruct nextFront as [|q nextFront].
    + destruct fuel; simpl; eauto.
    + apply IH. simpl in Hvariant. lia.
Qed.

End FrontsLoop.

Section SortingReturns.
Context {C number : Type} `{Countable C}.
Variable fitnessFunctions : JsMap.t (FitnessFunction C number).
Variable archive : JsMap.t C.

Lemma dominationTables_size chromosomes ps
    (st : gmap C (list C) * gmap C Z * list C) :
  (size (snd (fst (foldl (MOSA.dominationStep fitnessFunctions archive chromosomes)
                         st ps)))
   <= size (snd (fst st)) + length ps)%nat.
Proof.
  revert st. induction ps as [|p ps IH]; intros st; [simpl; lia|].
  cbn [foldl]. etransitivity; [apply IH|].
  destruct st as [[dominatedValues dominationCount] firstFront].
  unfold MOSA.dominationStep.
  destruct (MOSA.dominationOf fitnessFunctions archive chromosomes p)
    as [dominatedValuesP dominationCountP]. cbn [fst snd length].
  rewrite map_size_insert. destruct (dominationCount !! p); simpl; lia.
Qed.

(** The [while] loop of [fastNonDominatedSorting] ends: the fuel of the
    model is never used up. *)
Lemma fastNonDominatedSorting_returns chromosomes :
  exists fronts,
    MOSA.fastNonDominatedSorting fitnessFunctions archive chromosomes
    = Some fronts.
Proof.
  unfold MOSA.fastNonDominatedSorting.
  pose proof (dominationTables_size chromosomes chromosomes (∅, ∅, []))
    as Hsize.
  fold (MOSA.dominationTables fitnessFunctions archive chromosomes) in Hsize.
  cbn [fst snd] in Hsize. rewrite map_size_empty in Hsize.
  destruct (MOSA.dominationTables fitnessFunctions archive chromosomes)
    as [[dominatedValues dominationCount] firstFront]. cbn [fst snd] in Hsize.
  apply frontsLoop_returns. unfold positives.
  pose proof (map_subseteq_size _ _
                (map_filter_subseteq (fun kv : C * Z => 0 < kv.2)
                                     dominationCount)).
  lia.
Qed.

End SortingReturns.

(** ** Fast non-dominated sorting loses no chromosome without aliasing *)

Section ReleaseFacts.
Context {C : Type} `{Countable C}.

Lemma occurrences_cons_eq (x : C) l :
  occurrences x (x :: l) = S (occurrences x l).
Proof. unfold occurrences. rewrite filter_cons_True by reflexivity. reflexivity. Qed.

Lemma occurrences_cons_ne (x y : C) l :
  y <> x -> occurrences x (y :: l) = occurrences x l.
Proof. intros Hne. unfold occurrences. rewrite filter_cons_False by exact Hne. reflexivity. Qed.

Lemma occurrences_app (x : C) l1 l2 :
  occurrences x (l1 ++ l2) = (occurrences x l1 + occurrences x l2)%nat.
Proof. unfold occurrences. rewrite filter_app, length_app. reflexivity. Qed.

Lemma occurrences_pos (x : C) l : (0 < occurrences x l)%nat -> In x l.
Proof.
  unfold occurrences. intros Hpos.
  destruct (filter (fun y => y = x) l) as [|y ys] eqn:Hfilter; [simpl in Hpos; lia|].
  assert (Hy : y ∈ filter (fun y => y = x) l) by (rewrite Hfilter; left).
  apply list_elem_of_filter in Hy. destruct Hy as [-> Hy].
  apply list_elem_of_In, Hy.
Qed.

Lemma occurrences_NoDup (x : C) l :
  NoDup l -> occurrences x l = if bool_decide (x ∈ l) then 1%nat else 0%nat.
Proof.
  induction 1 as [|y l Hnotin Hnodup IH].
  - reflexivity.
  - destruct (decide (y = x)) as [->|Hne].
    + rewrite occurrences_cons_eq, IH.
      rewrite (bool_decide_eq_false_2 _ Hnotin).
      rewrite bool_decide_eq_true_2 by left. reflexivity.
    + rewrite occurrences_cons_ne by exact Hne. rewrite IH.
      destruct (decide (x ∈ l)) as [Hin|Hnin].
      * rewrite !bool_decide_eq_true_2; [reflexivity | right; exact Hin | exact Hin].
      * rewrite !bool_decide_eq_false_2; [reflexivity | | exact Hnin].
        intros Hin. apply elem_of_cons in Hin. destruct Hin; congruence.
Qed.

(** What a run of the release steps over the list [qs] does: each count
    drops by the number of occurrences in [qs], and the chromosomes whose
    count passes through 0 are released, once each. *)
Lemma releaseAll_spec qs (dominationCount : gmap C Z) nextFront :
  exists released,
    snd (foldl MOSA.releaseStep (dominationCount, nextFront) qs)
    = nextFront ++ released
    /\ NoDup released
    /\ (forall x,
          default 0 (fst (foldl MOSA.releaseStep (dominationCount, nextFront) qs)
                     !! x)
          = default 0 (dominationCount !! x) - Z.of_nat (occurrences x qs))
    /\ (forall x, In x released <->
          0 < default 0 (dominationCount !! x) <= Z.of_nat (occurrences x qs)).
Proof.
  revert dominationCount nextFront.
  induction qs as [|q qs IH]; intros dominationCount nextFront.
  - exists []. simpl. rewrite app_nil_r.
    split; [reflexivity|]. split; [constructor|]. split.
    + intros x. unfold occurrences. simpl. lia.
    + intros x. unfold occurrences. simpl. split; [intros [] | lia].
  - cbn [foldl]. unfold MOSA.releaseStep at 2 4.
    set (c := default 0 (dominationCount !! q)).
    destruct (IH (<[q := c - 1]> dominationCount)
                 (if c - 1 =? 0 then nextFront ++ [q] else nextFront))
      as (released & Hsnd & Hnodup & Hcount & Hmem).
    assert (Hlookup : forall x,
      default 0 (<[q := c - 1]> dominationCount !! x)
      = if decide (q = x) then c - 1 else default 0 (dominationCount !! x)).
    { intros x. rewrite lookup_insert. destruct (decide (q = x)); reflexivity. }
    exists ((if c - 1 =? 0 then [q] else []) ++ released).
    split; [|split; [|split]].
    + rewrite Hsnd. destruct (c - 1 =? 0); rewrite <- ?app_assoc; reflexivity.
    + destruct (Z.eqb_spec (c - 1) 0) as [Hone|Hother]; [|exact Hnodup].
      simpl. apply NoDup_cons. split; [|exact Hnodup].
      intros Hin. apply list_elem_of_In, Hmem in Hin.
      rewrite Hlookup, decide_True in Hin by reflexivity. lia.
    + intros x. rewrite Hcount, Hlookup.
      destruct (decide (q = x)) as [<-|Hne].
      * rewrite occurrences_cons_eq. fold c. lia.
      * rewrite occurrences_cons_ne by exact Hne. reflexivity.
    + intros x. rewrite in_app_iff, Hmem, Hlookup.
      destruct (decide (q = x)) as [<-|Hne].
      * rewrite occurrences_cons_eq. fold c.
        destruct (Z.eqb_spec (c - 1) 0) as [Hone|Hother]; simpl; split.
        -- intros _. lia.
        -- intros _. left. left. reflexivity.
        -- intros [[]|Hrange]. lia.
        -- intros Hrange. right. lia.
      * rewrite occurrences_cons_ne by exact Hne.
        destruct (c - 1 =? 0); simpl; split.
        -- intros [[Heq|[]]|Hrange]; [congruence | exact Hrange].
        -- intros Hrange. right. exact Hrange.
        -- intros [[]|Hrange]. exact Hrange.
        -- intros Hrange. right. exact Hrange.
Qed.

(** The nested loops of the body of the [while] loop are one run of
    release steps over the concatenated lists of dominated chromosomes. *)
Lemma nextFrontOf_flat (dominatedValues : gmap C (list C))
    (dominationCount : gmap C Z) currentFront :
  MOSA.nextFrontOf dominatedValues dominationCount currentFront
  = foldl MOSA.releaseStep (dominationCount, [])
          (concat (map (fun p => default [] (dominatedValues !! p)) currentFront)).
Proof.
  unfold MOSA.nextFrontOf. generalize (dominationCount, @nil C) as st.
  induction currentFront as [|p ps IH]; intros st; [reflexivity|].
  cbn [foldl map concat]. rewrite foldl_app. apply IH.
Qed.

End ReleaseFacts.

Section FrontsComplete.
Context {C number : Type} `{Countable C}.
Variable fitnessFunctions : JsMap.t (FitnessFunction C number).
Variable archive : JsMap.t C.

#[local] Abbreviation dom := (MOSA.dominates fitnessFunctions archive).

Hypothesis Hasym : forall a b, dom a b = true -> dom b a = false.
Hypothesis Htrans : forall a b c, dom a b = true -> dom b c = true -> dom a c = true.

Variable L : list C.
Hypothesis HnodupL : NoDup L.

Lemma dominationOf_spec p :
  MOSA.dominationOf fitnessFunctions archive L p
  = (filter (fun q => dom p q = true) L,
     Z.of_nat (length (dominatorsIn dom L p))).
Proof.
  unfold MOSA.dominationOf, dominatorsIn.
  assert (Hgen : forall qs dominatedValuesP dominationCountP,
    foldl (fun '(dominatedValuesP, dominationCountP) q =>
             if dom p q then (dominatedValuesP ++ [q], dominationCountP)
             else if dom q p then (dominatedValuesP, dominationCountP + 1)
             else (dominatedValuesP, dominationCountP))
          (dominatedValuesP, dominationCountP) qs
    = (dominatedValuesP ++ filter (fun q => dom p q = true) qs,
       dominationCountP
       + Z.of_nat (length (filter (fun q => dom q p = true) qs)))).
  { induction qs as [|q qs IH]; intros dominatedValuesP dominationCountP.
    - simpl. rewrite app_nil_r. f_equal. lia.
    - cbn [foldl]. rewrite !filter_cons.
      destruct (dom p q) eqn:Hpq.
      + rewrite (Hasym _ _ Hpq). rewrite IH.
        rewrite decide_True by reflexivity. rewrite decide_False by discriminate.
        rewrite <- app_assoc. reflexivity.
      + rewrite decide_False by discriminate.
        destruct (dom q p) eqn:Hqp; rewrite IH.
        * rewrite decide_True by reflexivity. f_equal. simpl length. lia.
        * rewrite decide_False by discriminate. reflexivity. }
  rewrite Hgen. reflexivity.
Qed.

Lemma dominationTables_spec ps dominatedValues0 dominationCount0 firstFront0 :
  let result := foldl (MOSA.dominationStep fitnessFunctions archive L)
                      (dominatedValues0, dominationCount0, firstFront0) ps in
  (forall p, p ∈ ps ->
     fst (fst result) !! p = Some (filter (fun q => dom p q = true) L)
     /\ snd (fst result) !! p = Some (Z.of_nat (length (dominatorsIn dom L p))))
  /\ (forall p, p ∉ ps ->
        fst (fst result) !! p = dominatedValues0 !! p
        /\ snd (fst result) !! p = dominationCount0 !! p)
  /\ snd result
     = firstFront0
       ++ filter (fun p => Z.of_nat (length (dominatorsIn dom L p)) = 0) ps.
Proof.
  revert dominatedValues0 dominationCount0 firstFront0.
  induction ps as [|p0 ps IH];
    intros dominatedValues0 dominationCount0 firstFront0.
  - simpl. rewrite app_nil_r. split; [|split; [|reflexivity]].
    + intros p Hp. apply elem_of_nil in Hp. contradiction.
    + auto.
  - cbn [foldl]. unfold MOSA.dominationStep at 2 4 6 8 10.
    rewrite dominationOf_spec.
    set (n0 := Z.of_nat (length (dominatorsIn dom L p0))).
    destruct (IH (<[p0 := filter (fun q => dom p0 q = true) L]> dominatedValues0)
                 (<[p0 := n0]> dominationCount0)
                 (if n0 =? 0 then firstFront0 ++ [p0] else firstFront0))
      as (Hin & Hout & Hfirst).
    cbn zeta in Hin, Hout, Hfirst. split; [|split].
    + intros p Hp. destruct (decide (p ∈ ps)) as [Hps|Hnps]; [apply Hin, Hps|].
      apply elem_of_cons in Hp. destruct Hp as [->|Hp]; [|contradiction].
      destruct (Hout p0 Hnps) as [-> ->]. rewrite !lookup_insert_eq. auto.
    + intros p Hp. apply not_elem_of_cons in Hp. destruct Hp as [Hne Hnps].
      destruct (Hout p Hnps) as [-> ->].
      rewrite !lookup_insert_ne by congruence. auto.
    + rewrite Hfirst. rewrite filter_cons. fold n0.
      destruct (Z.eqb_spec n0 0) as [Hzero|Hnonzero].
      * rewrite decide_True by exact Hzero. rewrite <- app_assoc. reflexivity.
      * rewrite decide_False by exact Hnonzero. reflexivity.
Qed.

(** Without repeated objects every dominator of [x] in the front has [x]
    once in its list. *)
Lemma occurrences_dominated (dominatedValues : gmap C (list C)) currentFront x :
  (forall p, p ∈ L ->
     dominatedValues !! p = Some (filter (fun q => dom p q = true) L)) ->
  (forall p, p ∈ currentFront -> p ∈ L) ->
  occurrences x (concat (map (fun p => default [] (dominatedValues !! p))
                             currentFront))
  = if bool_decide (x ∈ L) then length (dominatorsIn dom currentFront x)
    else 0%nat.
Proof.
  intros Htable. induction currentFront as [|p ps IH]; intros Hsub.
  - simpl. unfold occurrences. simpl. destruct (bool_decide (x ∈ L)); reflexivity.
  - cbn [map concat]. rewrite occurrences_app.
    rewrite IH by (intros q Hq; apply Hsub; right; exact Hq).
    rewrite (Htable p) by (apply Hsub; left). cbn [default from_option id].
    rewrite occurrences_NoDup by (apply NoDup_filter, HnodupL).
    unfold dominatorsIn. rewrite filter_cons.
    destruct (decide (x ∈ L)) as [HxL|HxL].
    + rewrite (bool_decide_eq_true_2 _ HxL).
      destruct (dom p x) eqn:Hpx.
      * rewrite decide_True by reflexivity.
        rewrite bool_decide_eq_true_2; [reflexivity|].
        apply list_elem_of_filter. auto.
      * rewrite decide_False by discriminate.
        rewrite bool_decide_eq_false_2; [reflexivity|].
        intros Hin. apply list_elem_of_filter in Hin. destruct Hin. congruence.
    + rewrite (bool_decide_eq_false_2 _ HxL).
      rewrite bool_decide_eq_false_2; [reflexivity|].
      intros Hin. apply list_elem_of_filter in Hin. destruct Hin. contradiction.
Qed.

Lemma dominatorsIn_le S q :
  NoDup S -> (forall x, x ∈ S -> x ∈ L) ->
  (length (dominatorsIn dom S q) <= length (dominatorsIn dom L q))%nat.
Proof.
  intros Hnodup Hsub. apply submseteq_length, NoDup_submseteq.
  - apply NoDup_filter, Hnodup.
  - intros x Hx. apply list_elem_of_filter in Hx. destruct Hx as [Hdom Hx].
    apply list_elem_of_filter. auto.
Qed.

Lemma dominatorsIn_app S1 S2 q :
  length (dominatorsIn dom (S1 ++ S2) q)
  = (length (dominatorsIn dom S1 q) + length (dominatorsIn dom S2 q))%nat.
Proof. unfold dominatorsIn. rewrite filter_app, length_app. reflexivity. Qed.

Lemma frontsInv_step (dominatedValues : gmap C (list C))
    (dominationCount : gmap C Z) currentFront fronts :
  (forall p, p ∈ L ->
     dominatedValues !! p = Some (filter (fun q => dom p q = true) L)) ->
  frontsInv dom L dominationCount currentFront fronts ->
  frontsInv dom L
    (fst (MOSA.nextFrontOf dominatedValues dominationCount currentFront))
    (snd (MOSA.nextFrontOf dominatedValues dominationCount currentFront))
    (fronts ++ [currentFront]).
Proof.
  intros Htable (Hnodup & Hsub & Hcount & Hreleased).
  rewrite nextFrontOf_flat.
  set (qs := concat (map (fun p => default [] (dominatedValues !! p))
                         currentFront)).
  destruct (releaseAll_spec qs dominationCount [])
    as (released & Hsnd & Hnodup' & Hcount' & Hmem).
  rewrite Hsnd. cbn [app].
  assert (Hflat : concat (fronts ++ [currentFront])
                  = concat fronts ++ currentFront).
  { rewrite concat_app. simpl. rewrite app_nil_r. reflexivity. }
  assert (Hocc : forall x,
    occurrences x qs
    = if bool_decide (x ∈ L) then length (dominatorsIn dom currentFront x)
      else 0%nat).
  { intros x. apply occurrences_dominated; [exact Htable|].
    intros p Hp. apply Hsub, elem_of_app. right. exact Hp. }
  assert (Hnonneg : forall q, q ∈ L -> 0 <= default 0 (dominationCount !! q)).
  { intros q Hq. rewrite (Hcount q Hq).
    pose proof (dominatorsIn_le (concat fronts) q) as Hle.
    apply NoDup_app in Hnodup. destruct Hnodup as (Hnd & _ & _).
    specialize (Hle Hnd).
    assert ((length (dominatorsIn dom (concat fronts) q)
             <= length (dominatorsIn dom L q))%nat).
    { apply Hle. intros x Hx. apply Hsub, elem_of_app. left. exact Hx. }
    lia. }
  assert (Hnew : forall q, q ∈ L ->
    default 0 (fst (foldl MOSA.releaseStep (dominationCount, []) qs) !! q)
    = Z.of_nat (length (dominatorsIn dom L q))
      - Z.of_nat (length (dominatorsIn dom (concat fronts ++ currentFront) q))).
  { intros q Hq. rewrite Hcount', Hocc, (bool_decide_eq_true_2 _ Hq).
    rewrite (Hcount q Hq), dominatorsIn_app. lia. }
  assert (Hnonneg' : forall q, q ∈ L ->
    0 <= default 0 (fst (foldl MOSA.releaseStep (dominationCount, []) qs) !! q)).
  { intros q Hq. rewrite (Hnew q Hq).
    pose proof (dominatorsIn_le (concat fronts ++ currentFront) q Hnodup Hsub).
    lia. }
  assert (HreleasedL : forall x, x ∈ released -> x ∈ L).
  { intros x Hx. apply list_elem_of_In, Hmem in Hx.
    rewrite Hocc in Hx. destruct (decide (x ∈ L)) as [HxL|HxL]; [exact HxL|].
    rewrite (bool_decide_eq_false_2 _ HxL) in Hx. lia. }
  unfold frontsInv. rewrite Hflat. split; [|split; [|split]].
  - apply NoDup_app. split; [exact Hnodup|]. split; [|exact Hnodup'].
    intros x Hx Hx'. pose proof (HreleasedL x Hx') as HxL.
    apply list_elem_of_In, Hmem in Hx'.
    apply (Hreleased x HxL) in Hx. lia.
  - intros x Hx. apply elem_of_app in Hx. destruct Hx as [Hx|Hx]; auto.
  - exact Hnew.
  - intros q Hq. split.
    + intros Hin. apply elem_of_app in Hin. destruct Hin as [Hin|Hin].
      * apply (Hreleased q Hq) in Hin.
        pose proof (Hnonneg' q Hq) as Hge. rewrite Hcount' in Hge |- *. lia.
      * apply list_elem_of_In, Hmem in Hin.
        pose proof (Hnonneg' q Hq) as Hge. rewrite Hcount' in Hge |- *. lia.
    + intros Hzero. rewrite Hcount' in Hzero.
      destruct (Z.eq_dec (default 0 (dominationCount !! q)) 0) as [Hold|Hold].
      * apply elem_of_app. left. apply (Hreleased q Hq). exact Hold.
      * apply elem_of_app. right. apply list_elem_of_In, Hmem.
        pose proof (Hnonneg q Hq). lia.
Qed.

Lemma frontsLoop_inv fuel (dominatedValues : gmap C (list C)) :
  (forall p, p ∈ L ->
     dominatedValues !! p = Some (filter (fun q => dom p q = true) L)) ->
  forall (dominationCount : gmap C Z) currentFront fronts result,
    MOSA.frontsLoop fuel dominatedValues dominationCount currentFront fronts
    = Some result ->
    frontsInv dom L dominationCount currentFront fronts ->
    exists dominationCount', frontsInv dom L dominationCount' [] result.
Proof.
  intros Htable. induction fuel as [|fuel IH];
    intros dominationCount currentFront fronts result Hrun Hinv.
  - destruct currentFront; [|discriminate].
    injection Hrun as <-. eauto.
  - destruct currentFront as [|p currentFront].
    + injection Hrun as <-. eauto.
    + cbn [MOSA.frontsLoop] in Hrun.
      pose proof (frontsInv_step dominatedValues dominationCount
                    (p :: currentFront) fronts Htable Hinv) as Hstep.
      destruct (MOSA.nextFrontOf dominatedValues dominationCount
                  (p :: currentFront)) as [dominationCount' nextFront].
      eapply IH; [exact Hrun | exact Hstep].
Qed.

(** A list that is not empty has a chromosome that none of the list
    dominates. *)
Lemma exists_undominated (U : list C) :
  U <> [] -> exists m, m ∈ U /\ forall p, p ∈ U -> dom p m = false.
Proof.
  induction U as [|x U IH]; [congruence|]. intros _.
  assert (Hirrefl : forall a, dom a a = false).
  { intros a. destruct (dom a a) eqn:Ha; [|reflexivity].
    rewrite (Hasym _ _ Ha) in Ha. discriminate. }
  destruct U as [|y U].
  - exists x. split; [left|]. intros p Hp.
    apply list_elem_of_singleton in Hp. subst p. apply Hirrefl.
  - destruct IH as (m & Hm & Hmax); [discriminate|].
    destruct (dom x m) eqn:Hxm.
    + exists x. split; [left|]. intros p Hp.
      apply elem_of_cons in Hp. destruct Hp as [->|Hp]; [apply Hirrefl|].
      destruct (dom p x) eqn:Hpx; [|reflexivity].
      rewrite <- (Hmax p Hp). symmetry. eapply Htrans; eassumption.
    + exists m. split; [right; exact Hm|]. intros p Hp.
      apply elem_of_cons in Hp. destruct Hp as [->|Hp]; [exact Hxm | auto].
Qed.

(** When the loop has ended, every chromosome of the list is in a
    front. *)
Lemma frontsInv_complete (dominationCount : gmap C Z) result :
  frontsInv dom L dominationCount [] result ->
  Permutation (concat result) L.
Proof.
  intros (Hnodup & Hsub & Hcount & Hreleased).
  rewrite app_nil_r in Hnodup.
  apply NoDup_Permutation; [exact Hnodup | exact HnodupL |].
  intros x. split.
  { intros Hx. apply Hsub. rewrite app_nil_r. exact Hx. }
  intros HxL.
  destruct (decide (x ∈ concat result)) as [Hin|Hnotin]; [exact Hin | exfalso].
  set (U := filter (fun q => q ∉ concat result) L).
  destruct (exists_undominated U) as (m & Hm & Hmax).
  { intros Hempty.
    assert (Hx : x ∈ U) by (apply list_elem_of_filter; auto).
    rewrite Hempty in Hx. apply elem_of_nil in Hx. exact Hx. }
  apply list_elem_of_filter in Hm. destruct Hm as [Hmnot HmL].
  apply Hmnot.
  assert (Hm' : m ∈ concat result ++ []).
  { apply (Hreleased m HmL). rewrite (Hcount m HmL).
    assert (Hle : (length (dominatorsIn dom L m)
                   <= length (dominatorsIn dom (concat result) m))%nat).
    { apply submseteq_length, NoDup_submseteq.
      - apply NoDup_filter, HnodupL.
      - intros p Hp. apply list_elem_of_filter in Hp. destruct Hp as [Hpm Hp].
        apply list_elem_of_filter. split; [exact Hpm|].
        destruct (decide (p ∈ concat result)) as [Hpin|Hpnot]; [exact Hpin|].
        assert (HpU : p ∈ U) by (apply list_elem_of_filter; auto).
        rewrite (Hmax p HpU) in Hpm. discriminate. }
    pose proof (dominatorsIn_le (concat result) m Hnodup) as Hge.
    assert ((length (dominatorsIn dom (concat result) m)
             <= length (dominatorsIn dom L m))%nat).
    { apply Hge. intros y Hy. apply Hsub. rewrite app_nil_r. exact Hy. }
    lia. }
  rewrite app_nil_r in Hm'. exact Hm'.
Qed.

(** On a list without repeated objects the fronts of
    [fastNonDominatedSorting] hold every chromosome of the list once. *)
Lemma fastNonDominatedSorting_complete fronts :
  MOSA.fastNonDominatedSorting fitnessFunctions archive L = Some fronts ->
  Permutation (concat fronts) L.
Proof.
  unfold MOSA.fastNonDominatedSorting.
  pose proof (dominationTables_spec L ∅ ∅ []) as Htables.
  cbn zeta in Htables.
  fold (MOSA.dominationTables fitnessFunctions archive L) in Htables.
  destruct (MOSA.dominationTables fitnessFunctions archive L)
    as [[dominatedValues dominationCount] firstFront].
  cbn [fst snd] in Htables. destruct Htables as (Hin & _ & Hfirst).
  intros Hrun.
  destruct (frontsLoop_inv _ dominatedValues (fun p Hp => proj1 (Hin p Hp))
              dominationCount firstFront [] fronts Hrun)
    as [dominationCount' Hinv].
  - unfold frontsInv. cbn [concat app]. subst firstFront. cbn [app].
    split; [apply NoDup_filter, HnodupL|]. split; [|split].
    + intros x Hx. apply list_elem_of_filter in Hx. tauto.
    + intros q Hq. rewrite (proj2 (Hin q Hq)). unfold dominatorsIn. simpl. lia.
    + intros q Hq. rewrite (proj2 (Hin q Hq)). simpl.
      rewrite list_elem_of_filter. tauto.
  - eapply frontsInv_complete. exact Hinv.
Qed.

End FrontsComplete.

(** ** The preferred front *)

Section ListFacts.
Context {A : Type} `{EqDecision A}.

Lemma contains_true (l : list A) x : JsList.contains l x = true <-> In x l.
Proof.
  unfold JsList.contains. rewrite bool_decide_eq_true. apply list_elem_of_In.
Qed.

Lemma contains_false (l : list A) x : JsList.contains l x = false <-> ~ In x l.
Proof.
  unfold JsList.contains. rewrite bool_decide_eq_false.
  rewrite list_elem_of_In. reflexivity.
Qed.

Lemma remove_Permutation (l : list A) x :
  In x l -> Permutation (x :: JsList.remove x l) l.
Proof.
  induction l as [|y l IH]; simpl; [tauto|].
  destruct (decide (y = x)) as [->|Hne]; [reflexivity|].
  intros [Heq|Hin]; [congruence|].
  rewrite perm_swap. apply perm_skip, IH, Hin.
Qed.

Lemma remove_sublist (l : list A) x : sublist (JsList.remove x l) l.
Proof.
  induction l as [|y l IH]; simpl; [constructor|].
  destruct (decide (y = x)); [apply sublist_cons; reflexivity|].
  apply sublist_skip, IH.
Qed.

Lemma remove_length (l : list A) x :
  In x l -> S (length (JsList.remove x l)) = length l.
Proof.
  intros Hin. apply (Permutation_length (remove_Permutation l x Hin)).
Qed.

End ListFacts.

Section BestForFacts.
Context {C number : Type}.
Variable getLength : C -> Z.
Variable ff : FitnessFunction C number.

Lemma betterLoop_In rest best fitness :
  fst (foldl (MOSA.betterStep getLength ff) (best, fitness) rest) = best
  \/ In (fst (foldl (MOSA.betterStep getLength ff) (best, fitness) rest)) rest.
Proof.
  revert best fitness. induction rest as [|c rest IH]; intros best fitness.
  - left. reflexivity.
  - cbn [foldl].
    assert (Hstep : MOSA.betterStep getLength ff (best, fitness) c
                    = (c, getFitness ff c)
                    \/ MOSA.betterStep getLength ff (best, fitness) c
                       = (best, fitness)).
    { unfold MOSA.betterStep.
      destruct ((compare ff (getFitness ff c) fitness >? 0)
                || (compare ff (getFitness ff c) fitness =? 0)
                   && (getLength c <? getLength best)); auto. }
    destruct Hstep as [-> | ->].
    + destruct (IH c (getFitness ff c)) as [->|Hin]; simpl; auto.
    + destruct (IH best fitness) as [->|Hin]; simpl; auto.
Qed.

Lemma bestFor_In chromosomes best :
  MOSA.bestFor getLength ff chromosomes = Some best -> In best chromosomes.
Proof.
  destruct chromosomes as [|first rest]; [discriminate|]. simpl.
  intros Heq. injection Heq as <-.
  destruct (betterLoop_In rest first (getFitness ff first)) as [->|Hin]; auto.
Qed.

Hypothesis Htotal : TotalOrderCompare (compare ff).

Lemma strictlyBetter_not_atLeastAsGood x y :
  strictlyBetter getLength ff x y -> atLeastAsGood getLength ff y x -> False.
Proof.
  unfold strictlyBetter, atLeastAsGood.
  pose proof (compare_antisym _ Htotal (getFitness ff x) (getFitness ff y)).
  pose proof (compare_antisym _ Htotal (getFitness ff y) (getFitness ff x)).
  lia.
Qed.

(** A list has one best chromosome. *)
Lemma isBest_unique chromosomes c c' :
  isBest getLength ff chromosomes c -> isBest getLength ff chromosomes c' ->
  c = c'.
Proof.
  intros (pre & post & -> & Hpre & Hpost) (pre' & post' & Heq & Hpre' & Hpost').
  revert pre' Heq Hpre'. induction pre as [|x pre IH]; intros pre' Heq Hpre'.
  - destruct pre' as [|x' pre']; simpl in Heq.
    + congruence.
    + injection Heq as Hhead Htail. subst x' post. exfalso.
      apply (strictlyBetter_not_atLeastAsGood c' c).
      * apply Hpre'. left. reflexivity.
      * apply Hpost. apply in_or_app. right. left. reflexivity.
  - destruct pre' as [|x' pre']; simpl in Heq.
    + injection Heq as Hhead Htail. subst x post'. exfalso.
      apply (strictlyBetter_not_atLeastAsGood c c').
      * apply Hpre. left. reflexivity.
      * apply Hpost'. apply in_or_app. right. left. reflexivity.
    + injection Heq as Hhead Htail. subst x'.
      apply (IH (fun y Hy => Hpre y (or_intror Hy)) pre' Htail).
      intros y Hy. apply Hpre'. right. exact Hy.
Qed.

End BestForFacts.

Section PreferenceLoop.
Context {C number : Type} `{Countable C}.
Variable getLength : C -> Z.
Variable fitnessFunctions : JsMap.t (FitnessFunction C number).
Variable archive : JsMap.t C.
Variable chromosomes : list C.
Hypothesis Htotal : allTotalOrders fitnessFunctions.
Hypothesis Hnonempty : chromosomes <> [].

Lemma preferredBy_snoc_skip ks k c :
  (forall ff, JsMap.get k fitnessFunctions = Some ff ->
              JsMap.get k archive = None -> False) ->
  preferredBy fitnessFunctions getLength archive chromosomes (ks ++ [k]) c
  <-> preferredBy fitnessFunctions getLength archive chromosomes ks c.
Proof.
  intros Hskip. split.
  - intros (key & ff & Hin & Hff & Hunc & Hbest).
    apply in_app_or in Hin. destruct Hin as [Hin|[<-|[]]].
    + exists key, ff. auto.
    + exfalso. eauto.
  - intros (key & ff & Hin & Hrest). exists key, ff.
    split; [apply in_or_app; left; exact Hin | exact Hrest].
Qed.

Lemma preferredBy_snoc ks k ff best c :
  JsMap.get k fitnessFunctions = Some ff ->
  JsMap.get k archive = None ->
  isBest getLength ff chromosomes best ->
  preferredBy fitnessFunctions getLength archive chromosomes (ks ++ [k]) c
  <-> preferredBy fitnessFunctions getLength archive chromosomes ks c
      \/ c = best.
Proof.
  intros Hff Hunc Hbest. split.
  - intros (key & ff' & Hin & Hff' & Hunc' & Hbest').
    apply in_app_or in Hin. destruct Hin as [Hin|[<-|[]]].
    + left. exists key, ff'. auto.
    + right. rewrite Hff in Hff'. injection Hff' as <-.
      apply (isBest_unique getLength ff (Htotal k ff Hff) chromosomes);
        assumption.
  - intros [(key & ff' & Hin & Hrest)| ->].
    + exists key, ff'. split; [apply in_or_app; left; exact Hin | exact Hrest].
    + exists k, ff. split; [apply in_or_app; right; left; reflexivity | auto].
Qed.

Lemma preferenceStep_inv ks k bestFront rest :
  preferenceInv fitnessFunctions getLength archive chromosomes ks bestFront rest ->
  exists bestFront' rest',
    MOSA.preferenceStep getLength fitnessFunctions archive chromosomes
      (Some (bestFront, rest)) k = Some (bestFront', rest')
    /\ preferenceInv fitnessFunctions getLength archive chromosomes (ks ++ [k]) bestFront' rest'.
Proof.
  intros (Hnodup & Hmem & Hperm & Hsub). unfold MOSA.preferenceStep.
  destruct (JsMap.has k archive) eqn:Hhas; cbn [negb].
  { apply JsMap_has_true in Hhas. destruct Hhas as [c0 Hc0].
    exists bestFront, rest. split; [reflexivity|].
    repeat split; try assumption; intros Hc.
    - apply preferredBy_snoc_skip; [intros; congruence | apply Hmem, Hc].
    - apply Hmem. apply preferredBy_snoc_skip in Hc; [exact Hc | intros; congruence]. }
  apply JsMap_has_false in Hhas.
  destruct (JsMap.get k fitnessFunctions) as [ff|] eqn:Hff.
  2:{ exists bestFront, rest. split; [reflexivity|].
      repeat split; try assumption; intros Hc.
      - apply preferredBy_snoc_skip; [intros; congruence | apply Hmem, Hc].
      - apply Hmem. apply preferredBy_snoc_skip in Hc; [exact Hc | intros; congruence]. }
  destruct (bestFor_isBest getLength ff (Htotal k ff Hff) chromosomes Hnonempty)
    as (best & Hbest & HisBest).
  rewrite Hbest.
  destruct (JsList.contains bestFront best) eqn:Hcontains; cbn [negb].
  - apply contains_true in Hcontains.
    exists bestFront, rest. split; [reflexivity|].
    repeat split; try assumption; intros Hc.
    + apply (preferredBy_snoc ks k ff best); [assumption..|]. left. apply Hmem, Hc.
    + apply (preferredBy_snoc ks k ff best) in Hc; [|assumption..].
      destruct Hc as [Hc| ->]; [apply Hmem, Hc | exact Hcontains].
  - apply contains_false in Hcontains.
    assert (Hin : In best rest).
    { pose proof (bestFor_In getLength ff chromosomes best Hbest) as Hin.
      apply (Permutation_in _ (Permutation_sym Hperm)) in Hin.
      apply in_app_or in Hin. tauto. }
    exists (bestFront ++ [best]), (JsList.remove best rest).
    split; [reflexivity|]. repeat split.
    + apply NoDup_app. repeat split; [exact Hnodup | | apply NoDup_singleton].
      intros x Hx Hx'. apply list_elem_of_In in Hx.
      apply list_elem_of_singleton in Hx'. subst x. contradiction.
    + intros Hc. apply (preferredBy_snoc ks k ff best); [assumption..|].
      apply in_app_or in Hc. destruct Hc as [Hc|[<-|[]]]; [|right; reflexivity].
      left. apply Hmem, Hc.
    + intros Hc. apply (preferredBy_snoc ks k ff best) in Hc; [|assumption..].
      apply in_or_app. destruct Hc as [Hc| ->]; [left; apply Hmem, Hc|].
      right. left. reflexivity.
    + rewrite <- app_assoc. simpl. rewrite <- Hperm.
      apply Permutation_app_head, remove_Permutation, Hin.
    + etransitivity; [apply remove_sublist | exact Hsub].
Qed.

Lemma preferenceLoop_inv todo ks bestFront rest :
  preferenceInv fitnessFunctions getLength archive chromosomes ks bestFront rest ->
  exists bestFront' rest',
    foldl (MOSA.preferenceStep getLength fitnessFunctions archive chromosomes)
          (Some (bestFront, rest)) todo = Some (bestFront', rest')
    /\ preferenceInv fitnessFunctions getLength archive chromosomes (ks ++ todo) bestFront' rest'.
Proof.
  revert ks bestFront rest.
  induction todo as [|k todo IH]; intros ks bestFront rest Hinv.
  - exists bestFront, rest. rewrite app_nil_r. split; [reflexivity | exact Hinv].
  - cbn [foldl].
    destruct (preferenceStep_inv ks k bestFront rest Hinv)
      as (bestFront1 & rest1 & -> & Hinv1).
    replace (ks ++ k :: todo) with ((ks ++ [k]) ++ todo)
      by (rewrite <- app_assoc; reflexivity).
    apply IH, Hinv1.
Qed.

End PreferenceLoop.

Section PreferenceSorting.
Context {C number : Type} `{Countable C}.
Variable getLength : C -> Z.
Variable fitnessFunctions : JsMap.t (FitnessFunction C number).
Variable populationSize : Z.
Variable archive : JsMap.t C.

(** C5: preference sorting.  For a combined population that is not empty
    and fitness functions that compare by a total order, the first front
    is the preferred front (left out when it is empty): it holds, once
    each, exactly the chromosomes that are the best of the population for
    some goal without an archive entry (best fitness, ties broken by
    shorter length, further ties by earliest position).  The remaining
    chromosomes (the population without one occurrence of each preferred
    chromosome, in their order) are handed to fast non-dominated sorting,
    whose fronts follow; when the preferred front is larger than the
    population size they follow as one single unsorted front instead. *)
Theorem preference_sorting_fronts (chromosomes : list C) :
  allTotalOrders fitnessFunctions ->
  chromosomes <> [] ->
  exists bestFront rest tail,
    MOSA.preferenceSorting getLength fitnessFunctions populationSize
                           archive chromosomes
    = Some ((if bestFront is [] then [] else [bestFront]) ++ tail)
    /\ NoDup bestFront
    /\ (forall key ff,
          JsMap.get key fitnessFunctions = Some ff ->
          JsMap.get key archive = None ->
          exists c, isBest getLength ff chromosomes c /\ In c bestFront)
    /\ (forall c, In c bestFront <->
          exists key ff,
            JsMap.get key fitnessFunctions = Some ff
            /\ JsMap.get key archive = None
            /\ isBest getLength ff chromosomes c)
    /\ Permutation (bestFront ++ rest) chromosomes
    /\ sublist rest chromosomes
    /\ (populationSize < Z.of_nat (length bestFront) -> tail = [rest])
    /\ (Z.of_nat (length bestFront) <= populationSize ->
        MOSA.fastNonDominatedSorting fitnessFunctions archive rest = Some tail).
Proof.
  intros Htotal Hnonempty.
  destruct (preferenceLoop_inv getLength fitnessFunctions archive chromosomes
              Htotal Hnonempty (JsMap.keys fitnessFunctions) [] [] chromosomes)
    as (bestFront & rest & Hloop & Hnodup & Hmem & Hperm & Hsub).
  { repeat split.
    - constructor.
    - intros [].
    - intros (key & ff & [] & _).
    - reflexivity.
    - reflexivity. }
  simpl in Hloop, Hmem. unfold MOSA.preferenceSorting. rewrite Hloop.
  assert (Hfront :
    (if 0 <? Z.of_nat (length bestFront) then [bestFront] else [])
    = (if bestFront is [] then [] else [bestFront])).
  { destruct bestFront; reflexivity. }
  rewrite Hfront.
  assert (Hmem' : forall c, In c bestFront <->
            exists key ff,
              JsMap.get key fitnessFunctions = Some ff
              /\ JsMap.get key archive = None
              /\ isBest getLength ff chromosomes c).
  { intros c. rewrite Hmem. split.
    - intros (key & ff & _ & Hrest). exists key, ff. exact Hrest.
    - intros (key & ff & Hff & Hrest). exists key, ff.
      split; [eapply JsMap_get_In_keys; exact Hff | auto]. }
  assert (Heach : forall key ff,
            JsMap.get key fitnessFunctions = Some ff ->
            JsMap.get key archive = None ->
            exists c, isBest getLength ff chromosomes c /\ In c bestFront).
  { intros key ff Hff Hunc.
    destruct (bestFor_isBest getLength ff (Htotal key ff Hff) chromosomes
                Hnonempty) as (c & _ & Hbest).
    exists c. split; [exact Hbest|]. apply Hmem'. exists key, ff. auto. }
  destruct (Z.ltb_spec populationSize (Z.of_nat (length bestFront))) as [Hlt|Hge].
  - exists bestFront, rest, [rest].
    split; [reflexivity|]. split; [exact Hnodup|]. split; [exact Heach|].
    split; [exact Hmem'|]. split; [exact Hperm|]. split; [exact Hsub|].
    split; [reflexivity | lia].
  - destruct (fastNonDominatedSorting_returns fitnessFunctions archive rest)
      as [tail Htail].
    rewrite Htail. exists bestFront, rest, tail.
    split; [reflexivity|]. split; [exact Hnodup|]. split; [exact Heach|].
    split; [exact Hmem'|]. split; [exact Hperm|]. split; [exact Hsub|].
    split; [lia | intros _; exact Htail].
Qed.

End PreferenceSorting.

(** ** SinglePointRelativeCrossover *)

(** Swapping the tails behind any two cut points that lie in the parents
    and grow with the length of the parent, no faster than the length,
    conserves the genes and keeps the offspring within the longer
    parent. *)
Lemma swapTails_conservation {G : Type} (pos1 pos2 : nat)
    (parent1 parent2 : list G) :
  (pos1 <= length parent1)%nat ->
  (pos2 <= length parent2)%nat ->
  ((length parent1 <= length parent2)%nat ->
   (pos1 <= pos2)%nat /\ (pos2 + length parent1 <= pos1 + length parent2)%nat) ->
  ((length parent2 <= length parent1)%nat ->
   (pos2 <= pos1)%nat /\ (pos1 + length parent2 <= pos2 + length parent1)%nat) ->
  let offspring :=
    SinglePointRelativeCrossover.swapTails pos1 pos2 parent1 parent2 in
  (length (fst offspring) + length (snd offspring)
   = length parent1 + length parent2)%nat
  /\ (length (fst offspring) <= Nat.max (length parent1) (length parent2))%nat
  /\ (length (snd offspring) <= Nat.max (length parent1) (length parent2))%nat
  /\ Permutation (fst offspring ++ snd offspring) (parent1 ++ parent2).
Proof.
  intros Hle1 Hle2 Hshorter Hlonger.
  unfold SinglePointRelativeCrossover.swapTails. cbn [fst snd].
  rewrite !length_app, !length_take, !length_drop.
  repeat split.
  - lia.
  - destruct (Nat.le_ge_cases (length parent1) (length parent2)) as [Hle|Hge];
      [destruct (Hshorter Hle) | destruct (Hlonger Hge)]; lia.
  - destruct (Nat.le_ge_cases (length parent1) (length parent2)) as [Hle|Hge];
      [destruct (Hshorter Hle) | destruct (Hlonger Hge)]; lia.
  - transitivity ((take pos1 parent1 ++ drop pos1 parent1)
                  ++ (take pos2 parent2 ++ drop pos2 parent2));
      [|rewrite !take_drop; reflexivity].
    rewrite <- !app_assoc. apply Permutation_app_head.
    etransitivity; [apply Permutation_app_comm|].
    rewrite <- app_assoc. etransitivity; [|apply Permutation_app_comm].
    rewrite <- app_assoc. apply Permutation_app_head, Permutation_app_comm.
Qed.

Section CrossoverFacts.
Variable r : Q.
Hypothesis Hpos : (0 < r)%Q.
Hypothesis Hlt : (r < 1)%Q.

Lemma cutPoint_eq n :
  Z.of_nat (SinglePointRelativeCrossover.cutPoint r n)
  = (Qnum r * Z.of_nat n) / Z.pos (Qden r).
Proof.
  unfold SinglePointRelativeCrossover.cutPoint.
  destruct r as [a b]. unfold Qlt in Hpos. simpl in *.
  rewrite Pos.mul_1_r. rewrite Z2Nat.id; [reflexivity|].
  apply Z.div_pos; [nia | lia].
Qed.

Lemma cutPoint_le n : (SinglePointRelativeCrossover.cutPoint r n <= n)%nat.
Proof.
  apply Nat2Z.inj_le. rewrite cutPoint_eq.
  destruct r as [a b]. unfold Qlt in Hpos, Hlt. simpl in *.
  apply Z.div_le_upper_bound; [lia | nia].
Qed.

Lemma cutPoint_mono n m :
  (n <= m)%nat ->
  (SinglePointRelativeCrossover.cutPoint r n
   <= SinglePointRelativeCrossover.cutPoint r m)%nat.
Proof.
  intros Hnm. apply Nat2Z.inj_le. rewrite !cutPoint_eq.
  destruct r as [a b]. unfold Qlt in Hpos. simpl in *.
  apply Z.div_le_mono; [lia | nia].
Qed.

Lemma cutPoint_gap n m :
  (n <= m)%nat ->
  (SinglePointRelativeCrossover.cutPoint r m + n
   <= SinglePointRelativeCrossover.cutPoint r n + m)%nat.
Proof.
  intros Hnm. apply Nat2Z.inj_le. rewrite !Nat2Z.inj_add, !cutPoint_eq.
  destruct r as [a b]. unfold Qlt in Hpos, Hlt. simpl in *.
  assert (Hdiv : a * Z.of_nat m / Z.pos b
                 <= (a * Z.of_nat n + (Z.of_nat m - Z.of_nat n) * Z.pos b)
                    / Z.pos b).
  { apply Z.div_le_mono; [lia | nia]. }
  rewrite Z.div_add in Hdiv by lia. lia.
Qed.

(** C6: conservation under SinglePointRelativeCrossover.  For a relative
    cut point [r] in (0,1) the two offspring have together as many genes as
    the two parents, neither is longer than the longer parent, and the
    genes of the offspring are the genes of the parents as multisets. *)
Theorem crossover_conservation {G : Type} (parent1 parent2 : list G) :
  let offspring := SinglePointRelativeCrossover.apply r parent1 parent2 in
  (length (fst offspring) + length (snd offspring)
   = length parent1 + length parent2)%nat
  /\ (length (fst offspring) <= Nat.max (length parent1) (length parent2))%nat
  /\ (length (snd offspring) <= Nat.max (length parent1) (length parent2))%nat
  /\ Permutation (fst offspring ++ snd offspring) (parent1 ++ parent2).
Proof.
  unfold SinglePointRelativeCrossover.apply.
  apply swapTails_conservation.
  - apply cutPoint_le.
  - apply cutPoint_le.
  - intros Hle. split; [apply cutPoint_mono, Hle | apply cutPoint_gap, Hle].
  - intros Hle. split; [apply cutPoint_mono, Hle | apply cutPoint_gap, Hle].
Qed.

End CrossoverFacts.

(** ** Random search *)

Section RandomSearchFacts.
Context {TestChromosome Goal World : Type} `{EqDecision Goal}.
Variable isCovered : Goal -> TestChromosome -> bool.
Variable _extractCoverageGoals : JsMap.t Goal.
Variable now : World -> Z * World.
Variable chromosomeGenerator : World -> TestChromosome * World.
Variable isFinished :
  RandomTestGenerator.Fields TestChromosome Goal -> World -> bool * World.

#[local] Abbreviation keepStep := (RandomTestGenerator.keepStep isCovered).
#[local] Abbreviation turnWith := (RandomTestGenerator.turnWith isCovered).
#[local] Abbreviation WT := (@RandomTestGenerator.Build_WhiskerTest TestChromosome).

Lemma keepLoop_spec c gs st coveredGoals :
  let covered := filter (fun g => isCovered g c = true) gs in
  let result := foldl (keepStep c) (st, coveredGoals) gs in
  RandomTestGenerator.testSuite (fst result)
  = RandomTestGenerator.testSuite st ++ map (fun _ => WT c) covered
  /\ RandomTestGenerator.uncoveredGoals (fst result)
     = RandomTestGenerator.uncoveredGoals st
  /\ snd result = coveredGoals ++ covered.
Proof.
  revert st coveredGoals. induction gs as [|g gs IH]; intros st coveredGoals.
  - simpl. rewrite !app_nil_r. auto.
  - cbn [foldl]. rewrite filter_cons. unfold RandomTestGenerator.keepStep at 2 4 6.
    destruct (isCovered g c) eqn:Hg.
    + rewrite decide_True by reflexivity.
      match goal with |- context [foldl _ (?s, ?cg) gs] =>
        destruct (IH s cg) as (Hsuite & Hunc & Hcov) end.
      cbn zeta in Hsuite, Hunc, Hcov. rewrite Hsuite, Hunc, Hcov. simpl.
      rewrite <- !app_assoc. auto.
    + rewrite decide_False by discriminate.
      destruct (IH st coveredGoals) as (Hsuite & Hunc & Hcov).
      cbn zeta in Hsuite, Hunc, Hcov. rewrite Hsuite, Hunc, Hcov. auto.
Qed.

(** Removing the covered goals one by one leaves the goals that are not
    covered. *)
Lemma remove_covered (P : Goal -> bool) gs pre :
  (forall g, In g pre -> P g = false) ->
  foldl (fun uncovered ff => JsList.remove ff uncovered) (pre ++ gs)
        (filter (fun g => P g = true) gs)
  = pre ++ filter (fun g => P g = false) gs.
Proof.
  revert pre. induction gs as [|g gs IH]; intros pre Hpre.
  - reflexivity.
  - rewrite !filter_cons. destruct (P g) eqn:Hg.
    + rewrite decide_True by reflexivity. rewrite decide_False by discriminate.
      cbn [foldl].
      assert (Hrem : JsList.remove g (pre ++ g :: gs) = pre ++ gs).
      { clear IH. induction pre as [|x pre IHpre]; simpl.
        - rewrite decide_True by reflexivity. reflexivity.
        - destruct (decide (x = g)) as [->|Hne].
          + specialize (Hpre g (or_introl eq_refl)). congruence.
          + f_equal. apply IHpre. intros y Hy. apply Hpre. right. exact Hy. }
      rewrite Hrem. apply IH, Hpre.
    + rewrite decide_False by discriminate. rewrite decide_True by reflexivity.
      replace (pre ++ g :: gs) with ((pre ++ [g]) ++ gs)
        by (rewrite <- app_assoc; reflexivity).
      rewrite IH.
      * rewrite <- app_assoc. reflexivity.
      * intros y Hy. apply in_app_or in Hy. destruct Hy as [Hy|[<-|[]]]; auto.
Qed.

Lemma turnWith_spec c st :
  RandomTestGenerator.testSuite (turnWith c st)
  = RandomTestGenerator.testSuite st
    ++ map (fun _ => WT c)
           (filter (fun g => isCovered g c = true)
                   (RandomTestGenerator.uncoveredGoals st))
  /\ RandomTestGenerator.uncoveredGoals (turnWith c st)
     = filter (fun g => isCovered g c = false)
              (RandomTestGenerator.uncoveredGoals st).
Proof.
  unfold RandomTestGenerator.turnWith. cbn [RandomTestGenerator.uncoveredGoals].
  match goal with |- context [foldl _ (?s, []) ?gs] =>
    destruct (keepLoop_spec c gs s []) as (Hsuite & Hunc & Hcov);
    destruct (foldl (keepStep c) (s, []) gs) as [st' coveredGoals] end.
  cbn [fst snd RandomTestGenerator.testSuite RandomTestGenerator.uncoveredGoals]
    in *.
  split; [exact Hsuite|].
  rewrite Hunc, Hcov. simpl.
  apply (remove_covered (fun g => isCovered g c)
           (RandomTestGenerator.uncoveredGoals st) []).
  intros g [].
Qed.

(** The loop state after the chromosomes [cs] were generated in turn. *)
Lemma turns_spec cs st :
  let st' := foldl (fun st c => turnWith c st) st cs in
  map RandomTestGenerator.chromosome (RandomTestGenerator.testSuite st')
  = map RandomTestGenerator.chromosome (RandomTestGenerator.testSuite st)
    ++ suiteOf isCovered (RandomTestGenerator.uncoveredGoals st) cs
  /\ RandomTestGenerator.uncoveredGoals st'
     = uncoveredAfter isCovered (RandomTestGenerator.uncoveredGoals st) cs.
Proof.
  revert st. induction cs as [|c cs IH]; intros st.
  - simpl. rewrite app_nil_r. auto.
  - cbn [foldl]. destruct (IH (turnWith c st)) as [Hsuite Hunc].
    cbn zeta in *. rewrite Hsuite, Hunc.
    destruct (turnWith_spec c st) as [-> ->].
    simpl. rewrite map_app, map_map. simpl. rewrite <- app_assoc. auto.
Qed.

Lemma searchLoop_turns fuel st w st' w' :
  RandomTestGenerator.searchLoop isCovered chromosomeGenerator isFinished
    fuel st w = Some (st', w') ->
  exists cs, st' = foldl (fun st c => turnWith c st) st cs
             /\ (length cs <= fuel)%nat.
Proof.
  revert st w. induction fuel as [|fuel IH]; intros st w Hrun; simpl in Hrun.
  - bind_dest Hrun as finished w1 Hfinished. destruct finished.
    + injection Hrun as <- _. exists []. simpl. auto.
    + discriminate.
  - bind_dest Hrun as finished w1 Hfinished. destruct finished.
    + injection Hrun as <- _. exists []. simpl. split; [reflexivity | lia].
    + bind_dest Hrun as st1 w2 Hturn. unfold RandomTestGenerator.turn in Hturn.
      bind_dest Hturn as c w3 Hgenerated. injection Hturn as <- <-.
      destruct (IH _ _ Hrun) as (cs & -> & Hlen).
      exists (c :: cs). simpl. split; [reflexivity | lia].
Qed.

Lemma suiteOf_length (uncovered : list Goal) cs :
  (length (suiteOf isCovered uncovered cs)
   + length (uncoveredAfter isCovered uncovered cs)
   = length uncovered)%nat.
Proof.
  revert uncovered. induction cs as [|c cs IH]; intros uncovered; simpl.
  - reflexivity.
  - rewrite length_app, length_map, <- Nat.add_assoc, IH.
    clear IH. induction uncovered as [|g gs IHg]; [reflexivity|].
    rewrite !filter_cons. destruct (isCovered g c).
    + rewrite decide_True by reflexivity. rewrite decide_False by discriminate.
      simpl. lia.
    + rewrite decide_False by discriminate. rewrite decide_True by reflexivity.
      simpl. lia.
Qed.

Lemma suiteOf_coversNew (uncovered : list Goal) cs pre c post :
  suiteOf isCovered uncovered cs = pre ++ c :: post ->
  exists earlier later,
    cs = earlier ++ c :: later /\ coversNew isCovered uncovered earlier c.
Proof.
  revert uncovered pre post.
  induction cs as [|c0 cs IH]; intros uncovered pre post Heq.
  - destruct pre; discriminate.
  - simpl in Heq.
    assert (Hin : In c (suiteOf isCovered uncovered (c0 :: cs))).
    { simpl. rewrite Heq. apply in_or_app. right. left. reflexivity. }
    clear Heq. simpl in Hin. apply in_app_or in Hin.
    destruct Hin as [Hin|Hin].
    + apply in_map_iff in Hin. destruct Hin as (g & <- & Hg).
      apply list_elem_of_In, list_elem_of_filter in Hg. destruct Hg as [Hcov Hg].
      exists [], cs. split; [reflexivity|].
      exists g. split; [apply list_elem_of_In, Hg|]. split; [exact Hcov|].
      intros c' [].
    + apply in_split in Hin. destruct Hin as (pre' & post' & Heq').
      destruct (IH _ _ _ Heq') as (earlier & later & -> & g & Hg & Hcov & Hearlier).
      apply list_elem_of_In, list_elem_of_filter in Hg. destruct Hg as [Hnot Hg].
      exists (c0 :: earlier), later. split; [reflexivity|].
      exists g. split; [apply list_elem_of_In, Hg|]. split; [exact Hcov|].
      intros c' [<-|Hc']; auto.
Qed.

End RandomSearchFacts.

Section RandomSearchSuite.
Context {TestChromosome Goal World : Type} `{EqDecision Goal}.
Variable isCovered : Goal -> TestChromosome -> bool.
Variable _extractCoverageGoals : JsMap.t Goal.
Variable now : World -> Z * World.
Variable chromosomeGenerator : World -> TestChromosome * World.
Variable isFinished :
  RandomTestGenerator.Fields TestChromosome Goal -> World -> bool * World.

(** More fuel does not change what the loop returns. *)
Lemma searchLoop_more_fuel fuel st w r :
  RandomTestGenerator.searchLoop isCovered chromosomeGenerator isFinished
    fuel st w = Some r ->
  RandomTestGenerator.searchLoop isCovered chromosomeGenerator isFinished
    (S fuel) st w = Some r.
Proof.
  revert st w. induction fuel as [|fuel IH]; intros st w Hrun.
  - simpl in Hrun. bind_dest Hrun as finished w1 Hfinished.
    destruct finished; [|discriminate].
    simpl. apply bind_Some. exists true, w1. auto.
  - cbn [RandomTestGenerator.searchLoop] in Hrun |- *.
    bind_dest Hrun as finished w1 Hfinished.
    apply bind_Some. exists finished, w1. split; [exact Hfinished|].
    destruct finished; [exact Hrun|].
    bind_dest Hrun as st1 w2 Hturn.
    apply bind_Some. exists st1, w2. split; [exact Hturn|].
    apply IH, Hrun.
Qed.

(** The inner loop leaves [_iterations] as it is, and a turn of the outer
    loop counts one iteration, whatever it keeps. *)
Lemma keepLoop_iterations c gs
    (acc : RandomTestGenerator.LoopState TestChromosome Goal * list Goal) :
  RandomTestGenerator._iterations
    (RandomTestGenerator.this
       (fst (foldl (RandomTestGenerator.keepStep isCovered c) acc gs)))
  = RandomTestGenerator._iterations (RandomTestGenerator.this (fst acc)).
Proof.
  revert acc. induction gs as [|g gs IH]; intros acc; [reflexivity|].
  cbn [foldl]. rewrite IH. unfold RandomTestGenerator.keepStep.
  destruct acc as [st coveredGoals]. destruct (isCovered g c); reflexivity.
Qed.

Lemma turns_iterations cs
    (st : RandomTestGenerator.LoopState TestChromosome Goal) :
  RandomTestGenerator._iterations
    (RandomTestGenerator.this
       (foldl (fun st c => RandomTestGenerator.turnWith isCovered c st) st cs))
  = RandomTestGenerator._iterations (RandomTestGenerator.this st)
    + Z.of_nat (length cs).
Proof.
  revert st. induction cs as [|c cs IH]; intros st.
  - simpl. lia.
  - cbn [foldl length]. rewrite IH. unfold RandomTestGenerator.turnWith.
    match goal with |- context [foldl _ ?a ?gs] =>
      pose proof (keepLoop_iterations c gs a) as Hkeep;
      destruct (foldl (RandomTestGenerator.keepStep isCovered c) a gs)
        as [st' coveredGoals] end.
    cbn [fst RandomTestGenerator.this RandomTestGenerator._iterations]
      in Hkeep |- *.
    rewrite Hkeep. lia.
Qed.

(** The loop run with the recording generator takes the same turns as the
    loop itself, and its log grows by the chromosomes of these turns. *)
Lemma searchLoop_recording fuel st w log st' w' :
  RandomTestGenerator.searchLoop isCovered chromosomeGenerator isFinished
    fuel st w = Some (st', w') ->
  exists cs,
    RandomTestGenerator.searchLoop isCovered (recording chromosomeGenerator)
      (fun this => besideLog (isFinished this)) fuel st (w, log)
    = Some (st', (w', log ++ cs))
    /\ st' = foldl (fun st c => RandomTestGenerator.turnWith isCovered c st)
                   st cs.
Proof.
  revert st w log. induction fuel as [|fuel IH]; intros st w log Hrun;
    cbn [RandomTestGenerator.searchLoop] in Hrun |- *.
  - bind_dest Hrun as finished w1 Hfinished.
    unfold Eff.lift in Hfinished. injection Hfinished as Hfinished.
    destruct finished; [|discriminate]. injection Hrun as <- <-.
    exists []. rewrite app_nil_r. split; [|reflexivity].
    unfold Eff.bind, Eff.lift, besideLog. cbn [fst snd].
    rewrite Hfinished. reflexivity.
  - bind_dest Hrun as finished w1 Hfinished.
    unfold Eff.lift in Hfinished. injection Hfinished as Hfinished.
    destruct finished.
    + injection Hrun as <- <-.
      exists []. rewrite app_nil_r. split; [|reflexivity].
      unfold Eff.bind at 1. unfold Eff.lift, besideLog. cbn [fst snd].
      rewrite Hfinished. reflexivity.
    + bind_dest Hrun as st1 w2 Hturn. unfold RandomTestGenerator.turn in Hturn.
      bind_dest Hturn as c w3 Hgenerated.
      unfold Eff.lift in Hgenerated. injection Hgenerated as Hgenerated.
      injection Hturn as <- <-.
      destruct (IH _ _ (log ++ [c]) Hrun) as (cs & Hrec & ->).
      exists (c :: cs). split; [|reflexivity].
      unfold Eff.bind at 1. unfold Eff.lift at 1. unfold besideLog at 1.
      cbn [fst snd]. rewrite Hfinished.
      unfold Eff.bind at 1. unfold RandomTestGenerator.turn.
      unfold Eff.bind at 1. unfold Eff.lift at 1. unfold recording at 1.
      cbn [fst snd]. rewrite Hgenerated. unfold Eff.ret at 1.
      rewrite Hrec, <- app_assoc. reflexivity.
Qed.

(** C7 as the code has it.  [generated] is the list of the chromosomes
    that [chromosomeGenerator.get()] returned during this very call of
    [generateTests], one per turn of the loop and in the order of the
    turns: the call run with the recording generator returns the same
    result and the same world, and its log is [generated]; [_iterations]
    has grown by the length of [generated].  The suite that [generateTests]
    returns holds one entry per newly covered goal, that is, each generated
    chromosome once for every still-uncovered goal it covers; so the
    entries and the goals left uncovered are together as many as the goals,
    the suite is never larger than the number of goals, and every entry
    covers a goal that no chromosome generated before it covers. *)
Theorem random_search_suite fuel self stats w result w' :
  RandomTestGenerator.generateTests isCovered _extractCoverageGoals now
    chromosomeGenerator isFinished fuel self stats w = Some (result, w') ->
  let goals := JsMap.values _extractCoverageGoals in
  let suite := map RandomTestGenerator.chromosome
                   (RandomTestGenerator.testSuite result) in
  exists generated,
    RandomTestGenerator.generateTests isCovered _extractCoverageGoals
      (besideLog now) (recording chromosomeGenerator)
      (fun this => besideLog (isFinished this)) fuel self stats (w, [])
    = Some (result, (w', generated))
    /\ RandomTestGenerator._iterations (RandomTestGenerator.this result)
       = RandomTestGenerator._iterations self + Z.of_nat (length generated)
    /\ suite = suiteOf isCovered goals generated
    /\ RandomTestGenerator.uncoveredGoals result
       = uncoveredAfter isCovered goals generated
    /\ (length suite + length (RandomTestGenerator.uncoveredGoals result)
        = length goals)%nat
    /\ (length (RandomTestGenerator.testSuite result)
        <= JsMap.size _extractCoverageGoals)%nat
    /\ (forall pre t post, suite = pre ++ t :: post ->
          exists earlier later,
            generated = earlier ++ t :: later
            /\ coversNew isCovered goals earlier t).
Proof.
  intros Hrun goals suite. unfold RandomTestGenerator.generateTests in Hrun.
  bind_dest Hrun as st0 w0 Hstart. bind_dest Hrun as st1 w1 Hloop.
  injection Hrun as <- <-.
  unfold RandomTestGenerator.start in Hstart.
  bind_dest Hstart as startTime w2 Hnow. injection Hstart as <- <-.
  unfold Eff.lift in Hnow. injection Hnow as Hnow.
  destruct (searchLoop_recording _ _ _ [] _ _ Hloop) as (generated & Hrec & ->).
  match goal with |- context [foldl _ ?s generated] =>
    destruct (turns_spec isCovered generated s) as [Hsuite Hunc];
    pose proof (turns_iterations generated s) as Hiterations end.
  cbn zeta in Hsuite, Hunc.
  cbn [RandomTestGenerator.testSuite RandomTestGenerator.uncoveredGoals
       RandomTestGenerator.this RandomTestGenerator._iterations map app]
    in Hsuite, Hunc, Hiterations.
  subst suite goals.
  cbn [RandomTestGenerator.testSuite RandomTestGenerator.uncoveredGoals
       RandomTestGenerator.this].
  exists generated. split.
  { unfold RandomTestGenerator.generateTests.
    apply bind_Some. eexists _, (w2, []). split.
    - unfold RandomTestGenerator.start. apply bind_Some.
      exists startTime, (w2, []). split; [|reflexivity].
      unfold Eff.lift, besideLog. cbn [fst snd]. rewrite Hnow. reflexivity.
    - apply bind_Some. eexists _, (w1, generated).
      split; [exact Hrec | reflexivity]. }
  split; [exact Hiterations|].
  pose proof (suiteOf_length isCovered (JsMap.values _extractCoverageGoals)
                generated) as Hlen.
  rewrite Hsuite, Hunc.
  split; [reflexivity|]. split; [reflexivity|].
  split; [exact Hlen|]. split.
  - rewrite <- (length_map RandomTestGenerator.chromosome), Hsuite.
    unfold JsMap.size, JsMap.values in *. rewrite length_map in Hlen. lia.
  - intros pre t post Heq. eapply suiteOf_coversNew. exact Heq.
Qed.

End RandomSearchSuite.

(** ** The interface methods of RandomTestGenerator *)

(** C10: on a [RandomTestGenerator], [findSolution] and every setter of the
    [SearchAlgorithm] interface throw [NotSupportedFunctionException]
    whatever the object and the argument are, while the observables
    [getNumberOfIterations], [getCurrentSolution] and [getStartTime]
    return the fields that [generateTests] maintains. *)
Theorem random_generator_unsupported
    {TestChromosome Goal World Function Properties Selection : Type}
    (self : RandomTestGenerator.Fields TestChromosome Goal)
    (generator : World -> TestChromosome * World)
    (fitnessFunction : Goal) (fitnessFunctions : JsMap.t Goal)
    (heuristicFunctions : JsMap.t Function) (properties : Properties)
    (selectionOperator : Selection) :
  RandomTestGenerator.findSolution self = inl NotSupportedFunctionException
  /\ RandomTestGenerator.setChromosomeGenerator self generator
     = inl NotSupportedFunctionException
  /\ RandomTestGenerator.setFitnessFunction self fitnessFunction
     = inl NotSupportedFunctionException
  /\ RandomTestGenerator.setFitnessFunctions self fitnessFunctions
     = inl NotSupportedFunctionException
  /\ RandomTestGenerator.setHeuristicFunctions self heuristicFunctions
     = inl NotSupportedFunctionException
  /\ RandomTestGenerator.setProperties self properties
     = inl NotSupportedFunctionException
  /\ RandomTestGenerator.setSelectionOperator self selectionOperator
     = inl NotSupportedFunctionException
  /\ RandomTestGenerator.getNumberOfIterations self
     = inr (RandomTestGenerator._iterations self)
  /\ RandomTestGenerator.getCurrentSolution self
     = inr (RandomTestGenerator._tests self)
  /\ RandomTestGenerator.getStartTime self
     = inr (RandomTestGenerator._startTime self).
Proof. repeat split. Qed.

(** ** Configuration *)

Section ConfigurationFacts.
Import WhiskerSearchConfiguration.

Lemma strictEqStr_false v s : Js.strictEqStr v s = false <-> v <> Js.VStr s.
Proof.
  destruct v; simpl; try (split; [discriminate | reflexivity]).
  destruct (String.eqb_spec s0 s) as [->|Hne]; split; congruence.
Qed.

Lemma strictEqStr_true v s : Js.strictEqStr v s = true <-> v = Js.VStr s.
Proof.
  destruct v; simpl; try (split; discriminate).
  destruct (String.eqb_spec s0 s) as [->|Hne]; split; congruence.
Qed.

(** What [getAlgorithm] does on each value of [algorithm]. *)
Lemma getAlgorithm_cases (dict : Dict) :
  let algorithm := Js.lookup "algorithm" dict in
  (algorithm = Js.VStr "random" ->
     getAlgorithm dict = inr (Some SearchAlgorithmType.RANDOM))
  /\ (algorithm = Js.VStr "one-plus-one" ->
        getAlgorithm dict = inr (Some SearchAlgorithmType.ONE_PLUS_ONE))
  /\ (algorithm = Js.VStr "mosa" ->
        getAlgorithm dict = inr (Some SearchAlgorithmType.MOSA))
  /\ (algorithm = Js.VStr "mio" ->
        getAlgorithm dict = inr (Some SearchAlgorithmType.MIO))
  /\ (algorithm = Js.VStr "simplega" -> getAlgorithm dict = inr None)
  /\ (algorithm <> Js.VStr "random" ->
      algorithm <> Js.VStr "one-plus-one" ->
      algorithm <> Js.VStr "simplega" ->
      algorithm <> Js.VStr "mosa" ->
      algorithm <> Js.VStr "mio" ->
      getAlgorithm dict
      = inl (IllegalArgumentException
               "Invalid configuration. Unknown algorithm: " algorithm)).
Proof.
  intros algorithm. unfold getAlgorithm. fold algorithm.
  repeat split; try (intros ->; reflexivity).
  intros H1 H2 H3 H4 H5.
  apply strictEqStr_false in H1, H2, H3, H4, H5.
  rewrite H1, H2, H3, H4, H5. reflexivity.
Qed.

(** C8, at the values the specification names: [random], [one-plus-one], [mosa]
    and [mio] yield a member of [SearchAlgorithmType]; [simplega] yields
    [SearchAlgorithmType.SIMPLEGA], which the enum does not declare, that
    is [undefined]; another value throws the [IllegalArgumentException]
    "Invalid configuration". *)
Theorem getAlgorithm_simplega_undefined :
  getAlgorithm [("algorithm", Js.VStr "random")]
  = inr (Some SearchAlgorithmType.RANDOM)
  /\ getAlgorithm [("algorithm", Js.VStr "one-plus-one")]
     = inr (Some SearchAlgorithmType.ONE_PLUS_ONE)
  /\ getAlgorithm [("algorithm", Js.VStr "mosa")]
     = inr (Some SearchAlgorithmType.MOSA)
  /\ getAlgorithm [("algorithm", Js.VStr "mio")]
     = inr (Some SearchAlgorithmType.MIO)
  /\ getAlgorithm [("algorithm", Js.VStr "simplega")] = inr None
  /\ getAlgorithm [("algorithm", Js.VStr "genetic")]
     = inl (IllegalArgumentException
              "Invalid configuration. Unknown algorithm: " (Js.VStr "genetic")).
Proof. repeat split. Qed.

Lemma getProp_error v k e : Exn.getProp v k = inl e -> e = TypeError.
Proof.
  unfold Exn.getProp, Exn.raise, Exn.ok. destruct v; intros Heq; congruence.
Qed.


End ConfigurationFacts.

(** ** The size of the population *)

Lemma insertByKey_Permutation {A} (key : A -> Z) x l :
  Permutation (MOSA.insertByKey key x l) (x :: l).
Proof.
  induction l as [|y l IH]; simpl; [reflexivity|].
  destruct (key y <? key x); [|reflexivity].
  rewrite IH. apply perm_swap.
Qed.

Lemma sortByKey_Permutation {A} (key : A -> Z) l :
  Permutation (MOSA.sortByKey key l) l.
Proof.
  induction l as [|x l IH]; simpl; [reflexivity|].
  unfold MOSA.sortByKey in *. simpl.
  rewrite insertByKey_Permutation. apply perm_skip, IH.
Qed.

Lemma subList_0_length {A} (n : Z) (l : list A) :
  Z.of_nat (length (JsList.subList 0 n l))
  = Z.min (Z.max 0 n) (Z.of_nat (length l)).
Proof.
  unfold JsList.subList. simpl. rewrite drop_0, length_take. lia.
Qed.

Section PopulationSize.
Context {C number World : Type} `{Countable C}.
Variable getLength : C -> Z.
Variable fitnessFunctions : JsMap.t (FitnessFunction C number).
Variable env : MOSA.Collaborators C World.

(** The offspring population has the size of the parent population. *)
Lemma offspringLoop_length remaining parentPopulation useRankSelection :
  forall offspringPopulation w result w',
    MOSA.offspringLoop env remaining parentPopulation useRankSelection
      offspringPopulation w = Some (result, w') ->
    length result = (length offspringPopulation + remaining)%nat.
Proof.
  induction remaining as [remaining IH] using lt_wf_ind.
  intros offspringPopulation w result w' Hrun.
  destruct remaining as [|[|remaining]]; simpl in Hrun.
  - injection Hrun as <- _. lia.
  - bind_dest Hrun as children w1 Hpair. destruct children as [child1 child2].
    injection Hrun as <- _. rewrite length_app. simpl. lia.
  - bind_dest Hrun as children w1 Hpair. destruct children as [child1 child2].
    apply IH in Hrun; [|lia]. rewrite Hrun, !length_app. simpl. lia.
Qed.

Lemma generateOffspringPopulation_length parentPopulation useRankSelection
    w result w' :
  MOSA.generateOffspringPopulation env parentPopulation useRankSelection w
  = Some (result, w') ->
  length result = length parentPopulation.
Proof.
  unfold MOSA.generateOffspringPopulation. intros Hrun.
  apply offspringLoop_length in Hrun. simpl in Hrun. exact Hrun.
Qed.

(** Filling front by front never exceeds the population size. *)
Lemma fillPopulation_le fronts :
  forall parentPopulation w result w',
    MOSA.fillPopulation fitnessFunctions env fronts parentPopulation w
    = Some (result, w') ->
    Z.of_nat (length parentPopulation) <= MOSA.getPopulationSize env ->
    Z.of_nat (length result) <= MOSA.getPopulationSize env.
Proof.
  induction fronts as [|front fronts IH];
    intros parentPopulation w result w' Hrun Hle; simpl in Hrun.
  - injection Hrun as <- _. exact Hle.
  - bind_dest Hrun as sorted w1 Hsorted.
    destruct (Z.leb_spec (Z.of_nat (length parentPopulation)
                          + Z.of_nat (length sorted))
                         (MOSA.getPopulationSize env)) as [Hfits|Hover].
    + apply IH in Hrun; [exact Hrun|]. rewrite length_app. lia.
    + injection Hrun as <- _. rewrite length_app, Nat2Z.inj_add.
      rewrite subList_0_length. lia.
Qed.

(** Whatever the run, the next parent population holds at most
    [getPopulationSize()] chromosomes. *)
Lemma iteration_population_le st w st' w' :
  0 <= MOSA.getPopulationSize env ->
  MOSA.iteration getLength fitnessFunctions env st w = Some (st', w') ->
  Z.of_nat (length (snd st')) <= MOSA.getPopulationSize env.
Proof.
  intros Hsize Hrun. destruct st as [this parentPopulation].
  unfold MOSA.iteration in Hrun.
  bind_dest Hrun as offspringPopulation w1 Hoffspring.
  bind_dest Hrun as fronts w2 Hfronts.
  bind_dest Hrun as filled w3 Hfilled.
  injection Hrun as <- _. simpl. rewrite length_reverse.
  eapply fillPopulation_le; [exact Hfilled | simpl; lia].
Qed.

End PopulationSize.

Section PopulationExact.
Context {C number World : Type} `{Countable C}.
Variable getLength : C -> Z.
Variable fitnessFunctions : JsMap.t (FitnessFunction C number).
Variable env : MOSA.Collaborators C World.
Hypothesis Htotal : allTotalOrders fitnessFunctions.
Hypothesis Hshuffle :
  forall l w, Permutation (fst (MOSA.shuffle env l w)) l.

Lemma subVectorDominanceSorting_length front w sorted w' :
  MOSA.subVectorDominanceSorting fitnessFunctions env front w
  = Some (sorted, w') ->
  length sorted = length front.
Proof.
  unfold MOSA.subVectorDominanceSorting. intros Hrun.
  bind_dest Hrun as shuffled w1 Hshuffled. injection Hrun as <- _.
  unfold Eff.lift in Hshuffled. injection Hshuffled as Heq.
  rewrite (Permutation_length (sortByKey_Permutation _ _)).
  rewrite <- (Permutation_length (Hshuffle front w)), Heq. reflexivity.
Qed.

(** Filling front by front stops at the population size or when the
    fronts are used up. *)
Lemma fillPopulation_length fronts :
  forall parentPopulation w result w',
    MOSA.fillPopulation fitnessFunctions env fronts parentPopulation w
    = Some (result, w') ->
    Z.of_nat (length parentPopulation) <= MOSA.getPopulationSize env ->
    Z.of_nat (length result)
    = Z.min (MOSA.getPopulationSize env)
            (Z.of_nat (length parentPopulation)
             + Z.of_nat (length (concat fronts))).
Proof.
  induction fronts as [|front fronts IH];
    intros parentPopulation w result w' Hrun Hle; simpl in Hrun.
  - injection Hrun as <- _. simpl. lia.
  - bind_dest Hrun as sorted w1 Hsorted.
    apply subVectorDominanceSorting_length in Hsorted.
    cbn [concat]. rewrite length_app, <- Hsorted.
    destruct (Z.leb_spec (Z.of_nat (length parentPopulation)
                          + Z.of_nat (length sorted))
                         (MOSA.getPopulationSize env)) as [Hfits|Hover].
    + apply IH in Hrun; [|rewrite length_app; lia].
      rewrite Hrun, length_app. lia.
    + injection Hrun as <- _. rewrite length_app, Nat2Z.inj_add.
      rewrite subList_0_length. lia.
Qed.

(** Without repeated objects in the combined population, preference
    sorting puts every chromosome in a front, once. *)
Lemma preferenceSorting_complete archive chromosomes fronts :
  NoDup chromosomes ->
  chromosomes <> [] ->
  MOSA.preferenceSorting getLength fitnessFunctions
    (MOSA.getPopulationSize env) archive chromosomes = Some fronts ->
  Permutation (concat fronts) chromosomes.
Proof.
  intros Hnodup Hnonempty Hrun.
  destruct (preferenceLoop_inv getLength fitnessFunctions archive chromosomes
              Htotal Hnonempty (JsMap.keys fitnessFunctions) [] [] chromosomes)
    as (bestFront & rest & Hloop & _ & _ & Hperm & Hsub).
  { repeat split.
    - constructor.
    - intros [].
    - intros (key & ff & [] & _).
    - reflexivity.
    - reflexivity. }
  unfold MOSA.preferenceSorting in Hrun. simpl in Hloop. rewrite Hloop in Hrun.
  assert (Hfront :
    concat (if 0 <? Z.of_nat (length bestFront) then [bestFront] else [])
    = bestFront).
  { destruct bestFront; simpl; [reflexivity|]. rewrite app_nil_r. reflexivity. }
  destruct (MOSA.getPopulationSize env <? Z.of_nat (length bestFront)).
  - injection Hrun as <-. rewrite concat_app, Hfront. simpl.
    rewrite app_nil_r. exact Hperm.
  - destruct (MOSA.fastNonDominatedSorting fitnessFunctions archive rest)
      as [tail|] eqn:Htail; [|discriminate].
    injection Hrun as <-. rewrite concat_app, Hfront, <- Hperm.
    apply Permutation_app_head.
    apply (fastNonDominatedSorting_complete fitnessFunctions archive
             (dominates_asym fitnessFunctions archive Htotal)
             (dominates_trans fitnessFunctions archive Htotal) rest);
      [|exact Htail].
    eapply sublist_NoDup; [exact Hnodup | exact Hsub].
Qed.

(** The population keeps its size over a turn of the loop of
    [findSolution] in which the combined population of parents and
    offspring holds no object twice. *)
Lemma iteration_population_exact this parentPopulation w st' w' :
  1 <= MOSA.getPopulationSize env ->
  Z.of_nat (length parentPopulation) = MOSA.getPopulationSize env ->
  (forall offspringPopulation w1,
      MOSA.generateOffspringPopulation env parentPopulation
        (0 <? MOSA._iterations this) w = Some (offspringPopulation, w1) ->
      NoDup (parentPopulation ++ offspringPopulation)) ->
  MOSA.iteration getLength fitnessFunctions env (this, parentPopulation) w
  = Some (st', w') ->
  Z.of_nat (length (snd st')) = MOSA.getPopulationSize env.
Proof.
  intros Hsize Hparents Hdistinct Hrun. unfold MOSA.iteration in Hrun.
  bind_dest Hrun as offspringPopulation w1 Hoffspring.
  bind_dest Hrun as fronts w2 Hfronts.
  bind_dest Hrun as filled w3 Hfilled.
  injection Hrun as <- _. simpl. rewrite length_reverse.
  specialize (Hdistinct _ _ Hoffspring).
  apply generateOffspringPopulation_length in Hoffspring.
  unfold Eff.orThrow in Hfronts.
  destruct (MOSA.preferenceSorting getLength fitnessFunctions
              (MOSA.getPopulationSize env)
              (MOSA.updateArchive getLength fitnessFunctions
                 (MOSA._archive this) offspringPopulation)
              (parentPopulation ++ offspringPopulation))
    as [fronts'|] eqn:Hsorting; [|discriminate].
  injection Hfronts as <- <-.
  apply preferenceSorting_complete in Hsorting; [|exact Hdistinct|].
  2:{ destruct parentPopulation; [simpl in Hparents; lia | discriminate]. }
  apply fillPopulation_length in Hfilled; [|simpl; lia].
  rewrite Hfilled, (Permutation_length Hsorting), length_app. simpl. lia.
Qed.

End PopulationExact.

(** ** The population of MOSA *)

(** C3, at a run the code can make: with population size 4 and the single
    goal OneMax on four bits, the generator yields the four distinct
    chromosomes 1110, 1100, 1000 and 0000; the first turn of the loop
    selects four times the parent 1000 and neither crosses nor mutates, so
    the offspring are four references to that parent.  The fast
    non-dominated sorting, whose maps are keyed by the chromosome, releases
    1000 once and 0000 never: the fronts hold three chromosomes, and the
    next parent population has three chromosomes instead of four. *)
Theorem mosa_population_shrinks :
  MOSA.getPopulationSize Scenario.env = 4
  /\ (exists this w,
        Scenario.mosaRun Scenario.oneGoal 0
        = Some ((this,
                 [Scenario.c1110; Scenario.c1100; Scenario.c1000;
                  Scenario.c0000]), w))
  /\ MOSA.preferenceSorting Scenario.getLength Scenario.oneGoal 4 []
       [Scenario.c1110; Scenario.c1100; Scenario.c1000; Scenario.c0000;
        Scenario.c1000; Scenario.c1000; Scenario.c1000; Scenario.c1000]
     = Some [[Scenario.c1110]; [Scenario.c1100]; [Scenario.c1000]]
  /\ (exists this w,
        Scenario.mosaRun Scenario.oneGoal 1
        = Some ((this, [Scenario.c1000; Scenario.c1100; Scenario.c1110]), w)).
Proof.
  split; [reflexivity|]. split; [eexists; eexists; vm_compute; reflexivity|].
  split; [vm_compute; reflexivity|].
  eexists; eexists; vm_compute; reflexivity.
Qed.

(** ** Instances of the theorems *)

Lemma oneGoal_total : allTotalOrders Scenario.oneGoal.
Proof.
  intros key ff Hff. unfold Scenario.oneGoal in Hff.
  cbn [JsMap.get] in Hff.
  destruct (0 =? key); [|discriminate].
  injection Hff as <-. split; simpl; intros; lia.
Qed.

(** The population keeps its size in a turn that mutates every
    offspring. *)
Lemma iteration_population_exact_instance :
  exists st w,
    MOSA.iteration Scenario.getLength Scenario.oneGoal Scenario.env
      (Scenario.newMOSA,
       [Scenario.c1110; Scenario.c1100; Scenario.c1000; Scenario.c0000])
      Scenario.mutatingTurn = Some (st, w)
    /\ Z.of_nat (length (snd st)) = 4.
Proof.
  destruct (MOSA.iteration Scenario.getLength Scenario.oneGoal Scenario.env
              (Scenario.newMOSA,
               [Scenario.c1110; Scenario.c1100; Scenario.c1000; Scenario.c0000])
              Scenario.mutatingTurn) as [[st w]|] eqn:Hrun;
    [|vm_compute in Hrun; discriminate].
  exists st, w. split; [reflexivity|].
  apply (iteration_population_exact Scenario.getLength Scenario.oneGoal
           Scenario.env oneGoal_total (fun l w => Permutation_refl l)
           Scenario.newMOSA
           [Scenario.c1110; Scenario.c1100; Scenario.c1000; Scenario.c0000]
           Scenario.mutatingTurn st w); [simpl; lia | reflexivity | | exact Hrun].
  intros offspringPopulation w1 Hoffspring. vm_compute in Hoffspring.
  injection Hoffspring as <- _.
  refine (bool_decide_unpack (NoDup (A := nat * list bool) _) _).
  vm_compute. exact I.
Qed.

Lemma twoGoals_total : allTotalOrders Scenario.twoGoals.
Proof.
  intros key ff Hff. unfold Scenario.twoGoals in Hff.
  cbn [JsMap.get] in Hff.
  destruct (0 =? key).
  - injection Hff as <-. split; simpl; intros; lia.
  - destruct (1 =? key); [|discriminate].
    injection Hff as <-. split; simpl; intros; lia.
Defined.

Lemma archive_invariant_witness :
  exists st w,
    Scenario.mosaRun Scenario.twoGoals 1 = Some (st, w)
    /\ archiveOptimal Scenario.twoGoals (MOSA._archive (fst st)).
Proof.
  eexists. eexists. split; [vm_compute; reflexivity|].
  eapply (proj1 (proj2 (archive_invariant Scenario.getLength Scenario.twoGoals
                          Scenario.env))
            Scenario.newMOSA 1%nat Scenario.script).
  vm_compute. reflexivity.
Defined.

Lemma archive_replacement_policy_witness :
  let ff := Scenario.singleBit 0 in
  let st := foldl (MOSA.consider Scenario.getLength 1 ff)
                  (MOSA.currentLength Scenario.getLength 1 [], [])
                  [Scenario.c0000; Scenario.c1000] in
  JsMap.get 1 (snd st) = Some Scenario.c1000
  /\ snd (MOSA.consider Scenario.getLength 1 ff st Scenario.c1110) = snd st.
Proof.
  intros ff st. split; [reflexivity|].
  apply (proj1 (proj2 (proj1 (archive_replacement_policy Scenario.getLength 1
                                 ff [])
                         [Scenario.c0000; Scenario.c1000] Scenario.c1110))
           Scenario.c1000).
  - reflexivity.
  - vm_compute. discriminate.
Defined.

Lemma dominance_strict_partial_order_witness :
  MOSA.dominates Scenario.twoGoals [] Scenario.c1110 Scenario.c1100 = true
  /\ MOSA.dominates Scenario.twoGoals [] Scenario.c1100 Scenario.c0000 = true
  /\ MOSA.dominates Scenario.twoGoals [] Scenario.c1110 Scenario.c0000 = true
  /\ MOSA.dominates Scenario.twoGoals [] Scenario.c1100 Scenario.c1110 = false.
Proof.
  destruct (dominance_strict_partial_order Scenario.twoGoals [] twoGoals_total)
    as (_ & Hasym & Htrans).
  split; [reflexivity|]. split; [reflexivity|]. split.
  - apply (Htrans _ Scenario.c1100); reflexivity.
  - apply Hasym. reflexivity.
Defined.

Lemma preference_sorting_fronts_witness :
  exists bestFront rest tail,
    MOSA.preferenceSorting Scenario.getLength Scenario.twoGoals 4 []
      [Scenario.c1000; Scenario.c1110; Scenario.c1100; Scenario.c0000]
    = Some ((if bestFront is [] then [] else [bestFront]) ++ tail)
    /\ NoDup bestFront
    /\ Permutation (bestFront ++ rest)
         [Scenario.c1000; Scenario.c1110; Scenario.c1100; Scenario.c0000].
Proof.
  destruct (preference_sorting_fronts Scenario.getLength Scenario.twoGoals 4 []
              [Scenario.c1000; Scenario.c1110; Scenario.c1100; Scenario.c0000]
              twoGoals_total)
    as (bestFront & rest & tail & Hfronts & Hnodup & _ & _ & Hperm & _).
  - discriminate.
  - exists bestFront, rest, tail. auto.
Defined.

Lemma crossover_conservation_witness :
  let offspring :=
    SinglePointRelativeCrossover.apply (1 # 2) [true; true]
                                       [false; false; false; false] in
  offspring = ([true; false; false], [false; false; true])
  /\ (length (fst offspring) + length (snd offspring) = 6)%nat
  /\ Permutation (fst offspring ++ snd offspring)
                 [true; true; false; false; false; false].
Proof.
  intros offspring. split; [reflexivity|].
  destruct (crossover_conservation (1 # 2) eq_refl eq_refl [true; true]
              [false; false; false; false]) as (Hsum & _ & _ & Hperm).
  split; [exact Hsum | exact Hperm].
Defined.

Lemma random_search_suite_witness :
  exists result w generated,
    Scenario.randomRun [3] = Some (result, w)
    /\ generated = [(1%nat, Scenario.bits 3)]
    /\ map RandomTestGenerator.chromosome (RandomTestGenerator.testSuite result)
       = suiteOf Scenario.bitCovered (JsMap.values Scenario.bitGoals) generated
    /\ map RandomTestGenerator.chromosome (RandomTestGenerator.testSuite result)
       = [(1%nat, Scenario.bits 3); (1%nat, Scenario.bits 3)]
    /\ (length (RandomTestGenerator.testSuite result)
        <= JsMap.size Scenario.bitGoals)%nat.
Proof.
  destruct (Scenario.randomRun [3]) as [[result w]|] eqn:Hrun;
    [|vm_compute in Hrun; discriminate].
  destruct (random_search_suite Scenario.bitCovered Scenario.bitGoals
              (fun w => (0, w)) Scenario.fresh Scenario.oneIteration
              5 Scenario.newRandom Scenario.noStatistics [3] result w Hrun)
    as (generated & Hrec & _ & Hsuite & _ & _ & Hsize & _).
  exists result, w, generated. split; [reflexivity|].
  assert (Hgenerated : generated = [(1%nat, Scenario.bits 3)]).
  { vm_compute in Hrun. injection Hrun as <- <-.
    vm_compute in Hrec. injection Hrec as <-. reflexivity. }
  split; [exact Hgenerated|]. split; [exact Hsuite|].
  split; [|exact Hsize].
  rewrite Hsuite, Hgenerated. reflexivity.
Defined.

(** The suite of random search is not as the specification says: a
    chromosome that covers two uncovered goals is entered twice, and its
    second entry covers nothing that the first does not. *)
Lemma random_search_suite_counterexample :
  exists result w,
    Scenario.randomRun [3] = Some (result, w)
    /\ ~ suiteAsSpecified Scenario.bitCovered (JsMap.values Scenario.bitGoals)
           (map RandomTestGenerator.chromosome
                (RandomTestGenerator.testSuite result)).
Proof.
  eexists. eexists. split; [vm_compute; reflexivity|].
  intros (Hnodup & _). simpl in Hnodup.
  apply NoDup_cons in Hnodup. destruct Hnodup as [Hnotin _].
  apply Hnotin. left.
Qed.



(** * Further properties of the code *)

(** ** The archive over a call of [updateArchive] *)

Section ArchiveGrowth.
Context {C number : Type} `{Countable C}.
Variable getLength : C -> Z.
Variable fitnessFunctions : JsMap.t (FitnessFunction C number).

#[local] Abbreviation updateArchiveFor :=
  (MOSA.updateArchiveFor getLength fitnessFunctions).
#[local] Abbreviation updateArchive :=
  (MOSA.updateArchive getLength fitnessFunctions).
#[local] Abbreviation currentLength := (MOSA.currentLength getLength).

(** What one turn of the outer loop of [updateArchive] does to the
    archive. *)
Lemma updateArchiveFor_result chromosomes archive key ff :
  JsMap.get key fitnessFunctions = Some ff ->
  (updateArchiveFor chromosomes archive key = archive
   /\ forall c, In c chromosomes -> isOptimal ff (getFitness ff c) = true ->
        currentLength key archive <= getLength c)
  \/ (exists e,
        In e chromosomes
        /\ isOptimal ff (getFitness ff e) = true
        /\ getLength e < currentLength key archive
        /\ JsMap.get key (updateArchiveFor chromosomes archive key) = Some e
        /\ (forall k, k <> key ->
              JsMap.get k (updateArchiveFor chromosomes archive key)
              = JsMap.get k archive)
        /\ forall c, In c chromosomes ->
             isOptimal ff (getFitness ff c) = true ->
             getLength e <= getLength c).
Proof.
  intros Hff. unfold MOSA.updateArchiveFor. rewrite Hff.
  destruct (considerAll_result getLength key ff chromosomes
              (currentLength key archive) archive)
    as [[Heq Hall]|(pre & e & post & -> & He & Hlen & _ & Hget & Hoth & Hpre & Hpost)].
  - left. rewrite Heq. split; [reflexivity | exact Hall].
  - right. exists e. repeat split; try assumption.
    + apply in_or_app. right. left. reflexivity.
    + intros c Hin Hc. apply in_app_or in Hin.
      destruct Hin as [Hin|[<-|Hin]]; [specialize (Hpre c Hin Hc); lia | lia | auto].
Qed.

(** A turn of the outer loop never makes the entry of any key longer, and
    never removes an entry. *)
Lemma updateArchiveFor_currentLength chromosomes archive key k :
  currentLength k (updateArchiveFor chromosomes archive key)
  <= currentLength k archive
  /\ (forall c, JsMap.get k archive = Some c ->
        exists c', JsMap.get k (updateArchiveFor chromosomes archive key)
                   = Some c').
Proof.
  destruct (JsMap.get key fitnessFunctions) as [ff|] eqn:Hff.
  - destruct (updateArchiveFor_result chromosomes archive key ff Hff)
      as [[-> _]|(e & _ & _ & Hlen & Hget & Hoth & _)].
    + split; [lia | eauto].
    + destruct (Z.eq_dec k key) as [->|Hne].
      * split; [|eauto].
        unfold MOSA.currentLength at 1. rewrite Hget. lia.
      * unfold MOSA.currentLength. rewrite (Hoth k Hne).
        split; [lia | eauto].
  - unfold MOSA.updateArchiveFor. rewrite Hff. split; [lia | eauto].
Qed.

Lemma updateArchiveLoop_currentLength chromosomes ks archive k :
  currentLength k (foldl (updateArchiveFor chromosomes) archive ks)
  <= currentLength k archive
  /\ (forall c, JsMap.get k archive = Some c ->
        exists c', JsMap.get k (foldl (updateArchiveFor chromosomes) archive ks)
                   = Some c').
Proof.
  revert archive. induction ks as [|key ks IH]; intros archive; simpl.
  - split; [lia | eauto].
  - destruct (IH (updateArchiveFor chromosomes archive key)) as [Hle Hkeep].
    destruct (updateArchiveFor_currentLength chromosomes archive key k)
      as [Hle1 Hkeep1].
    split; [lia|].
    intros c Hc. destruct (Hkeep1 c Hc) as [c1 Hc1]. eauto.
Qed.

(** Where the entries of the archive come from. *)
Lemma updateArchiveLoop_origin chromosomes ks archive k c' :
  JsMap.get k (foldl (updateArchiveFor chromosomes) archive ks) = Some c' ->
  JsMap.get k archive = Some c'
  \/ (In c' chromosomes
      /\ exists ff, JsMap.get k fitnessFunctions = Some ff
                    /\ isOptimal ff (getFitness ff c') = true).
Proof.
  revert archive. induction ks as [|key ks IH]; intros archive; simpl.
  - auto.
  - intros Hget. destruct (IH _ Hget) as [Hprev|Hnew]; [|auto].
    destruct (JsMap.get key fitnessFunctions) as [ff|] eqn:Hff.
    + destruct (updateArchiveFor_result chromosomes archive key ff Hff)
        as [[Heq _]|(e & Hin & He & _ & Hgete & Hoth & _)].
      * rewrite Heq in Hprev. auto.
      * destruct (Z.eq_dec k key) as [->|Hne].
        -- rewrite Hgete in Hprev. injection Hprev as <-. right. eauto.
        -- rewrite (Hoth k Hne) in Hprev. auto.
    + unfold MOSA.updateArchiveFor in Hprev. rewrite Hff in Hprev. auto.
Qed.

(** Once the key has had its turn, its entry is at most as long as every
    optimal candidate. *)
Lemma updateArchiveLoop_shortest chromosomes ks archive key ff c :
  In key ks ->
  JsMap.get key fitnessFunctions = Some ff ->
  In c chromosomes ->
  isOptimal ff (getFitness ff c) = true ->
  currentLength key (foldl (updateArchiveFor chromosomes) archive ks)
  <= getLength c.
Proof.
  intros Hin Hff Hc Hopt. revert archive.
  induction ks as [|k ks IH]; intros archive; [destruct Hin|]. simpl.
  destruct Hin as [->|Hin].
  - pose proof (proj1 (updateArchiveLoop_currentLength chromosomes ks
                         (updateArchiveFor chromosomes archive key) key)) as Hle.
    enough (currentLength key (updateArchiveFor chromosomes archive key)
            <= getLength c) by lia.
    destruct (updateArchiveFor_result chromosomes archive key ff Hff)
      as [[-> Hall]|(e & _ & _ & _ & Hget & _ & Hall)].
    + auto.
    + unfold MOSA.currentLength. rewrite Hget. auto.
  - apply IH, Hin.
Qed.

Lemma updateArchiveLoop_fixed chromosomes ks archive :
  (forall key ff c, In key ks ->
     JsMap.get key fitnessFunctions = Some ff ->
     In c chromosomes -> isOptimal ff (getFitness ff c) = true ->
     currentLength key archive <= getLength c) ->
  foldl (updateArchiveFor chromosomes) archive ks = archive.
Proof.
  induction ks as [|key ks IH]; intros Hall; simpl; [reflexivity|].
  assert (Hstep : updateArchiveFor chromosomes archive key = archive).
  { destruct (JsMap.get key fitnessFunctions) as [ff|] eqn:Hff.
    - destruct (updateArchiveFor_result chromosomes archive key ff Hff)
        as [[Heq _]|(e & Hin & He & Hlen & _)]; [exact Heq|].
      specialize (Hall key ff e (or_introl eq_refl) Hff Hin He). lia.
    - unfold MOSA.updateArchiveFor. rewrite Hff. reflexivity. }
  rewrite Hstep. apply IH.
  intros k ff c Hk. apply Hall. right. exact Hk.
Qed.

(** X5: [updateArchive] never loses an entry and never makes one longer:
    a goal that had an entry still has one, of at most the same length;
    and every entry of the new archive is the old entry of its key or one
    of the candidates, optimal for the fitness function of the key. *)
Theorem updateArchive_keeps_and_shortens (archive : JsMap.t C)
    (chromosomes : list C) :
  let archive' := updateArchive archive chromosomes in
  (forall key c, JsMap.get key archive = Some c ->
     exists c', JsMap.get key archive' = Some c'
                /\ getLength c' <= getLength c)
  /\ (forall key c', JsMap.get key archive' = Some c' ->
        JsMap.get key archive = Some c'
        \/ (In c' chromosomes
            /\ exists ff, JsMap.get key fitnessFunctions = Some ff
                          /\ isOptimal ff (getFitness ff c') = true)).
Proof.
  intros archive'. split.
  - intros key c Hc.
    destruct (updateArchiveLoop_currentLength chromosomes
                (JsMap.keys fitnessFunctions) archive key) as [Hle Hkeep].
    destruct (Hkeep c Hc) as [c' Hc']. exists c'. split; [exact Hc'|].
    unfold MOSA.currentLength in Hle. fold archive' in Hle.
    unfold archive', MOSA.updateArchive in Hc'.
    rewrite Hc', Hc in Hle. exact Hle.
  - intros key c'. apply updateArchiveLoop_origin.
Qed.

(** X6: after [updateArchive], every goal for which one of the candidates
    is optimal has an archive entry that is at most as long as that
    candidate, provided the candidate is shorter than
    [Number.MAX_SAFE_INTEGER] (the length the loop starts from when the
    goal has no entry). *)
Theorem updateArchive_covers (archive : JsMap.t C) (chromosomes : list C)
    key ff c :
  JsMap.get key fitnessFunctions = Some ff ->
  In c chromosomes ->
  isOptimal ff (getFitness ff c) = true ->
  getLength c < MAX_SAFE_INTEGER ->
  exists e, JsMap.get key (updateArchive archive chromosomes) = Some e
            /\ getLength e <= getLength c.
Proof.
  intros Hff Hc Hopt Hlen.
  pose proof (updateArchiveLoop_shortest chromosomes
                (JsMap.keys fitnessFunctions) archive key ff c
                (JsMap_get_In_keys key ff fitnessFunctions Hff) Hff Hc Hopt)
    as Hle.
  unfold MOSA.currentLength in Hle. unfold MOSA.updateArchive.
  destruct (JsMap.get key (foldl (updateArchiveFor chromosomes) archive
                                 (JsMap.keys fitnessFunctions)))
    as [e|] eqn:Hget; [|lia].
  exists e. split; [reflexivity | exact Hle].
Qed.

(** X7: [updateArchive] is idempotent: a second call with the same
    candidates leaves the archive as the first call left it. *)
Theorem updateArchive_idempotent (archive : JsMap.t C) (chromosomes : list C) :
  updateArchive (updateArchive archive chromosomes) chromosomes
  = updateArchive archive chromosomes.
Proof.
  unfold MOSA.updateArchive at 1.
  apply updateArchiveLoop_fixed.
  intros key ff c Hkey Hff Hc Hopt.
  apply updateArchiveLoop_shortest with (ff := ff); assumption.
Qed.

End ArchiveGrowth.

(** ** The archive over the search *)

Section ArchiveProgress.
Context {C number World : Type} `{Countable C}.
Variable getLength : C -> Z.
Variable fitnessFunctions : JsMap.t (FitnessFunction C number).
Variable env : MOSA.Collaborators C World.
Variable isFinished : MOSA.Fields C -> World -> bool * World.


Lemma archiveKept_refl archive : archiveKept getLength archive archive.
Proof. intros key c Hc. exists c. split; [exact Hc | lia]. Qed.

Lemma archiveKept_trans a1 a2 a3 :
  archiveKept getLength a1 a2 -> archiveKept getLength a2 a3 -> archiveKept getLength a1 a3.
Proof.
  intros H12 H23 key c Hc. destruct (H12 key c Hc) as (c2 & Hc2 & Hle2).
  destruct (H23 key c2 Hc2) as (c3 & Hc3 & Hle3).
  exists c3. split; [exact Hc3 | lia].
Qed.

Lemma updateArchive_archiveKept archive chromosomes :
  archiveKept getLength archive
    (MOSA.updateArchive getLength fitnessFunctions archive chromosomes).
Proof.
  intros key c Hc.
  destruct (updateArchiveLoop_currentLength getLength fitnessFunctions
              chromosomes (JsMap.keys fitnessFunctions) archive key)
    as [Hle Hkeep].
  destruct (Hkeep c Hc) as [c' Hc']. exists c'.
  unfold MOSA.updateArchive. split; [exact Hc'|].
  unfold MOSA.currentLength in Hle. rewrite Hc', Hc in Hle. exact Hle.
Qed.

Lemma iteration_archiveKept st w st' w' :
  MOSA.iteration getLength fitnessFunctions env st w = Some (st', w') ->
  archiveKept getLength (MOSA._archive (fst st)) (MOSA._archive (fst st')).
Proof.
  intros Hrun. destruct st as [this parentPopulation].
  unfold MOSA.iteration in Hrun.
  bind_dest Hrun as offspringPopulation w1 Hoffspring.
  bind_dest Hrun as fronts w2 Hfronts.
  bind_dest Hrun as filled w3 Hfilled.
  injection Hrun as <- _. cbn [fst MOSA._archive].
  eapply archiveKept_trans; apply updateArchive_archiveKept.
Qed.

(** X21: during the loop of [findSolution] the archive only improves: a
    goal that has an archive entry at some turn has one at every later
    turn, and the entry never gets longer. *)
Theorem archive_progress fuel st w st' w' :
  MOSA.searchLoop getLength fitnessFunctions env isFinished fuel st w
  = Some (st', w') ->
  forall key c,
    JsMap.get key (MOSA._archive (fst st)) = Some c ->
    exists c', JsMap.get key (MOSA._archive (fst st')) = Some c'
               /\ getLength c' <= getLength c.
Proof.
  revert st w. induction fuel as [|fuel IH]; intros st w Hrun;
    cbn [MOSA.searchLoop] in Hrun.
  - bind_dest Hrun as finished w1 Hfinished.
    destruct finished; [|discriminate].
    injection Hrun as <- _. apply archiveKept_refl.
  - bind_dest Hrun as finished w1 Hfinished. destruct finished.
    + injection Hrun as <- _. apply archiveKept_refl.
    + bind_dest Hrun as st1 w2 Hturn.
      exact (archiveKept_trans _ _ _ (iteration_archiveKept _ _ _ _ Hturn)
               (IH _ _ Hrun)).
Qed.

End ArchiveProgress.

(** ** Fast non-dominated sorting on any list *)

Section FrontsAnyInput.
Context {C number : Type} `{Countable C}.
Variable fitnessFunctions : JsMap.t (FitnessFunction C number).
Variable archive : JsMap.t C.
Variable L : list C.

#[local] Abbreviation countOf p :=
  (snd (MOSA.dominationOf fitnessFunctions archive L p)).

Lemma dominationOf_nonneg chromosomes p :
  0 <= snd (MOSA.dominationOf fitnessFunctions archive chromosomes p).
Proof.
  unfold MOSA.dominationOf.
  assert (Hgen : forall qs (st : list C * Z), 0 <= snd st ->
    0 <= snd (foldl (fun '(dominatedValuesP, dominationCountP) q =>
           if MOSA.dominates fitnessFunctions archive p q
           then (dominatedValuesP ++ [q], dominationCountP)
           else if MOSA.dominates fitnessFunctions archive q p
           then (dominatedValuesP, dominationCountP + 1)
           else (dominatedValuesP, dominationCountP)) st qs)).
  { induction qs as [|q qs IH]; intros st Hst; [exact Hst|].
    cbn [foldl]. apply IH. destruct st as [dominatedValuesP dominationCountP].
    simpl in Hst.
    destruct (MOSA.dominates fitnessFunctions archive p q); [exact Hst|].
    destruct (MOSA.dominates fitnessFunctions archive q p); simpl; lia. }
  apply Hgen. simpl. lia.
Qed.

(** The tables of the first loop, whatever the list holds: the entry of a
    chromosome is the result of its last position, which is the result of
    each of its positions. *)
Lemma dominationTables_any ps (st : gmap C (list C) * gmap C Z * list C) :
  let result := foldl (MOSA.dominationStep fitnessFunctions archive L) st ps in
  (forall p, p ∈ ps -> snd (fst result) !! p = Some (countOf p))
  /\ (forall p, p ∉ ps -> snd (fst result) !! p = snd (fst st) !! p)
  /\ snd result = snd st ++ filter (fun p => countOf p = 0) ps.
Proof.
  revert st. induction ps as [|p0 ps IH]; intros st.
  - simpl. rewrite app_nil_r. split; [|split; [|reflexivity]].
    + intros p Hp. apply elem_of_nil in Hp. contradiction.
    + auto.
  - cbn [foldl]. cbn zeta.
    destruct (IH (MOSA.dominationStep fitnessFunctions archive L st p0))
      as (Hin & Hout & Hfirst). cbn zeta in Hin, Hout, Hfirst.
    assert (Hstep :
      snd (fst (MOSA.dominationStep fitnessFunctions archive L st p0))
      = <[p0 := countOf p0]> (snd (fst st))
      /\ snd (MOSA.dominationStep fitnessFunctions archive L st p0)
         = if countOf p0 =? 0 then snd st ++ [p0] else snd st).
    { destruct st as [[dominatedValues dominationCount] firstFront].
      unfold MOSA.dominationStep.
      destruct (MOSA.dominationOf fitnessFunctions archive L p0); auto. }
    destruct Hstep as [Hcount Hfront].
    split; [|split].
    + intros p Hp. destruct (decide (p ∈ ps)) as [Hps|Hnps]; [apply Hin, Hps|].
      apply elem_of_cons in Hp. destruct Hp as [->|Hp]; [|contradiction].
      rewrite (Hout p0 Hnps), Hcount. apply lookup_insert_eq.
    + intros p Hp. apply not_elem_of_cons in Hp. destruct Hp as [Hne Hnps].
      rewrite (Hout p Hnps), Hcount. apply lookup_insert_ne. congruence.
    + rewrite Hfirst, Hfront, filter_cons.
      destruct (Z.eqb_spec (countOf p0) 0) as [Hzero|Hnonzero].
      * rewrite decide_True by exact Hzero. rewrite <- app_assoc. reflexivity.
      * rewrite decide_False by exact Hnonzero. reflexivity.
Qed.

Lemma releasedInv_step (dominatedValues : gmap C (list C))
    (dominationCount : gmap C Z) currentFront fronts :
  currentFront <> [] ->
  releasedInv fitnessFunctions archive L dominationCount currentFront fronts ->
  releasedInv fitnessFunctions archive L
    (fst (MOSA.nextFrontOf dominatedValues dominationCount currentFront))
    (snd (MOSA.nextFrontOf dominatedValues dominationCount currentFront))
    (fronts ++ [currentFront]).
Proof.
  intros Hnonempty (Hfronts & released & Hflat & Hnodup & Hdone & Hpositive).
  rewrite nextFrontOf_flat.
  set (qs := concat (map (fun p => default [] (dominatedValues !! p))
                         currentFront)).
  destruct (releaseAll_spec qs dominationCount [])
    as (next & Hsnd & Hnodup' & Hcount' & Hmem).
  rewrite Hsnd. cbn [app]. split.
  { apply Forall_app. split; [exact Hfronts|]. constructor; [exact Hnonempty|].
    constructor. }
  exists (released ++ next). split; [|split; [|split]].
  - rewrite concat_app. simpl. rewrite app_nil_r, Hflat, <- app_assoc.
    reflexivity.
  - apply NoDup_app. split; [exact Hnodup|]. split; [|exact Hnodup'].
    intros x Hx Hx'. apply list_elem_of_In, Hmem in Hx'.
    destruct (Hdone x Hx) as (_ & _ & Hle). lia.
  - intros x Hx. rewrite Hcount'. apply elem_of_app in Hx.
    destruct Hx as [Hx|Hx].
    + destruct (Hdone x Hx) as (HxL & Hpos & Hle).
      split; [exact HxL|]. split; [exact Hpos | lia].
    + apply list_elem_of_In, Hmem in Hx.
      destruct (Hpositive x) as [HxL Hpos]; [lia|].
      split; [exact HxL|]. split; [exact Hpos | lia].
  - intros x Hx. rewrite Hcount' in Hx. apply Hpositive. lia.
Qed.

Lemma releasedInv_loop fuel (dominatedValues : gmap C (list C)) :
  forall (dominationCount : gmap C Z) currentFront fronts result,
    MOSA.frontsLoop fuel dominatedValues dominationCount currentFront fronts
    = Some result ->
    releasedInv fitnessFunctions archive L dominationCount currentFront fronts ->
    exists dominationCount', releasedInv fitnessFunctions archive L dominationCount' [] result.
Proof.
  induction fuel as [|fuel IH];
    intros dominationCount currentFront fronts result Hrun Hinv.
  - destruct currentFront; [|discriminate].
    injection Hrun as <-. eauto.
  - destruct currentFront as [|p currentFront].
    + injection Hrun as <-. eauto.
    + cbn [MOSA.frontsLoop] in Hrun.
      pose proof (releasedInv_step dominatedValues dominationCount
                    (p :: currentFront) fronts ltac:(discriminate) Hinv)
        as Hstep.
      destruct (MOSA.nextFrontOf dominatedValues dominationCount
                  (p :: currentFront)) as [dominationCount' nextFront].
      eapply IH; [exact Hrun | exact Hstep].
Qed.

Lemma filter_zero_positive_submseteq (ps : list C) released :
  NoDup released ->
  (forall x, x ∈ released -> x ∈ ps /\ 0 < countOf x) ->
  filter (fun p => countOf p = 0) ps ++ released ⊆+ ps.
Proof.
  intros Hnodup Hreleased.
  transitivity (filter (fun p => countOf p = 0) ps
                ++ filter (fun p => ~ countOf p = 0) ps).
  - apply submseteq_app; [reflexivity|].
    apply NoDup_submseteq; [exact Hnodup|].
    intros x Hx. destruct (Hreleased x Hx) as [Hin Hpos].
    apply list_elem_of_filter. split; [lia | exact Hin].
  - rewrite filter_app_complement. reflexivity.
Qed.

End FrontsAnyInput.

Section FrontsAnyInputTheorem.
Context {C number : Type} `{Countable C}.
Variable fitnessFunctions : JsMap.t (FitnessFunction C number).
Variable archive : JsMap.t C.

Lemma fastNonDominatedSorting_submseteq (chromosomes : list C) fronts :
  MOSA.fastNonDominatedSorting fitnessFunctions archive chromosomes
  = Some fronts ->
  Forall (fun front => front <> []) fronts
  /\ concat fronts ⊆+ chromosomes.
Proof.
  unfold MOSA.fastNonDominatedSorting.
  pose proof (dominationTables_any fitnessFunctions archive chromosomes
                chromosomes (∅, ∅, [])) as Htables.
  cbn zeta in Htables.
  fold (MOSA.dominationTables fitnessFunctions archive chromosomes) in Htables.
  destruct (MOSA.dominationTables fitnessFunctions archive chromosomes)
    as [[dominatedValues dominationCount] firstFront].
  cbn [fst snd app] in Htables. destruct Htables as (Hin & Hout & Hfirst).
  intros Hrun.
  destruct (releasedInv_loop fitnessFunctions archive chromosomes _
              dominatedValues dominationCount firstFront [] fronts Hrun)
    as (dominationCount' & Hfronts & released & Hflat & Hnodup & Hdone & _).
  - split; [constructor|]. exists []. cbn [concat app].
    rewrite app_nil_r. split; [exact Hfirst|]. split; [constructor|]. split.
    + intros x Hx. apply elem_of_nil in Hx. contradiction.
    + intros x Hx. destruct (decide (x ∈ chromosomes)) as [HxL|HxL].
      * rewrite (Hin x HxL) in Hx. simpl in Hx. auto.
      * rewrite (Hout x HxL), lookup_empty in Hx. simpl in Hx. lia.
  - split; [exact Hfronts|]. rewrite app_nil_r in Hflat. rewrite Hflat.
    apply filter_zero_positive_submseteq; [exact Hnodup|].
    intros x Hx. destruct (Hdone x Hx) as (HxL & Hpos & _). auto.
Qed.

Lemma frontsLoop_extends fuel (dominatedValues : gmap C (list C)) :
  forall (dominationCount : gmap C Z) currentFront fronts result,
    MOSA.frontsLoop fuel dominatedValues dominationCount currentFront fronts
    = Some result ->
    match currentFront with
    | [] => result = fronts
    | _ :: _ => exists later, result = fronts ++ currentFront :: later
    end.
Proof.
  induction fuel as [|fuel IH];
    intros dominationCount currentFront fronts result Hrun.
  - destruct currentFront; [|discriminate]. injection Hrun as <-. reflexivity.
  - destruct currentFront as [|p currentFront].
    + injection Hrun as <-. reflexivity.
    + cbn [MOSA.frontsLoop] in Hrun.
      destruct (MOSA.nextFrontOf dominatedValues dominationCount
                  (p :: currentFront)) as [dominationCount' nextFront].
      apply IH in Hrun. destruct nextFront as [|q nextFront].
      * exists []. exact Hrun.
      * destruct Hrun as [later ->]. exists ((q :: nextFront) :: later).
        rewrite <- app_assoc. reflexivity.
Qed.

(** X1: [fastNonDominatedSorting] on any list of chromosomes, repeated
    objects and inconsistent [compare] functions included: the [while]
    loop ends; no front is empty; the fronts together are a sub-multiset of
    the list (no chromosome is invented, none gets more positions than it
    had); and the first front is made of the positions whose domination
    count is 0 after the first loop, in the order of the list. *)
Theorem fastNonDominatedSorting_any_input (chromosomes : list C) :
  exists fronts,
    MOSA.fastNonDominatedSorting fitnessFunctions archive chromosomes
    = Some fronts
    /\ Forall (fun front => front <> []) fronts
    /\ concat fronts ⊆+ chromosomes
    /\ match fronts with
       | [] => undominatedPositions fitnessFunctions archive chromosomes = []
       | first :: _ =>
           first = undominatedPositions fitnessFunctions archive chromosomes
       end.
Proof.
  destruct (fastNonDominatedSorting_returns fitnessFunctions archive chromosomes)
    as [fronts Hrun].
  exists fronts. split; [exact Hrun|].
  destruct (fastNonDominatedSorting_submseteq chromosomes fronts Hrun)
    as [Hnonempty Hsub].
  split; [exact Hnonempty|]. split; [exact Hsub|].
  unfold MOSA.fastNonDominatedSorting in Hrun.
  pose proof (dominationTables_any fitnessFunctions archive chromosomes
                chromosomes (∅, ∅, [])) as Htables.
  cbn zeta in Htables.
  fold (MOSA.dominationTables fitnessFunctions archive chromosomes) in Htables.
  destruct (MOSA.dominationTables fitnessFunctions archive chromosomes)
    as [[dominatedValues dominationCount] firstFront].
  cbn [fst snd app] in Htables. destruct Htables as (_ & _ & Hfirst).
  apply frontsLoop_extends in Hrun. unfold undominatedPositions.
  rewrite <- Hfirst. destruct firstFront as [|p firstFront].
  - rewrite Hrun. reflexivity.
  - destruct Hrun as [later ->]. reflexivity.
Qed.

End FrontsAnyInputTheorem.

(** ** The fronts as ranks *)


Section FrontsRanked.
Context {C number : Type} `{Countable C}.
Variable fitnessFunctions : JsMap.t (FitnessFunction C number).
Variable archive : JsMap.t C.

#[local] Abbreviation dom := (MOSA.dominates fitnessFunctions archive).

Variable L : list C.
Hypothesis HnodupL : NoDup L.

Lemma dominators_all S q :
  NoDup S -> (forall x, x ∈ S -> x ∈ L) ->
  length (dominatorsIn dom S q) = length (dominatorsIn dom L q) ->
  forall p, p ∈ L -> dom p q = true -> p ∈ S.
Proof.
  intros Hnodup Hsub Hlen p Hp Hpq.
  assert (Hperm : dominatorsIn dom S q ≡ₚ dominatorsIn dom L q).
  { apply submseteq_length_Permutation; [|lia].
    apply NoDup_submseteq; [apply NoDup_filter, Hnodup|].
    intros x Hx. apply list_elem_of_filter in Hx. destruct Hx as [Hdom Hx].
    apply list_elem_of_filter. auto. }
  assert (Hin : p ∈ dominatorsIn dom S q).
  { rewrite Hperm. apply list_elem_of_filter. auto. }
  apply list_elem_of_filter in Hin. tauto.
Qed.

Lemma rankedFronts_snoc fronts currentFront :
  rankedFronts dom L fronts ->
  rankedAt dom L fronts currentFront ->
  rankedFronts dom L (fronts ++ [currentFront]).
Proof.
  intros Hranked Hcurrent earlier front later Heq.
  destruct (exists_last (l := front :: later)) as (later' & z & Hlast);
    [discriminate|].
  destruct later as [|y later].
  - apply app_inj_tail in Heq. destruct Heq as [-> ->]. exact Hcurrent.
  - assert (Hsplit : exists later0, y :: later = later0 ++ [z]
                                    /\ later' = front :: later0).
    { destruct later' as [|f later0]; [simpl in Hlast|].
      - injection Hlast as _ Hlast. discriminate.
      - injection Hlast as <- Hlast. eauto. }
    destruct Hsplit as (later0 & Hlater & _). rewrite Hlater in Heq.
    change (earlier ++ front :: later0 ++ [z])
      with (earlier ++ (front :: later0) ++ [z]) in Heq.
    rewrite app_assoc in Heq. apply app_inj_tail in Heq.
    destruct Heq as [Heq _]. exact (Hranked _ _ _ Heq).
Qed.

Lemma ranked_step (dominatedValues : gmap C (list C))
    (dominationCount : gmap C Z) currentFront fronts :
  (forall p, p ∈ L ->
     dominatedValues !! p = Some (filter (fun q => dom p q = true) L)) ->
  frontsInv dom L dominationCount currentFront fronts ->
  rankedAt dom L (fronts ++ [currentFront])
    (snd (MOSA.nextFrontOf dominatedValues dominationCount currentFront)).
Proof.
  intros Htable Hinv.
  pose proof (frontsInv_step fitnessFunctions archive L HnodupL dominatedValues
                dominationCount currentFront fronts Htable Hinv)
    as (Hnodup' & Hsub' & Hcount' & Hreleased').
  destruct Hinv as (Hnodup & Hsub & Hcount & Hreleased).
  revert Hnodup' Hsub' Hcount' Hreleased'.
  rewrite nextFrontOf_flat.
  set (qs := concat (map (fun p => default [] (dominatedValues !! p))
                         currentFront)).
  destruct (releaseAll_spec qs dominationCount [])
    as (released & Hsnd & _ & _ & Hmem).
  rewrite Hsnd. cbn [app]. intros Hnodup' Hsub' Hcount' Hreleased'.
  intros q Hq.
  assert (Hocc : occurrences q qs
                 = if bool_decide (q ∈ L)
                   then length (dominatorsIn dom currentFront q) else 0%nat).
  { apply occurrences_dominated; [exact HnodupL | exact Htable|].
    intros p Hp. apply Hsub, elem_of_app. right. exact Hp. }
  assert (HqL : q ∈ L).
  { apply Hsub', elem_of_app. right. exact Hq. }
  split.
  - apply dominators_all.
    + apply NoDup_app in Hnodup'. tauto.
    + intros x Hx. apply Hsub', elem_of_app. left. exact Hx.
    + pose proof (proj1 (Hreleased' q HqL)) as Hzero.
      rewrite (Hcount' q HqL) in Hzero.
      pose proof (dominatorsIn_le fitnessFunctions archive L
                    (concat (fronts ++ [currentFront])) q) as Hle.
      assert ((length (dominatorsIn dom (concat (fronts ++ [currentFront])) q)
               <= length (dominatorsIn dom L q))%nat).
      { apply Hle; [apply NoDup_app in Hnodup'; tauto|].
        intros x Hx. apply Hsub', elem_of_app. left. exact Hx. }
      assert (Z.of_nat (length (dominatorsIn dom L q))
              - Z.of_nat (length (dominatorsIn dom
                                    (concat (fronts ++ [currentFront])) q)) = 0).
      { apply Hzero, elem_of_app. right. exact Hq. }
      lia.
  - intros earlier' previous Heq. apply app_inj_tail in Heq.
    destruct Heq as [_ <-].
    apply list_elem_of_In, Hmem in Hq. rewrite Hocc in Hq.
    rewrite (bool_decide_eq_true_2 _ HqL) in Hq.
    destruct (dominatorsIn dom currentFront q) as [|p ps] eqn:Hdominators;
      [simpl in Hq; lia|].
    assert (Hp : p ∈ dominatorsIn dom currentFront q)
      by (rewrite Hdominators; left).
    apply list_elem_of_filter in Hp. exists p. tauto.
Qed.

Lemma rankedLoop fuel (dominatedValues : gmap C (list C)) :
  (forall p, p ∈ L ->
     dominatedValues !! p = Some (filter (fun q => dom p q = true) L)) ->
  forall (dominationCount : gmap C Z) currentFront fronts result,
    MOSA.frontsLoop fuel dominatedValues dominationCount currentFront fronts
    = Some result ->
    frontsInv dom L dominationCount currentFront fronts ->
    rankedFronts dom L fronts ->
    rankedAt dom L fronts currentFront ->
    rankedFronts dom L result.
Proof.
  intros Htable. induction fuel as [|fuel IH];
    intros dominationCount currentFront fronts result Hrun Hinv Hranked Hcurrent.
  - destruct currentFront; [|discriminate].
    injection Hrun as <-. exact Hranked.
  - destruct currentFront as [|p currentFront].
    + injection Hrun as <-. exact Hranked.
    + cbn [MOSA.frontsLoop] in Hrun.
      pose proof (frontsInv_step fitnessFunctions archive L HnodupL
                    dominatedValues dominationCount
                    (p :: currentFront) fronts Htable Hinv) as Hstep.
      pose proof (ranked_step dominatedValues dominationCount
                    (p :: currentFront) fronts Htable Hinv) as Hnext.
      destruct (MOSA.nextFrontOf dominatedValues dominationCount
                  (p :: currentFront)) as [dominationCount' nextFront].
      eapply IH; [exact Hrun | exact Hstep | | exact Hnext].
      apply rankedFronts_snoc; assumption.
Qed.

Hypothesis Hasym : forall a b, dom a b = true -> dom b a = false.

Lemma fastNonDominatedSorting_ranked fronts :
  MOSA.fastNonDominatedSorting fitnessFunctions archive L = Some fronts ->
  rankedFronts dom L fronts.
Proof.
  unfold MOSA.fastNonDominatedSorting.
  pose proof (dominationTables_spec fitnessFunctions archive Hasym L L ∅ ∅ [])
    as Htables.
  cbn zeta in Htables.
  fold (MOSA.dominationTables fitnessFunctions archive L) in Htables.
  destruct (MOSA.dominationTables fitnessFunctions archive L)
    as [[dominatedValues dominationCount] firstFront].
  cbn [fst snd] in Htables. destruct Htables as (Hin & _ & Hfirst).
  intros Hrun.
  apply (rankedLoop _ dominatedValues (fun p Hp => proj1 (Hin p Hp))
           dominationCount firstFront [] fronts Hrun).
  - unfold frontsInv. cbn [concat app]. subst firstFront. cbn [app].
    split; [apply NoDup_filter, HnodupL|]. split; [|split].
    + intros x Hx. apply list_elem_of_filter in Hx. tauto.
    + intros q Hq. rewrite (proj2 (Hin q Hq)). unfold dominatorsIn. simpl. lia.
    + intros q Hq. rewrite (proj2 (Hin q Hq)). simpl.
      rewrite list_elem_of_filter. tauto.
  - intros earlier front later Heq. destruct earlier; discriminate.
  - subst firstFront. cbn [app]. intros q Hq.
    apply list_elem_of_filter in Hq. destruct Hq as [Hzero HqL]. split.
    + intros p Hp Hpq. exfalso.
      assert (Hin' : p ∈ dominatorsIn dom L q)
        by (apply list_elem_of_filter; auto).
      destruct (dominatorsIn dom L q); [apply elem_of_nil in Hin'; exact Hin'|].
      simpl in Hzero. lia.
    + intros earlier' previous Heq. destruct earlier'; discriminate.
Qed.

End FrontsRanked.

Section FrontsRankedTheorem.
Context {C number : Type} `{Countable C}.
Variable fitnessFunctions : JsMap.t (FitnessFunction C number).
Variable archive : JsMap.t C.

(** X2: on a list without repeated objects and with [compare] functions
    that are total orders, the fronts of [fastNonDominatedSorting] are the
    ranks of the list under domination: together they hold every chromosome
    of the list exactly once; every chromosome of the list that dominates a
    member of a front lies in an earlier front, and a member of a later
    front is dominated by a member of the front just before it; hence no
    chromosome dominates another one of its own front. *)
Theorem fastNonDominatedSorting_ranks (chromosomes : list C) :
  allTotalOrders fitnessFunctions ->
  NoDup chromosomes ->
  exists fronts,
    MOSA.fastNonDominatedSorting fitnessFunctions archive chromosomes
    = Some fronts
    /\ concat fronts ≡ₚ chromosomes
    /\ rankedFronts (MOSA.dominates fitnessFunctions archive) chromosomes fronts
    /\ (forall front p q, front ∈ fronts -> p ∈ front -> q ∈ front ->
          MOSA.dominates fitnessFunctions archive p q = false).
Proof.
  intros Htotal Hnodup.
  destruct (fastNonDominatedSorting_returns fitnessFunctions archive chromosomes)
    as [fronts Hrun].
  pose proof (fastNonDominatedSorting_complete fitnessFunctions archive
                (dominates_asym fitnessFunctions archive Htotal)
                (dominates_trans fitnessFunctions archive Htotal)
                chromosomes Hnodup fronts Hrun) as Hperm.
  pose proof (fastNonDominatedSorting_ranked fitnessFunctions archive
                chromosomes Hnodup
                (dominates_asym fitnessFunctions archive Htotal) fronts Hrun)
    as Hranked.
  exists fronts. split; [exact Hrun|]. split; [exact Hperm|].
  split; [exact Hranked|].
  intros front p q Hfront Hp Hq.
  destruct (MOSA.dominates fitnessFunctions archive p q) eqn:Hpq; [|reflexivity].
  exfalso. apply list_elem_of_split in Hfront.
  destruct Hfront as (earlier & later & ->).
  destruct (Hranked earlier front later eq_refl q Hq) as [Hall _].
  assert (HpL : p ∈ chromosomes).
  { rewrite <- Hperm. rewrite concat_app. apply elem_of_app. right.
    simpl. apply elem_of_app. left. exact Hp. }
  specialize (Hall p HpL Hpq).
  assert (Hnd : NoDup (concat (earlier ++ front :: later)))
    by (rewrite Hperm; exact Hnodup).
  rewrite concat_app in Hnd. apply NoDup_app in Hnd.
  destruct Hnd as (_ & Hdisjoint & _).
  apply (Hdisjoint p Hall). simpl. apply elem_of_app. left. exact Hp.
Qed.

End FrontsRankedTheorem.

(** ** The next parent population *)

Section Survivors.
Context {C number World : Type} `{Countable C}.
Variable getLength : C -> Z.
Variable fitnessFunctions : JsMap.t (FitnessFunction C number).
Variable env : MOSA.Collaborators C World.

Lemma preferenceLoop_None archive chromosomes ks :
  foldl (MOSA.preferenceStep getLength fitnessFunctions archive chromosomes)
        None ks = None.
Proof. induction ks as [|k ks IH]; [reflexivity | exact IH]. Qed.

(** The outer loop of [preferenceSorting] moves chromosomes from the list
    for the non-dominated sorting to the preferred front, one position at a
    time. *)
Lemma preferenceLoop_moves archive chromosomes ks :
  forall bestFront rest bestFront' rest',
    foldl (MOSA.preferenceStep getLength fitnessFunctions archive chromosomes)
          (Some (bestFront, rest)) ks = Some (bestFront', rest') ->
    bestFront ++ rest ≡ₚ chromosomes ->
    bestFront' ++ rest' ≡ₚ chromosomes.
Proof.
  induction ks as [|k ks IH]; intros bestFront rest bestFront' rest' Hrun Hperm.
  - injection Hrun as <- <-. exact Hperm.
  - cbn [foldl] in Hrun.
    destruct (MOSA.preferenceStep getLength fitnessFunctions archive chromosomes
                (Some (bestFront, rest)) k) as [[bestFront1 rest1]|] eqn:Hstep.
    2:{ rewrite preferenceLoop_None in Hrun. discriminate. }
    apply (IH _ _ _ _ Hrun). clear Hrun IH.
    unfold MOSA.preferenceStep in Hstep.
    destruct (negb (JsMap.has k archive));
      [|injection Hstep as <- <-; exact Hperm].
    destruct (JsMap.get k fitnessFunctions) as [ff|];
      [|injection Hstep as <- <-; exact Hperm].
    destruct (MOSA.bestFor getLength ff chromosomes) as [best|] eqn:Hbest;
      [|discriminate].
    destruct (JsList.contains bestFront best) eqn:Hcontains; cbn [negb] in Hstep;
      injection Hstep as <- <-; [exact Hperm|].
    apply contains_false in Hcontains.
    assert (Hin : In best rest).
    { pose proof (bestFor_In getLength ff chromosomes best Hbest) as Hin.
      apply (Permutation_in _ (Permutation_sym Hperm)) in Hin.
      apply in_app_or in Hin. tauto. }
    rewrite <- app_assoc. simpl. rewrite <- Hperm.
    apply Permutation_app_head, remove_Permutation, Hin.
Qed.

(** The fronts of [preferenceSorting] are a sub-multiset of the combined
    population. *)
Lemma preferenceSorting_submseteq populationSize archive chromosomes fronts :
  MOSA.preferenceSorting getLength fitnessFunctions populationSize archive
    chromosomes = Some fronts ->
  concat fronts ⊆+ chromosomes.
Proof.
  unfold MOSA.preferenceSorting. intros Hrun.
  destruct (foldl (MOSA.preferenceStep getLength fitnessFunctions archive
                     chromosomes)
                  (Some ([], chromosomes)) (JsMap.keys fitnessFunctions))
    as [[bestFront rest]|] eqn:Hloop; [|discriminate].
  apply preferenceLoop_moves in Hloop; [|reflexivity].
  assert (Hfront :
    concat (if 0 <? Z.of_nat (length bestFront) then [bestFront] else [])
    = bestFront).
  { destruct bestFront; simpl; [reflexivity|]. rewrite app_nil_r. reflexivity. }
  destruct (populationSize <? Z.of_nat (length bestFront)).
  - injection Hrun as <-. rewrite concat_app, Hfront. simpl.
    rewrite app_nil_r, Hloop. reflexivity.
  - destruct (MOSA.fastNonDominatedSorting fitnessFunctions archive rest)
      as [tail|] eqn:Htail; [|discriminate].
    injection Hrun as <-. rewrite concat_app, Hfront, <- Hloop.
    apply submseteq_app; [reflexivity|].
    apply (fastNonDominatedSorting_submseteq fitnessFunctions archive rest tail
             Htail).
Qed.

Hypothesis Hshuffle :
  forall l w, Permutation (fst (MOSA.shuffle env l w)) l.

Lemma subVectorDominanceSorting_Permutation front w sorted w' :
  MOSA.subVectorDominanceSorting fitnessFunctions env front w
  = Some (sorted, w') ->
  sorted ≡ₚ front.
Proof.
  unfold MOSA.subVectorDominanceSorting. intros Hrun.
  bind_dest Hrun as shuffled w1 Hshuffled. injection Hrun as <- _.
  unfold Eff.lift in Hshuffled. injection Hshuffled as Heq.
  rewrite sortByKey_Permutation.
  pose proof (Hshuffle front w) as Hperm. rewrite Heq in Hperm. exact Hperm.
Qed.

Lemma fillPopulation_submseteq fronts :
  forall parentPopulation w result w',
    MOSA.fillPopulation fitnessFunctions env fronts parentPopulation w
    = Some (result, w') ->
    result ⊆+ parentPopulation ++ concat fronts.
Proof.
  induction fronts as [|front fronts IH];
    intros parentPopulation w result w' Hrun; simpl in Hrun.
  - injection Hrun as <- _. simpl. rewrite app_nil_r. reflexivity.
  - bind_dest Hrun as sorted w1 Hsorted.
    apply subVectorDominanceSorting_Permutation in Hsorted.
    cbn [concat]. rewrite <- Hsorted.
    destruct (Z.of_nat (length parentPopulation) + Z.of_nat (length sorted)
              <=? MOSA.getPopulationSize env).
    + apply IH in Hrun. rewrite <- app_assoc in Hrun. exact Hrun.
    + injection Hrun as <- _. apply submseteq_app; [reflexivity|].
      etransitivity; [|apply submseteq_inserts_r; reflexivity].
      unfold JsList.subList. rewrite drop_0.
      apply sublist_submseteq, sublist_take.
Qed.

(** X3: a turn of the loop of [findSolution] selects the next parent
    population from the parents and the offspring: the offspring are as
    many as the parents, the next population is a sub-multiset of the
    combined population (no chromosome is invented, none gets more
    positions than it had there) of at most [getPopulationSize()]
    chromosomes, and [_iterations] grows by one.  [shuffle] is taken to
    permute its list. *)
Theorem next_population_from_combined this parentPopulation w st' w' :
  0 <= MOSA.getPopulationSize env ->
  MOSA.iteration getLength fitnessFunctions env (this, parentPopulation) w
  = Some (st', w') ->
  exists offspringPopulation w1,
    MOSA.generateOffspringPopulation env parentPopulation
      (0 <? MOSA._iterations this) w = Some (offspringPopulation, w1)
    /\ length offspringPopulation = length parentPopulation
    /\ snd st' ⊆+ parentPopulation ++ offspringPopulation
    /\ Z.of_nat (length (snd st')) <= MOSA.getPopulationSize env
    /\ MOSA._iterations (fst st') = MOSA._iterations this + 1.
Proof.
  intros Hsize Hrun.
  pose proof (iteration_population_le getLength fitnessFunctions env
                (this, parentPopulation) w st' w' Hsize Hrun) as Hle.
  unfold MOSA.iteration in Hrun.
  bind_dest Hrun as offspringPopulation w1 Hoffspring.
  bind_dest Hrun as fronts w2 Hfronts.
  bind_dest Hrun as filled w3 Hfilled.
  injection Hrun as <- _.
  exists offspringPopulation, w1. split; [exact Hoffspring|].
  split; [eapply generateOffspringPopulation_length; exact Hoffspring|].
  split; [|split; [exact Hle | reflexivity]].
  cbn [snd]. rewrite reverse_Permutation.
  unfold Eff.orThrow in Hfronts.
  destruct (MOSA.preferenceSorting getLength fitnessFunctions
              (MOSA.getPopulationSize env)
              (MOSA.updateArchive getLength fitnessFunctions
                 (MOSA._archive this) offspringPopulation)
              (parentPopulation ++ offspringPopulation))
    as [fronts'|] eqn:Hsorting; [|discriminate].
  injection Hfronts as <- <-.
  apply preferenceSorting_submseteq in Hsorting.
  apply fillPopulation_submseteq in Hfilled. simpl in Hfilled.
  etransitivity; [exact Hfilled | exact Hsorting].
Qed.

End Survivors.

Section PopulationKept.
Context {C number World : Type} `{Countable C}.
Variable getLength : C -> Z.
Variable fitnessFunctions : JsMap.t (FitnessFunction C number).
Variable env : MOSA.Collaborators C World.

(** X4: a turn of the loop of [findSolution] keeps the size of the
    population when the parents are as many as the population size (at
    least 1), the combined population of parents and offspring holds no
    object twice, every [compare] is a total order and [shuffle] permutes
    its list. *)
Theorem population_size_kept this parentPopulation w st' w' :
  allTotalOrders fitnessFunctions ->
  (forall l w, Permutation (fst (MOSA.shuffle env l w)) l) ->
  1 <= MOSA.getPopulationSize env ->
  Z.of_nat (length parentPopulation) = MOSA.getPopulationSize env ->
  (forall offspringPopulation w1,
      MOSA.generateOffspringPopulation env parentPopulation
        (0 <? MOSA._iterations this) w = Some (offspringPopulation, w1) ->
      NoDup (parentPopulation ++ offspringPopulation)) ->
  MOSA.iteration getLength fitnessFunctions env (this, parentPopulation) w
  = Some (st', w') ->
  Z.of_nat (length (snd st')) = MOSA.getPopulationSize env.
Proof.
  intros Htotal Hshuffle. apply iteration_population_exact; assumption.
Qed.

End PopulationKept.

(** ** Sorting when every goal is covered *)

Section AllCovered.
Context {C number : Type} `{Countable C}.
Variable getLength : C -> Z.
Variable fitnessFunctions : JsMap.t (FitnessFunction C number).
Variable populationSize : Z.
Variable archive : JsMap.t C.
Hypothesis Hcovered :
  forall key, In key (JsMap.keys fitnessFunctions) ->
    JsMap.has key archive = true.

Lemma dominates_covered a b :
  MOSA.dominates fitnessFunctions archive a b = false.
Proof.
  unfold MOSA.dominates.
  assert (Hloop : forall ks,
    (forall key, In key ks -> JsMap.has key archive = true) ->
    foldl (MOSA.dominatesStep fitnessFunctions archive a b) (Some false) ks
    = Some false).
  { induction ks as [|k ks IH]; intros Hks; [reflexivity|].
    cbn [foldl]. unfold MOSA.dominatesStep at 2.
    rewrite (Hks k (or_introl eq_refl)). cbn [negb].
    apply IH. intros key Hkey. apply Hks. right. exact Hkey. }
  rewrite (Hloop _ Hcovered). reflexivity.
Qed.

Lemma dominationOf_covered chromosomes p :
  MOSA.dominationOf fitnessFunctions archive chromosomes p = ([], 0).
Proof.
  unfold MOSA.dominationOf. generalize (@nil C, 0) as st.
  induction chromosomes as [|q qs IH]; intros st; [reflexivity|].
  cbn [foldl]. destruct st as [dominatedValuesP dominationCountP].
  rewrite !dominates_covered. apply IH.
Qed.

Lemma dominationTables_covered chromosomes ps
    (st : gmap C (list C) * gmap C Z * list C) :
  let result :=
    foldl (MOSA.dominationStep fitnessFunctions archive chromosomes) st ps in
  ((forall p l, fst (fst st) !! p = Some l -> l = []) ->
   forall p l, fst (fst result) !! p = Some l -> l = [])
  /\ snd result = snd st ++ ps.
Proof.
  revert st. induction ps as [|p0 ps IH]; intros st; cbn zeta.
  - simpl. rewrite app_nil_r. auto.
  - cbn [foldl].
    destruct (IH (MOSA.dominationStep fitnessFunctions archive chromosomes
                    st p0)) as (Hkeep & Hfirst).
    cbn zeta in Hkeep, Hfirst.
    assert (Hstep :
      fst (fst (MOSA.dominationStep fitnessFunctions archive chromosomes st p0))
      = <[p0 := []]> (fst (fst st))
      /\ snd (MOSA.dominationStep fitnessFunctions archive chromosomes st p0)
         = snd st ++ [p0]).
    { destruct st as [[dominatedValues dominationCount] firstFront].
      unfold MOSA.dominationStep. rewrite dominationOf_covered. auto. }
    destruct Hstep as [Hvalues Hfront]. split.
    + intros Hold. apply Hkeep. intros p l. rewrite Hvalues.
      destruct (decide (p0 = p)) as [->|Hne].
      * rewrite lookup_insert_eq. congruence.
      * rewrite lookup_insert_ne by exact Hne. apply Hold.
    + rewrite Hfirst, Hfront, <- app_assoc. reflexivity.
Qed.

Lemma nextFrontOf_nothing (dominatedValues : gmap C (list C))
    (dominationCount : gmap C Z) currentFront :
  (forall p l, dominatedValues !! p = Some l -> l = []) ->
  MOSA.nextFrontOf dominatedValues dominationCount currentFront
  = (dominationCount, []).
Proof.
  intros Hempty. rewrite nextFrontOf_flat.
  assert (Hnone : concat (map (fun p => default [] (dominatedValues !! p))
                              currentFront) = []).
  { induction currentFront as [|p ps IH]; [reflexivity|].
    cbn [map concat]. rewrite IH, app_nil_r.
    destruct (dominatedValues !! p) as [l|] eqn:Hl; [|reflexivity].
    simpl. eapply Hempty. exact Hl. }
  rewrite Hnone. reflexivity.
Qed.

Lemma fastNonDominatedSorting_covered chromosomes :
  MOSA.fastNonDominatedSorting fitnessFunctions archive chromosomes
  = Some (if chromosomes is [] then [] else [chromosomes]).
Proof.
  unfold MOSA.fastNonDominatedSorting.
  pose proof (dominationTables_covered chromosomes chromosomes (∅, ∅, []))
    as Htables.
  cbn zeta in Htables.
  fold (MOSA.dominationTables fitnessFunctions archive chromosomes) in Htables.
  destruct (MOSA.dominationTables fitnessFunctions archive chromosomes)
    as [[dominatedValues dominationCount] firstFront].
  cbn [fst snd app] in Htables. destruct Htables as [Hempty ->].
  destruct chromosomes as [|c chromosomes]; [reflexivity|].
  cbn [MOSA.frontsLoop]. rewrite nextFrontOf_nothing.
  - destruct (length (c :: chromosomes)); reflexivity.
  - apply Hempty. intros p l Hl. rewrite lookup_empty in Hl. discriminate.
Qed.

(** X8: once every goal has an archive entry no fitness function is
    compared any more: [dominates] is false for every pair of chromosomes,
    and [preferenceSorting] returns the combined population as one single
    front, in its order, whatever the population size. *)
Theorem all_goals_covered_single_front (chromosomes : list C) :
  chromosomes <> [] ->
  (forall a b, MOSA.dominates fitnessFunctions archive a b = false)
  /\ MOSA.preferenceSorting getLength fitnessFunctions populationSize archive
       chromosomes = Some [chromosomes].
Proof.
  intros Hnonempty. split; [exact dominates_covered|].
  unfold MOSA.preferenceSorting.
  assert (Hloop : forall ks acc,
    (forall key, In key ks -> JsMap.has key archive = true) ->
    foldl (MOSA.preferenceStep getLength fitnessFunctions archive chromosomes)
          acc ks = acc).
  { induction ks as [|k ks IH]; intros acc Hks; [reflexivity|].
    cbn [foldl].
    assert (Hstep : MOSA.preferenceStep getLength fitnessFunctions archive
                      chromosomes acc k = acc).
    { unfold MOSA.preferenceStep. destruct acc as [[bestFront rest]|];
        [|reflexivity].
      rewrite (Hks k (or_introl eq_refl)). reflexivity. }
    rewrite Hstep. apply IH. intros key Hkey. apply Hks. right. exact Hkey. }
  rewrite (Hloop _ _ Hcovered). cbn [length].
  destruct (populationSize <? Z.of_nat 0); [reflexivity|].
  rewrite fastNonDominatedSorting_covered.
  destruct chromosomes; [congruence | reflexivity].
Qed.

End AllCovered.

(** ** The loop goes through *)

Section PreferenceReturns.
Context {C number : Type} `{Countable C}.
Variable getLength : C -> Z.
Variable fitnessFunctions : JsMap.t (FitnessFunction C number).
Variable populationSize : Z.
Variable archive : JsMap.t C.
Variable chromosomes : list C.
Hypothesis Hnonempty : chromosomes <> [].

#[local] Abbreviation preferenceLoop :=
  (foldl (MOSA.preferenceStep getLength fitnessFunctions archive chromosomes)).

Lemma bestFor_returns (ff : FitnessFunction C number) :
  exists best, MOSA.bestFor getLength ff chromosomes = Some best.
Proof.
  unfold MOSA.bestFor. destruct chromosomes; [congruence | eauto].
Qed.

(** On a population that is not empty the outer loop of
    [preferenceSorting] goes through; its preferred front is empty only
    when every key has an archive entry. *)
Lemma preferenceLoop_returns ks :
  (forall key, In key ks -> In key (JsMap.keys fitnessFunctions)) ->
  forall bestFront rest,
    exists bestFront' rest',
      preferenceLoop (Some (bestFront, rest)) ks = Some (bestFront', rest')
      /\ (bestFront' = [] ->
          bestFront = []
          /\ forall key, In key ks -> JsMap.has key archive = true).
Proof.
  induction ks as [|k ks IH]; intros Hkeys bestFront rest.
  - exists bestFront, rest. split; [reflexivity|].
    intros ->. split; [reflexivity | intros key []].
  - cbn [foldl].
    assert (Hstep : exists bestFront1 rest1,
      MOSA.preferenceStep getLength fitnessFunctions archive chromosomes
        (Some (bestFront, rest)) k = Some (bestFront1, rest1)
      /\ (bestFront1 = [] ->
          bestFront = [] /\ JsMap.has k archive = true)).
    { unfold MOSA.preferenceStep.
      destruct (JsMap.has k archive) eqn:Hhas; cbn [negb];
        [exists bestFront, rest; auto|].
      destruct (JsMap_get_keys k fitnessFunctions
                  (Hkeys k (or_introl eq_refl))) as [ff ->].
      destruct (bestFor_returns ff) as [best ->].
      destruct (JsList.contains bestFront best) eqn:Hcontains; cbn [negb].
      - exists bestFront, rest. split; [reflexivity|]. intros ->.
        apply contains_true in Hcontains. destruct Hcontains.
      - exists (bestFront ++ [best]), (JsList.remove best rest).
        split; [reflexivity|]. intros Hnil.
        apply app_eq_nil in Hnil. destruct Hnil as [_ Hnil]. discriminate. }
    destruct Hstep as (bestFront1 & rest1 & -> & Hfirst).
    destruct (IH (fun key Hkey => Hkeys key (or_intror Hkey)) bestFront1 rest1)
      as (bestFront' & rest' & Hloop & Hempty).
    exists bestFront', rest'. split; [exact Hloop|].
    intros Hnil. destruct (Hempty Hnil) as [Hnil1 Hcovered].
    destruct (Hfirst Hnil1) as [Hnil0 Hk]. split; [exact Hnil0|].
    intros key [<-|Hkey]; auto.
Qed.

Lemma preferenceSorting_returns :
  exists fronts,
    MOSA.preferenceSorting getLength fitnessFunctions populationSize archive
      chromosomes = Some fronts
    /\ (0 <= populationSize ->
        exists first later, fronts = first :: later /\ first <> []).
Proof.
  destruct (preferenceLoop_returns (JsMap.keys fitnessFunctions)
              (fun key Hkey => Hkey) [] chromosomes)
    as (bestFront & rest & Hloop & Hempty).
  unfold MOSA.preferenceSorting. rewrite Hloop.
  destruct bestFront as [|b bestFront].
  - destruct (Hempty eq_refl) as [_ Hcovered]. cbn [length].
    assert (Hrest : rest = chromosomes).
    { assert (Hsame : forall ks acc,
        (forall key, In key ks -> JsMap.has key archive = true) ->
        preferenceLoop acc ks = acc).
      { induction ks as [|k ks IH]; intros acc Hks; [reflexivity|].
        cbn [foldl].
        assert (Hstep : MOSA.preferenceStep getLength fitnessFunctions
                          archive chromosomes acc k = acc).
        { unfold MOSA.preferenceStep.
          destruct acc as [[bestFront0 rest0]|]; [|reflexivity].
          rewrite (Hks k (or_introl eq_refl)). reflexivity. }
        rewrite Hstep. apply IH. intros key Hkey. apply Hks. right.
        exact Hkey. }
      rewrite (Hsame _ _ Hcovered) in Hloop. congruence. }
    subst rest.
    destruct (Z.ltb_spec populationSize (Z.of_nat 0)) as [Hlt|Hge].
    + eexists. split; [reflexivity|]. intros Hsize. simpl in Hlt. lia.
    + rewrite (fastNonDominatedSorting_covered fitnessFunctions archive
                 Hcovered chromosomes).
      eexists. split; [reflexivity|]. intros _.
      destruct chromosomes as [|c cs]; [congruence|].
      exists (c :: cs), []. split; [reflexivity | discriminate].
  - assert (Hfront : (0 <? Z.of_nat (length (b :: bestFront))) = true).
    { apply Z.ltb_lt. simpl. lia. }
    rewrite Hfront.
    destruct (populationSize <? Z.of_nat (length (b :: bestFront))).
    + eexists. split; [reflexivity|]. intros _.
      exists (b :: bestFront), [rest]. split; [reflexivity | discriminate].
    + destruct (fastNonDominatedSorting_returns fitnessFunctions archive rest)
        as [tail ->].
      eexists. split; [reflexivity|]. intros _.
      exists (b :: bestFront), tail. split; [reflexivity | discriminate].
Qed.

(** X9: on a combined population that is not empty, whatever it holds
    and however the fitness functions compare, [preferenceSorting]
    returns: it never reads an absent chromosome and its [while] loop
    ends.  Its fronts together are a sub-multiset of the population; when
    the population size is at least 0 the first front exists and is not
    empty. *)
Theorem preferenceSorting_any_input :
  exists fronts,
    MOSA.preferenceSorting getLength fitnessFunctions populationSize archive
      chromosomes = Some fronts
    /\ concat fronts ⊆+ chromosomes
    /\ (0 <= populationSize ->
        exists first later, fronts = first :: later /\ first <> []).
Proof.
  destruct preferenceSorting_returns as (fronts & Hrun & Hfirst).
  exists fronts. split; [exact Hrun|]. split; [|exact Hfirst].
  eapply preferenceSorting_submseteq. exact Hrun.
Qed.

End PreferenceReturns.

Section LoopReturns.
Context {C number World : Type} `{Countable C}.
Variable getLength : C -> Z.
Variable fitnessFunctions : JsMap.t (FitnessFunction C number).
Variable env : MOSA.Collaborators C World.
Hypothesis Hsize : 1 <= MOSA.getPopulationSize env.
Hypothesis HnextInt :
  forall lo hi w, lo < hi -> lo <= fst (MOSA.nextInt env lo hi w) < hi.
Hypothesis Hshuffle :
  forall l w, Permutation (fst (MOSA.shuffle env l w)) l.

Lemma selectChromosome_returns population useRankSelection w :
  population <> [] ->
  exists c w',
    MOSA.selectChromosome env population useRankSelection w = Some (c, w').
Proof.
  intros Hnonempty. unfold MOSA.selectChromosome.
  destruct useRankSelection.
  - unfold Eff.lift.
    destruct (MOSA.selectionOperator env population w) as [c w']. eauto.
  - unfold Eff.bind, Eff.lift.
    pose proof (HnextInt 0 (Z.of_nat (length population)) w) as Hrange.
    destruct (MOSA.nextInt env 0 (Z.of_nat (length population)) w)
      as [randomIndex w1].
    cbn [fst] in Hrange.
    assert (Hlen : 0 < Z.of_nat (length population)).
    { destruct population; [congruence | simpl; lia]. }
    specialize (Hrange Hlen).
    destruct (Z.ltb_spec randomIndex 0) as [Hneg|_]; [lia|].
    destruct (lookup_lt_is_Some_2 population (Z.to_nat randomIndex))
      as [c Hc]; [lia|].
    rewrite Hc. simpl. eauto.
Qed.

Lemma offspringPair_returns population useRankSelection w :
  population <> [] ->
  exists children w',
    MOSA.offspringPair env population useRankSelection w
    = Some (children, w').
Proof.
  intros Hnonempty. unfold MOSA.offspringPair.
  destruct (selectChromosome_returns population useRankSelection w Hnonempty)
    as (parent1 & w1 & Hparent1).
  destruct (selectChromosome_returns population useRankSelection w1 Hnonempty)
    as (parent2 & w2 & Hparent2).
  unfold Eff.bind at 1. rewrite Hparent1.
  unfold Eff.bind at 1. rewrite Hparent2.
  unfold Eff.bind, Eff.lift, Eff.ret.
  destruct (MOSA.nextDouble env w2) as [r1 w3].
  destruct (MOSA.Qltb r1 (MOSA.getCrossoverProbability env)).
  - destruct (MOSA.crossover env parent1 parent2 w3) as [[child1 child2] w4].
    destruct (MOSA.nextDouble env w4) as [r2 w5].
    destruct (MOSA.Qltb r2 (MOSA.getMutationProbablity env));
      [destruct (MOSA.mutate env child1 w5) as [c1 w6]|];
      (destruct (MOSA.nextDouble env _) as [r3 w7];
       destruct (MOSA.Qltb r3 (MOSA.getMutationProbablity env));
       [destruct (MOSA.mutate env child2 w7) as [c2 w8]|]; eauto).
  - destruct (MOSA.nextDouble env w3) as [r2 w5].
    destruct (MOSA.Qltb r2 (MOSA.getMutationProbablity env));
      [destruct (MOSA.mutate env parent1 w5) as [c1 w6]|];
      (destruct (MOSA.nextDouble env _) as [r3 w7];
       destruct (MOSA.Qltb r3 (MOSA.getMutationProbablity env));
       [destruct (MOSA.mutate env parent2 w7) as [c2 w8]|]; eauto).
Qed.

Lemma offspringLoop_returns remaining population useRankSelection :
  population <> [] ->
  forall offspringPopulation w,
    exists result w',
      MOSA.offspringLoop env remaining population useRankSelection
        offspringPopulation w = Some (result, w').
Proof.
  intros Hnonempty.
  induction remaining as [remaining IH] using lt_wf_ind.
  intros offspringPopulation w.
  destruct remaining as [|[|remaining]]; cbn [MOSA.offspringLoop].
  - unfold Eff.ret. eauto.
  - destruct (offspringPair_returns population useRankSelection w Hnonempty)
      as ([child1 child2] & w1 & Hpair).
    unfold Eff.bind. rewrite Hpair. unfold Eff.ret. eauto.
  - destruct (offspringPair_returns population useRankSelection w Hnonempty)
      as ([child1 child2] & w1 & Hpair).
    unfold Eff.bind at 1. rewrite Hpair. apply IH. lia.
Qed.

Lemma fillPopulation_returns fronts :
  forall parentPopulation w,
    exists result w',
      MOSA.fillPopulation fitnessFunctions env fronts parentPopulation w
      = Some (result, w')
      /\ (length parentPopulation <= length result)%nat
      /\ (parentPopulation = [] ->
          forall first later, fronts = first :: later -> first <> [] ->
                              result <> []).
Proof.
  induction fronts as [|front fronts IH]; intros parentPopulation w.
  - exists parentPopulation, w. split; [reflexivity|]. split; [lia|].
    intros _ first later Heq. discriminate.
  - cbn [MOSA.fillPopulation].
    destruct (MOSA.subVectorDominanceSorting fitnessFunctions env front w)
      as [[sorted w1]|] eqn:Hsorted.
    2:{ unfold MOSA.subVectorDominanceSorting, Eff.bind, Eff.lift, Eff.ret
          in Hsorted.
        destruct (MOSA.shuffle env front w). discriminate. }
    unfold Eff.bind at 1. rewrite Hsorted.
    pose proof (subVectorDominanceSorting_length fitnessFunctions env
                  Hshuffle front w sorted w1 Hsorted) as Hlength.
    destruct (Z.leb_spec (Z.of_nat (length parentPopulation)
                          + Z.of_nat (length sorted))
                         (MOSA.getPopulationSize env)) as [Hfits|Hover].
    + destruct (IH (parentPopulation ++ sorted) w1)
        as (result & w' & Hrun & Hle & _).
      exists result, w'. split; [exact Hrun|].
      rewrite length_app in Hle. split; [lia|].
      intros _ first later [= <- _] Hfirst.
      destruct front; [congruence|]. simpl in Hlength.
      destruct result; [simpl in Hle; lia | discriminate].
    + unfold Eff.ret. eexists. eexists. split; [reflexivity|].
      rewrite length_app. split; [lia|].
      intros -> first later [= <- _] Hfirst. cbn [app length].
      intros Hnil.
      assert (Hzero : Z.of_nat (length (JsList.subList 0
                                  (MOSA.getPopulationSize env - Z.of_nat 0)
                                  sorted)) = 0).
      { cbn [length] in Hnil. rewrite Hnil. reflexivity. }
      rewrite subList_0_length in Hzero.
      destruct front; [congruence|]. simpl in Hlength.
      simpl in Hzero. lia.
Qed.

Lemma iteration_returns this parentPopulation w :
  parentPopulation <> [] ->
  exists st' w',
    MOSA.iteration getLength fitnessFunctions env (this, parentPopulation) w
    = Some (st', w')
    /\ snd st' <> [].
Proof.
  intros Hnonempty. unfold MOSA.iteration.
  destruct (offspringLoop_returns (length parentPopulation) parentPopulation
              (0 <? MOSA._iterations this) Hnonempty [] w)
    as (offspringPopulation & w1 & Hoffspring).
  unfold Eff.bind at 1. unfold MOSA.generateOffspringPopulation.
  rewrite Hoffspring.
  destruct (preferenceSorting_returns getLength fitnessFunctions
              (MOSA.getPopulationSize env)
              (MOSA.updateArchive getLength fitnessFunctions
                 (MOSA._archive this) offspringPopulation)
              (parentPopulation ++ offspringPopulation))
    as (fronts & Hfronts & Hfirst).
  { destruct parentPopulation; [congruence | discriminate]. }
  unfold Eff.bind at 1. rewrite Hfronts. unfold Eff.orThrow, Eff.ret.
  destruct (fillPopulation_returns fronts [] w1)
    as (filled & w2 & Hfilled & _ & Hfilled_nonempty).
  unfold Eff.bind at 1. rewrite Hfilled.
  eexists. eexists. split; [reflexivity|]. cbn [snd].
  destruct Hfirst as (first & later & Heq & Hne); [lia|].
  specialize (Hfilled_nonempty eq_refl first later Heq Hne).
  intros Hnil. apply Hfilled_nonempty.
  apply (f_equal reverse) in Hnil. rewrite reverse_involutive in Hnil.
  exact Hnil.
Qed.

(** X10: with a population size of at least 1, draws of [nextInt] that
    lie in their range and a [shuffle] that permutes its list, the loop of
    [findSolution] can take any number of turns from a parent population
    that is not empty: no turn reads an absent chromosome, every inner
    loop ends, and the next parent population is not empty either. *)
Theorem search_turns_return (n : nat) st w :
  snd st <> [] ->
  exists st' w',
    MOSA.iterate getLength fitnessFunctions env n st w = Some (st', w')
    /\ snd st' <> []
    /\ MOSA._iterations (fst st') = MOSA._iterations (fst st) + Z.of_nat n.
Proof.
  revert st w. induction n as [|n IH]; intros st w Hnonempty.
  - exists st, w. split; [reflexivity|]. split; [exact Hnonempty|]. simpl. lia.
  - cbn [MOSA.iterate]. destruct st as [this parentPopulation].
    destruct (iteration_returns this parentPopulation w Hnonempty)
      as (st1 & w1 & Hturn & Hnonempty1).
    unfold Eff.bind at 1. rewrite Hturn.
    destruct (IH st1 w1 Hnonempty1) as (st' & w' & Hrun & Hnonempty' & Hcount).
    exists st', w'. split; [exact Hrun|]. split; [exact Hnonempty'|].
    rewrite Hcount.
    assert (Hone : MOSA._iterations (fst st1) = MOSA._iterations this + 1).
    { unfold MOSA.iteration in Hturn.
      bind_dest Hturn as offspringPopulation w2 Hoffspring.
      bind_dest Hturn as fronts w3 Hfronts.
      bind_dest Hturn as filled w4 Hfilled.
      injection Hturn as <- _. reflexivity. }
    rewrite Hone. cbn [fst]. lia.
Qed.

End LoopReturns.

(** ** The result of [findSolution] *)

Section JsMapKeys.
Context {V : Type}.

Lemma JsMap_keys_set (k : Z) (v : V) (m : JsMap.t V) :
  JsMap.keys (JsMap.set k v m)
  = if JsMap.has k m then JsMap.keys m else JsMap.keys m ++ [k].
Proof.
  unfold JsMap.has, JsMap.keys. induction m as [|[k' v'] m IH]; [reflexivity|].
  simpl. destruct (Z.eqb_spec k' k) as [->|Hne]; [reflexivity|].
  simpl. rewrite IH. destruct (JsMap.get k m); reflexivity.
Qed.

Lemma JsMap_set_NoDup (k : Z) (v : V) (m : JsMap.t V) :
  NoDup (JsMap.keys m) -> NoDup (JsMap.keys (JsMap.set k v m)).
Proof.
  intros Hnodup. rewrite JsMap_keys_set.
  destruct (JsMap.has k m) eqn:Hhas; [exact Hnodup|].
  apply NoDup_app. split; [exact Hnodup|]. split; [|apply NoDup_singleton].
  intros x Hx Hx'. apply list_elem_of_singleton in Hx'. subst x.
  apply list_elem_of_In, JsMap_get_keys in Hx. destruct Hx as [v' Hv'].
  apply JsMap_has_false in Hhas. congruence.
Qed.

Lemma JsMap_values_get (m : JsMap.t V) (v : V) :
  NoDup (JsMap.keys m) ->
  In v (JsMap.values m) -> exists k, JsMap.get k m = Some v.
Proof.
  unfold JsMap.keys, JsMap.values.
  induction m as [|[k' v'] m IH]; intros Hnodup Hin; [destruct Hin|].
  simpl in Hnodup, Hin. apply NoDup_cons in Hnodup.
  destruct Hnodup as [Hnotin Hnodup]. destruct Hin as [->|Hin].
  - exists k'. simpl. rewrite Z.eqb_refl. reflexivity.
  - destruct (IH Hnodup Hin) as [k Hk]. exists k. simpl.
    destruct (Z.eqb_spec k' k) as [->|Hne]; [|exact Hk].
    exfalso. apply Hnotin. apply list_elem_of_In.
    eapply JsMap_get_In_keys. exact Hk.
Qed.

Lemma JsMap_get_values (m : JsMap.t V) (k : Z) (v : V) :
  JsMap.get k m = Some v -> In v (JsMap.values m).
Proof.
  unfold JsMap.values. induction m as [|[k' v'] m IH]; [discriminate|].
  simpl. destruct (k' =? k); [intros [= ->]; left; reflexivity|].
  intros Hget. right. apply IH, Hget.
Qed.

End JsMapKeys.

Section DistinctFacts.
Context {A : Type} `{EqDecision A}.

Lemma distinct_elem (l : list A) x : x ∈ JsList.distinct l <-> x ∈ l.
Proof.
  induction l as [|y l IH]; [reflexivity|]. simpl.
  rewrite !elem_of_cons, list_elem_of_filter, IH.
  destruct (decide (x = y)); tauto.
Qed.

Lemma distinct_NoDup (l : list A) : NoDup (JsList.distinct l).
Proof.
  induction l as [|y l IH]; [constructor|]. simpl.
  apply NoDup_cons. split; [|apply NoDup_filter, IH].
  intros Hin. apply list_elem_of_filter in Hin. destruct Hin as [Hne _].
  congruence.
Qed.

Lemma distinct_length (l : list A) :
  (length (JsList.distinct l) <= length l)%nat.
Proof.
  induction l as [|y l IH]; [reflexivity|]. simpl.
  pose proof (length_filter (fun z => z <> y) (JsList.distinct l)). lia.
Qed.

End DistinctFacts.

Section SolutionFacts.
Context {C number World : Type} `{Countable C}.
Variable getLength : C -> Z.
Variable fitnessFunctions : JsMap.t (FitnessFunction C number).
Variable env : MOSA.Collaborators C World.
Variable isFinished : MOSA.Fields C -> World -> bool * World.

Lemma considerAll_keys_NoDup key (ff : FitnessFunction C number) chromosomes :
  forall archive bestLength,
    NoDup (JsMap.keys archive) ->
    NoDup (JsMap.keys (snd (foldl (MOSA.consider getLength key ff)
                                  (bestLength, archive) chromosomes))).
Proof.
  induction chromosomes as [|c cs IH]; intros archive bestLength Hnodup;
    [exact Hnodup|].
  cbn [foldl]. unfold MOSA.consider at 2.
  destruct (isOptimal ff (getFitness ff c) && (getLength c <? bestLength)).
  - apply IH. apply JsMap_set_NoDup, Hnodup.
  - apply IH. exact Hnodup.
Qed.

Lemma updateArchive_keys_NoDup archive chromosomes :
  NoDup (JsMap.keys archive) ->
  NoDup (JsMap.keys (MOSA.updateArchive getLength fitnessFunctions archive
                       chromosomes)).
Proof.
  unfold MOSA.updateArchive. generalize (JsMap.keys fitnessFunctions) as ks.
  intros ks. revert archive.
  induction ks as [|key ks IH]; intros archive Hnodup; [exact Hnodup|].
  cbn [foldl]. apply IH. unfold MOSA.updateArchiveFor.
  destruct (JsMap.get key fitnessFunctions) as [ff|]; [|exact Hnodup].
  apply considerAll_keys_NoDup, Hnodup.
Qed.

Lemma iteration_solutionInv iterations0 st turns w st' w' :
  solutionInv fitnessFunctions iterations0 st turns ->
  MOSA.iteration getLength fitnessFunctions env st w = Some (st', w') ->
  solutionInv fitnessFunctions iterations0 st' (S turns).
Proof.
  intros (Hiterations & Hnodup & Hoptimal & _) Hrun.
  pose proof (iteration_optimal getLength fitnessFunctions env st w st' w'
                Hrun Hoptimal) as Hoptimal'.
  destruct st as [this parentPopulation]. unfold MOSA.iteration in Hrun.
  bind_dest Hrun as offspringPopulation w1 Hoffspring.
  bind_dest Hrun as fronts w2 Hfronts.
  bind_dest Hrun as filled w3 Hfilled.
  injection Hrun as <- _. unfold solutionInv.
  cbn [fst MOSA._iterations MOSA._archive MOSA._bestIndividuals] in *.
  split; [lia|]. split; [|split; [exact Hoptimal' | reflexivity]].
  apply updateArchive_keys_NoDup, updateArchive_keys_NoDup, Hnodup.
Qed.

Lemma searchLoop_solutionInv iterations0 fuel :
  forall st turns w st' w',
    solutionInv fitnessFunctions iterations0 st turns ->
    MOSA.searchLoop getLength fitnessFunctions env isFinished fuel st w
    = Some (st', w') ->
    exists turns', (turns <= turns' <= turns + fuel)%nat
                   /\ solutionInv fitnessFunctions iterations0 st' turns'.
Proof.
  induction fuel as [|fuel IH]; intros st turns w st' w' Hinv Hrun;
    cbn [MOSA.searchLoop] in Hrun.
  - bind_dest Hrun as finished w1 Hfinished.
    destruct finished; [|discriminate].
    injection Hrun as <- _. exists turns. split; [lia | exact Hinv].
  - bind_dest Hrun as finished w1 Hfinished. destruct finished.
    + injection Hrun as <- _. exists turns. split; [lia | exact Hinv].
    + bind_dest Hrun as st1 w2 Hturn.
      destruct (IH st1 (S turns) w2 st' w'
                  (iteration_solutionInv _ _ _ _ _ _ Hinv Hturn) Hrun)
        as (turns' & Hrange & Hinv').
      exists turns'. split; [lia | exact Hinv'].
Qed.

(** X11: what [findSolution] returns.  The list is the field
    [_bestIndividuals] after some number of turns of the loop, and
    [_iterations] has grown by that number (it is not reset by the call).
    The list holds no chromosome twice and at most as many chromosomes as
    there are fitness functions; each of them is the archive entry of a
    goal and optimal for it.  When the stopping condition holds before the
    first turn the list is empty, whatever the initial population covers;
    after at least one turn it holds every archive entry. *)
Theorem findSolution_result fuel this w best w' :
  MOSA.findSolution getLength fitnessFunctions env isFinished fuel this w
  = Some (best, w') ->
  exists st turns,
    Eff.bind (MOSA.initialise getLength fitnessFunctions env this)
             (MOSA.searchLoop getLength fitnessFunctions env isFinished fuel) w
    = Some (st, w')
    /\ best = MOSA._bestIndividuals (fst st)
    /\ (turns <= fuel)%nat
    /\ MOSA._iterations (fst st) = MOSA._iterations this + Z.of_nat turns
    /\ NoDup best
    /\ (length best <= JsMap.size fitnessFunctions)%nat
    /\ (forall c, c ∈ best ->
          exists key ff,
            JsMap.get key fitnessFunctions = Some ff
            /\ JsMap.get key (MOSA._archive (fst st)) = Some c
            /\ isOptimal ff (getFitness ff c) = true)
    /\ (turns = 0%nat -> best = [])
    /\ (turns <> 0%nat ->
        forall key c, JsMap.get key (MOSA._archive (fst st)) = Some c ->
                      c ∈ best).
Proof.
  unfold MOSA.findSolution. intros Hrun.
  bind_dest Hrun as st0 w0 Hinit. bind_dest Hrun as st w1 Hloop.
  injection Hrun as <- <-.
  assert (Hinv0 : solutionInv fitnessFunctions (MOSA._iterations this) st0 0).
  { pose proof (initialise_optimal getLength fitnessFunctions env this w st0 w0
                  Hinit) as Hoptimal.
    unfold MOSA.initialise in Hinit.
    bind_dest Hinit as parentPopulation w2 Hpopulation.
    injection Hinit as <- _. unfold solutionInv.
    cbn [fst MOSA._iterations MOSA._archive MOSA._bestIndividuals] in *.
    split; [simpl; lia|]. split; [|split; [exact Hoptimal | reflexivity]].
    apply updateArchive_keys_NoDup. constructor. }
  destruct (searchLoop_solutionInv _ fuel st0 0%nat w0 st w1 Hinv0 Hloop)
    as (turns & Hrange & Hiterations & Hnodup & Hoptimal & Hbest).
  exists st, turns.
  split; [apply bind_Some; eauto|]. split; [reflexivity|].
  split; [lia|]. split; [exact Hiterations|].
  assert (Hmember : forall c, c ∈ MOSA._bestIndividuals (fst st) ->
            exists key, JsMap.get key (MOSA._archive (fst st)) = Some c).
  { intros c Hc. rewrite Hbest in Hc. destruct turns.
    - apply elem_of_nil in Hc. contradiction.
    - apply (proj1 (distinct_elem _ _)), list_elem_of_In in Hc.
      apply JsMap_values_get; assumption. }
  split; [|split; [|split; [|split]]].
  - rewrite Hbest. destruct turns; [constructor | apply distinct_NoDup].
  - transitivity (length (JsMap.keys (MOSA._archive (fst st)))).
    + rewrite Hbest. destruct turns; [simpl; lia|].
      etransitivity; [apply distinct_length|].
      unfold JsMap.values, JsMap.keys. rewrite !length_map. reflexivity.
    + unfold JsMap.size.
      rewrite <- (length_map fst fitnessFunctions).
      apply submseteq_length, NoDup_submseteq; [exact Hnodup|].
      intros key Hkey. apply list_elem_of_In, JsMap_get_keys in Hkey.
      destruct Hkey as [c Hc]. destruct (Hoptimal key c Hc) as (ff & Hff & _).
      apply list_elem_of_In. eapply JsMap_get_In_keys. exact Hff.
  - intros c Hc. destruct (Hmember c Hc) as [key Hkey].
    destruct (Hoptimal key c Hkey) as (ff & Hff & Hopt).
    exists key, ff. auto.
  - intros ->. exact Hbest.
  - intros Hturns key c Hc. rewrite Hbest.
    destruct turns; [congruence|].
    apply (proj2 (distinct_elem _ _)), list_elem_of_In.
    eapply JsMap_get_values. exact Hc.
Qed.

End SolutionFacts.

(** ** Offspring without variation *)

Section OffspringFacts.
Context {C World : Type} `{Countable C}.
Variable env : MOSA.Collaborators C World.

Lemma Qltb_false (r p : Q) : (0 <= r)%Q -> (p <= 0)%Q -> MOSA.Qltb r p = false.
Proof.
  intros Hr Hp. unfold MOSA.Qltb.
  assert (Hle : Qle_bool p r = true).
  { apply Qle_bool_iff. eapply Qle_trans; eassumption. }
  rewrite Hle. reflexivity.
Qed.

Variable useRankSelection : bool.
Hypothesis Hdouble : forall w, (0 <= fst (MOSA.nextDouble env w))%Q.
Hypothesis Hcrossover : (MOSA.getCrossoverProbability env <= 0)%Q.
Hypothesis Hmutation : (MOSA.getMutationProbablity env <= 0)%Q.
Hypothesis Hselection :
  useRankSelection = true ->
  forall population w, population <> [] ->
    fst (MOSA.selectionOperator env population w) ∈ population.

Lemma selectChromosome_elem population w c w' :
  population <> [] ->
  MOSA.selectChromosome env population useRankSelection w = Some (c, w') ->
  c ∈ population.
Proof.
  intros Hnonempty. unfold MOSA.selectChromosome.
  destruct useRankSelection eqn:Hrank.
  - unfold Eff.lift. intros Hrun. injection Hrun as Hrun.
    pose proof (Hselection eq_refl population w Hnonempty) as Hin.
    rewrite Hrun in Hin. exact Hin.
  - intros Hrun. bind_dest Hrun as randomIndex w1 Hindex.
    destruct (randomIndex <? 0); [discriminate|].
    unfold Eff.orThrow in Hrun.
    destruct (population !! Z.to_nat randomIndex) as [c'|] eqn:Hlookup;
      [|discriminate].
    injection Hrun as <- _. eapply list_elem_of_lookup_2. exact Hlookup.
Qed.

Lemma offspringPair_elem population w child1 child2 w' :
  population <> [] ->
  MOSA.offspringPair env population useRankSelection w
  = Some ((child1, child2), w') ->
  child1 ∈ population /\ child2 ∈ population.
Proof.
  intros Hnonempty Hrun. unfold MOSA.offspringPair in Hrun.
  bind_dest Hrun as parent1 w1 Hparent1.
  bind_dest Hrun as parent2 w2 Hparent2.
  apply selectChromosome_elem in Hparent1; [|exact Hnonempty].
  apply selectChromosome_elem in Hparent2; [|exact Hnonempty].
  bind_dest Hrun as r1 w3 Hr1. unfold Eff.lift in Hr1. injection Hr1 as Hr1.
  pose proof (Hdouble w2) as Hge1. rewrite Hr1 in Hge1.
  rewrite (Qltb_false r1 _ Hge1 Hcrossover) in Hrun.
  bind_dest Hrun as children w4 Hchildren.
  unfold Eff.ret in Hchildren. injection Hchildren as <- <-.
  bind_dest Hrun as r2 w5 Hr2. unfold Eff.lift in Hr2. injection Hr2 as Hr2.
  pose proof (Hdouble w3) as Hge2. rewrite Hr2 in Hge2.
  rewrite (Qltb_false r2 _ Hge2 Hmutation) in Hrun.
  bind_dest Hrun as c1 w6 Hc1. unfold Eff.ret in Hc1. injection Hc1 as <- <-.
  bind_dest Hrun as r3 w7 Hr3. unfold Eff.lift in Hr3. injection Hr3 as Hr3.
  pose proof (Hdouble w5) as Hge3. rewrite Hr3 in Hge3.
  rewrite (Qltb_false r3 _ Hge3 Hmutation) in Hrun.
  bind_dest Hrun as c2 w8 Hc2. unfold Eff.ret in Hc2. injection Hc2 as <- <-.
  unfold Eff.ret in Hrun. injection Hrun as <- <- _. auto.
Qed.

Lemma offspringLoop_elem remaining population :
  population <> [] ->
  forall offspringPopulation w result w',
    MOSA.offspringLoop env remaining population useRankSelection
      offspringPopulation w = Some (result, w') ->
    forall c, c ∈ result -> c ∈ offspringPopulation \/ c ∈ population.
Proof.
  intros Hnonempty.
  induction remaining as [remaining IH] using lt_wf_ind.
  intros offspringPopulation w result w' Hrun c Hc.
  destruct remaining as [|[|remaining]]; simpl in Hrun.
  - injection Hrun as <- _. auto.
  - bind_dest Hrun as children w1 Hpair. destruct children as [child1 child2].
    apply offspringPair_elem in Hpair; [|exact Hnonempty].
    injection Hrun as <- _. apply elem_of_app in Hc.
    destruct Hc as [Hc|Hc]; [auto|].
    apply list_elem_of_singleton in Hc. subst c. tauto.
  - bind_dest Hrun as children w1 Hpair. destruct children as [child1 child2].
    apply offspringPair_elem in Hpair; [|exact Hnonempty].
    destruct (IH remaining ltac:(lia) _ _ _ _ Hrun c Hc) as [Hin|Hin]; [|auto].
    rewrite !elem_of_app, !list_elem_of_singleton in Hin.
    destruct Hin as [[Hin| ->]| ->]; tauto.
Qed.

(** X12: with a crossover and a mutation probability of 0 (or less), draws
    of [nextDouble] that are not negative and a selection operator that
    picks from its list, every chromosome of the offspring population is
    one of the parent objects itself: the offspring are as many as the
    parents and hold references to the parents, not copies. *)
Theorem offspring_without_variation parentPopulation w offspringPopulation w' :
  MOSA.generateOffspringPopulation env parentPopulation useRankSelection w
  = Some (offspringPopulation, w') ->
  length offspringPopulation = length parentPopulation
  /\ forall c, c ∈ offspringPopulation -> c ∈ parentPopulation.
Proof.
  intros Hrun.
  split; [eapply generateOffspringPopulation_length; exact Hrun|].
  unfold MOSA.generateOffspringPopulation in Hrun.
  destruct parentPopulation as [|p parentPopulation].
  - simpl in Hrun. injection Hrun as <- _. auto.
  - intros c Hc.
    destruct (offspringLoop_elem _ (p :: parentPopulation) ltac:(discriminate)
                _ _ _ _ Hrun c Hc) as [Hin|Hin]; [|exact Hin].
    apply elem_of_nil in Hin. contradiction.
Qed.

End OffspringFacts.

(** ** Sub-vector dominance sorting *)

Lemma insertByKey_sorted {A} (key : A -> Z) x l :
  StronglySorted (fun a b => key a <= key b) l ->
  StronglySorted (fun a b => key a <= key b) (MOSA.insertByKey key x l).
Proof.
  induction 1 as [|y l Hsorted IH Hall]; simpl.
  - constructor; constructor.
  - destruct (Z.ltb_spec (key y) (key x)) as [Hlt|Hge].
    + constructor; [exact IH|].
      apply Forall_forall. intros z Hz.
      apply list_elem_of_In in Hz.
      apply (Permutation_in _ (insertByKey_Permutation key x l)) in Hz.
      destruct Hz as [<-|Hz]; [lia|].
      rewrite Forall_forall in Hall. apply Hall, list_elem_of_In, Hz.
    + constructor; [constructor; assumption|].
      constructor; [exact Hge|].
      eapply Forall_impl; [exact Hall|]. simpl. intros z Hz. lia.
Qed.

Lemma sortByKey_sorted {A} (key : A -> Z) l :
  StronglySorted (fun a b => key a <= key b) (MOSA.sortByKey key l).
Proof.
  induction l as [|x l IH]; [constructor|].
  unfold MOSA.sortByKey in *. simpl. apply insertByKey_sorted, IH.
Qed.

Section SubVectorDominance.
Context {C number World : Type} `{Countable C}.
Variable fitnessFunctions : JsMap.t (FitnessFunction C number).
Variable env : MOSA.Collaborators C World.

#[local] Abbreviation svd := (MOSA.calculateSVD fitnessFunctions).

Lemma calculateSVD_bounds chromosome1 chromosome2 :
  0 <= svd chromosome1 chromosome2 <= Z.of_nat (JsMap.size fitnessFunctions).
Proof.
  unfold MOSA.calculateSVD, JsMap.size, JsMap.values.
  rewrite <- (length_map snd fitnessFunctions).
  generalize (map snd fitnessFunctions) as ffs. intros ffs.
  assert (Hgen : forall n,
    n <= foldl (fun svd (fitnessFunction : FitnessFunction C number) =>
                  if compare fitnessFunction
                       (getFitness fitnessFunction chromosome1)
                       (getFitness fitnessFunction chromosome2) <? 0
                  then svd + 1 else svd) n ffs
      <= n + Z.of_nat (length ffs)).
  { induction ffs as [|ff ffs IH]; intros n; [simpl; lia|].
    cbn [foldl length].
    destruct (compare ff (getFitness ff chromosome1) (getFitness ff chromosome2)
              <? 0).
    - specialize (IH (n + 1)). lia.
    - specialize (IH n). lia. }
  specialize (Hgen 0). lia.
Qed.


#[local] Abbreviation inner chromosome1 :=
  (foldl (fun (distances : gmap C Z) chromosome2 =>
            if decide (chromosome1 <> chromosome2) then
              if default 0 (distances !! chromosome1)
                 <? MOSA.calculateSVD fitnessFunctions chromosome1 chromosome2
              then <[chromosome1 :=
                       MOSA.calculateSVD fitnessFunctions
                         chromosome1 chromosome2]> distances
              else distances
            else distances)).

Lemma svdInner_spec chromosome1 qs :
  forall (distances : gmap C Z) m,
    distances !! chromosome1 = Some m ->
    exists m',
      inner chromosome1 distances qs = <[chromosome1 := m']> distances
      /\ m <= m'
      /\ (forall c2, c2 ∈ qs -> c2 <> chromosome1 -> svd chromosome1 c2 <= m')
      /\ (m' = m
          \/ exists c2, c2 ∈ qs /\ c2 <> chromosome1
                        /\ m' = svd chromosome1 c2).
Proof.
  induction qs as [|q qs IH]; intros distances m Hm.
  - exists m. simpl. rewrite insert_id by exact Hm.
    split; [reflexivity|]. split; [lia|]. split; [|auto].
    intros c2 Hc2. apply elem_of_nil in Hc2. contradiction.
  - cbn [foldl]. destruct (decide (chromosome1 <> q)) as [Hne|Heq].
    + rewrite Hm. cbn [default from_option id].
      destruct (Z.ltb_spec m (svd chromosome1 q)) as [Hlt|Hge].
      * destruct (IH (<[chromosome1 := svd chromosome1 q]> distances)
                     (svd chromosome1 q))
          as (m' & Hrun & Hle & Hbound & Hattained);
          [apply lookup_insert_eq|].
        exists m'. rewrite Hrun, insert_insert_eq.
        split; [reflexivity|]. split; [lia|]. split.
        -- intros c2 Hc2 Hc2ne. apply elem_of_cons in Hc2.
           destruct Hc2 as [->|Hc2]; [lia | auto].
        -- right. destruct Hattained as [->|(c2 & Hc2 & Hc2ne & ->)].
           ++ exists q. split; [left|]. split; [congruence | reflexivity].
           ++ exists c2. split; [right; exact Hc2 | auto].
      * destruct (IH distances m Hm) as (m' & Hrun & Hle & Hbound & Hattained).
        exists m'. split; [exact Hrun|]. split; [exact Hle|]. split.
        -- intros c2 Hc2 Hc2ne. apply elem_of_cons in Hc2.
           destruct Hc2 as [->|Hc2]; [lia | auto].
        -- destruct Hattained as [->|(c2 & Hc2 & Hc2ne & ->)]; [auto|].
           right. exists c2. split; [right; exact Hc2 | auto].
    + destruct (IH distances m Hm) as (m' & Hrun & Hle & Hbound & Hattained).
      exists m'. split; [exact Hrun|]. split; [exact Hle|]. split.
      * intros c2 Hc2 Hc2ne. apply elem_of_cons in Hc2.
        destruct Hc2 as [->|Hc2]; [|auto].
        exfalso. apply Heq. congruence.
      * destruct Hattained as [->|(c2 & Hc2 & Hc2ne & ->)]; [auto|].
        right. exists c2. split; [right; exact Hc2 | auto].
Qed.

Lemma svdOuter_spec front ps :
  forall distances : gmap C Z,
    let result :=
      foldl (fun distances chromosome1 =>
               inner chromosome1 (<[chromosome1 := 0]> distances) front)
            distances ps in
    (forall c, c ∈ ps ->
       exists d, result !! c = Some d /\ 0 <= d /\ largestSVD fitnessFunctions front c d)
    /\ (forall c, c ∉ ps -> result !! c = distances !! c).
Proof.
  induction ps as [|p ps IH]; intros distances; cbn zeta.
  - split; [|reflexivity].
    intros c Hc. apply elem_of_nil in Hc. contradiction.
  - cbn [foldl].
    destruct (svdInner_spec p front (<[p := 0]> distances) 0)
      as (m & Hrun & Hle & Hbound & Hattained); [apply lookup_insert_eq|].
    rewrite Hrun, insert_insert_eq.
    destruct (IH (<[p := m]> distances)) as [Hin Hout].
    cbn zeta in Hin, Hout. split.
    + intros c Hc. destruct (decide (c ∈ ps)) as [Hps|Hnps]; [auto|].
      apply elem_of_cons in Hc. destruct Hc as [->|Hc]; [|contradiction].
      exists m. rewrite (Hout p Hnps), lookup_insert_eq.
      split; [reflexivity|]. split; [exact Hle|]. split; [exact Hbound|].
      destruct Hattained as [->|Hattained]; auto.
    + intros c Hc. apply not_elem_of_cons in Hc. destruct Hc as [Hne Hnps].
      rewrite (Hout c Hnps). apply lookup_insert_ne. congruence.
Qed.

(** X14: the distance that [subVectorDominanceSorting] computes for a
    chromosome of the front is the largest [calculateSVD] of the
    chromosome against the other chromosomes of the front (0 when there is
    none); it lies between 0 and the number of fitness functions. *)
Theorem svdDistances_largest (front : list C) (c : C) :
  c ∈ front ->
  exists d,
    MOSA.svdDistances fitnessFunctions front !! c = Some d
    /\ 0 <= d <= Z.of_nat (JsMap.size fitnessFunctions)
    /\ largestSVD fitnessFunctions front c d.
Proof.
  intros Hc. unfold MOSA.svdDistances.
  destruct (svdOuter_spec front front ∅) as [Hin _]. cbn zeta in Hin.
  destruct (Hin c Hc) as (d & Hd & Hge & Hlargest).
  exists d. split; [exact Hd|]. split; [|exact Hlargest].
  split; [exact Hge|].
  destruct Hlargest as [_ [->|(c2 & _ & _ & ->)]].
  - lia.
  - apply calculateSVD_bounds.
Qed.

Hypothesis Hshuffle :
  forall l w, Permutation (fst (MOSA.shuffle env l w)) l.

(** X13: [subVectorDominanceSorting] returns the chromosomes of the front,
    each as often as the front holds it, in ascending order of their
    distances; the only effect on the world is the one call of
    [shuffle].  [shuffle] is taken to permute its list. *)
Theorem subVectorDominanceSorting_ascending front w sorted w' :
  MOSA.subVectorDominanceSorting fitnessFunctions env front w
  = Some (sorted, w') ->
  sorted ≡ₚ front
  /\ StronglySorted
       (fun a b =>
          default 0 (MOSA.svdDistances fitnessFunctions front !! a)
          <= default 0 (MOSA.svdDistances fitnessFunctions front !! b))
       sorted
  /\ w' = snd (MOSA.shuffle env front w).
Proof.
  unfold MOSA.subVectorDominanceSorting. intros Hrun.
  bind_dest Hrun as shuffled w1 Hshuffled. injection Hrun as <- <-.
  unfold Eff.lift in Hshuffled. injection Hshuffled as Heq.
  pose proof (Hshuffle front w) as Hperm. rewrite Heq in Hperm.
  split; [rewrite sortByKey_Permutation; exact Hperm|].
  split; [|rewrite Heq; reflexivity].
  apply (sortByKey_sorted
           (fun c => default 0 (MOSA.svdDistances fitnessFunctions front !! c))).
Qed.

End SubVectorDominance.

(** ** The bookkeeping of random search *)

Section RandomSearchBookkeeping.
Context {TestChromosome Goal World : Type} `{EqDecision Goal}.
Variable isCovered : Goal -> TestChromosome -> bool.
Variable _extractCoverageGoals : JsMap.t Goal.
Variable now : World -> Z * World.
Variable chromosomeGenerator : World -> TestChromosome * World.
Variable isFinished :
  RandomTestGenerator.Fields TestChromosome Goal -> World -> bool * World.

#[local] Abbreviation keepStep := (RandomTestGenerator.keepStep isCovered).
#[local] Abbreviation turnWith := (RandomTestGenerator.turnWith isCovered).


Lemma advancedBy_refl (st : RandomTestGenerator.LoopState TestChromosome Goal) :
  advancedBy 0 [] st st.
Proof.
  unfold advancedBy. rewrite !app_nil_r. simpl. repeat split; lia.
Qed.

Lemma advancedBy_trans n1 n2 kept1 kept2
    (st1 st2 st3 : RandomTestGenerator.LoopState TestChromosome Goal) :
  advancedBy n1 kept1 st1 st2 -> advancedBy n2 kept2 st2 st3 ->
  advancedBy (n1 + n2) (kept1 ++ kept2) st1 st3.
Proof.
  unfold advancedBy.
  intros (H1 & H2 & H3 & H4 & H5 & H6 & H7 & H8 & H9)
         (K1 & K2 & K3 & K4 & K5 & K6 & K7 & K8 & K9).
  rewrite K1, K2, K3, K4, K5, K6, K7, K8, K9.
  rewrite H1, H2, H3, H4, H5, H6, H7, H8, H9.
  rewrite length_app, !app_assoc. repeat split; lia.
Qed.

Lemma keepLoop_advancedBy c gs st coveredGoals :
  advancedBy 0 (map (fun _ => c) (filter (fun g => isCovered g c = true) gs))
    st (fst (foldl (keepStep c) (st, coveredGoals) gs)).
Proof.
  revert st coveredGoals. induction gs as [|g gs IH]; intros st coveredGoals.
  - apply advancedBy_refl.
  - cbn [foldl]. rewrite filter_cons.
    unfold RandomTestGenerator.keepStep at 2.
    destruct (isCovered g c) eqn:Hg.
    + rewrite decide_True by reflexivity.
      match goal with |- context [foldl _ (?s, ?cg) gs] =>
        pose proof (IH s cg) as Hrest end.
      refine (advancedBy_trans 0 0 [c] _ _ _ _ _ Hrest).
      unfold advancedBy. simpl. rewrite map_app. simpl.
      repeat split; lia.
    + rewrite decide_False by discriminate. apply IH.
Qed.

Lemma turnWith_advancedBy c st :
  advancedBy 1
    (map (fun _ => c)
         (filter (fun g => isCovered g c = true)
                 (RandomTestGenerator.uncoveredGoals st)))
    st (turnWith c st).
Proof.
  unfold RandomTestGenerator.turnWith.
  cbn [RandomTestGenerator.uncoveredGoals].
  match goal with |- context [foldl _ (?s, []) ?gs] =>
    pose proof (keepLoop_advancedBy c gs s []) as Hkeep;
    destruct (foldl (keepStep c) (s, []) gs) as [st' coveredGoals] end.
  cbn [fst] in Hkeep.
  match type of Hkeep with advancedBy _ ?kept ?s _ =>
    assert (Hfirst : advancedBy 1 [] st s) end.
  { unfold advancedBy. simpl. rewrite !app_nil_r. repeat split; lia. }
  pose proof (advancedBy_trans _ _ _ _ _ _ _ Hfirst Hkeep) as Hboth.
  simpl in Hboth. exact Hboth.
Qed.

Lemma turns_advancedBy cs st :
  advancedBy (length cs)
    (suiteOf isCovered (RandomTestGenerator.uncoveredGoals st) cs)
    st (foldl (fun st c => turnWith c st) st cs).
Proof.
  revert st. induction cs as [|c cs IH]; intros st.
  - apply advancedBy_refl.
  - cbn [foldl suiteOf length].
    pose proof (turnWith_advancedBy c st) as Hturn.
    pose proof (IH (turnWith c st)) as Hrest.
    rewrite (proj2 (turnWith_spec isCovered c st)) in Hrest.
    exact (advancedBy_trans _ _ _ _ _ _ _ Hturn Hrest).
Qed.

(** X15: the fields and statistics that [generateTests] leaves behind.
    [_iterations] and the iteration count of the statistics have grown by
    the number of turns of the loop; the tests of the suite are appended to
    [_tests], which is not cleared; the count of covered fitness functions
    has grown by the size of the suite; [createdTestsCount] is set to
    [_iterations + 1], whatever the size of the suite; [_fitnessFunctions]
    and the fitness function count are those of the extracted goals; the
    start time is the clock at the call. *)
Theorem generateTests_bookkeeping fuel self stats w result w' :
  RandomTestGenerator.generateTests isCovered _extractCoverageGoals now
    chromosomeGenerator isFinished fuel self stats w = Some (result, w') ->
  let this := RandomTestGenerator.this result in
  let statistics := RandomTestGenerator.statistics result in
  let suite := map RandomTestGenerator.chromosome
                   (RandomTestGenerator.testSuite result) in
  exists turns : nat,
    (turns <= fuel)%nat
    /\ RandomTestGenerator._iterations this
       = RandomTestGenerator._iterations self + Z.of_nat turns
    /\ RandomTestGenerator._tests this
       = RandomTestGenerator._tests self ++ suite
    /\ RandomTestGenerator._fitnessFunctions this = _extractCoverageGoals
    /\ RandomTestGenerator._startTime this = fst (now w)
    /\ RandomTestGenerator.fitnessFunctionCount statistics
       = Z.of_nat (JsMap.size _extractCoverageGoals)
    /\ RandomTestGenerator.iterationCount statistics
       = RandomTestGenerator.iterationCount stats + Z.of_nat turns
    /\ RandomTestGenerator.coveredFitnessFunctionCount statistics
       = RandomTestGenerator.coveredFitnessFunctionCount stats
         + Z.of_nat (length suite)
    /\ RandomTestGenerator.createdTestsCount statistics
       = RandomTestGenerator._iterations self + Z.of_nat turns + 1.
Proof.
  intros Hrun. unfold RandomTestGenerator.generateTests in Hrun.
  bind_dest Hrun as st0 w0 Hstart. bind_dest Hrun as st1 w1 Hloop.
  injection Hrun as <- _.
  unfold RandomTestGenerator.start in Hstart.
  bind_dest Hstart as startTime w2 Hnow. injection Hstart as <- _.
  unfold Eff.lift in Hnow. injection Hnow as Hnow.
  destruct (searchLoop_turns _ _ _ _ _ _ _ _ Hloop) as (generated & -> & Hlen).
  match goal with |- context [foldl _ ?s generated] =>
    pose proof (turns_advancedBy generated s)
      as (H1 & H2 & H3 & H4 & H5 & H6 & H7 & H8 & H9) end.
  cbn [RandomTestGenerator.this RandomTestGenerator.statistics
       RandomTestGenerator.testSuite RandomTestGenerator.uncoveredGoals
       RandomTestGenerator._startTime RandomTestGenerator._iterations
       RandomTestGenerator._tests RandomTestGenerator._fitnessFunctions
       RandomTestGenerator.fitnessFunctionCount
       RandomTestGenerator.iterationCount
       RandomTestGenerator.coveredFitnessFunctionCount
       RandomTestGenerator.createdTestsCount map app] in *.
  exists (length generated). rewrite H5.
  split; [exact Hlen|]. split; [exact H3|]. split; [exact H4|].
  split; [exact H2|]. split; [rewrite H1, Hnow; reflexivity|].
  split; [exact H6|]. split; [exact H7|]. split; [exact H8|].
  rewrite H3. reflexivity.
Qed.

End RandomSearchBookkeeping.

Section RandomSearchCoverage.
Context {TestChromosome Goal World : Type} `{EqDecision Goal}.
Variable isCovered : Goal -> TestChromosome -> bool.
Variable _extractCoverageGoals : JsMap.t Goal.
Variable now : World -> Z * World.
Variable chromosomeGenerator : World -> TestChromosome * World.
Variable isFinished :
  RandomTestGenerator.Fields TestChromosome Goal -> World -> bool * World.

Lemma uncoveredAfter_elem (uncovered : list Goal) cs g :
  g ∈ uncoveredAfter isCovered uncovered cs
  <-> g ∈ uncovered /\ forall c, c ∈ cs -> isCovered g c = false.
Proof.
  revert uncovered. induction cs as [|c cs IH]; intros uncovered; simpl.
  - split; [|tauto]. intros Hg. split; [exact Hg|].
    intros c Hc. apply elem_of_nil in Hc. contradiction.
  - rewrite IH, list_elem_of_filter. split.
    + intros [[Hc Hg] Hcs]. split; [exact Hg|].
      intros c' Hc'. apply elem_of_cons in Hc'.
      destruct Hc' as [->|Hc']; auto.
    + intros [Hg Hall]. split; [split; [|exact Hg]|].
      * apply Hall. left.
      * intros c' Hc'. apply Hall. right. exact Hc'.
Qed.

Lemma uncoveredAfter_sublist (uncovered : list Goal) cs :
  sublist (uncoveredAfter isCovered uncovered cs) uncovered.
Proof.
  revert uncovered. induction cs as [|c cs IH]; intros uncovered; simpl.
  - reflexivity.
  - etransitivity; [apply IH | apply sublist_filter].
Qed.

Lemma suiteOf_generated (uncovered : list Goal) cs t :
  t ∈ suiteOf isCovered uncovered cs -> t ∈ cs.
Proof.
  revert uncovered. induction cs as [|c cs IH]; intros uncovered; simpl.
  - auto.
  - rewrite elem_of_app. intros [Ht|Ht].
    + apply list_elem_of_fmap in Ht. destruct Ht as (g & -> & _). left.
    + right. eapply IH. exact Ht.
Qed.

Lemma suiteOf_covers (uncovered : list Goal) cs g :
  g ∈ uncovered ->
  g ∈ uncoveredAfter isCovered uncovered cs
  \/ exists t, t ∈ suiteOf isCovered uncovered cs /\ isCovered g t = true.
Proof.
  revert uncovered. induction cs as [|c cs IH]; intros uncovered Hg; simpl.
  - auto.
  - destruct (isCovered g c) eqn:Hc.
    + right. exists c. split; [|exact Hc].
      apply elem_of_app. left. apply list_elem_of_fmap. exists g.
      split; [reflexivity|]. apply list_elem_of_filter. auto.
    + destruct (IH (filter (fun g => isCovered g c = false) uncovered))
        as [Hleft|(t & Ht & Hcov)].
      * apply list_elem_of_filter. auto.
      * auto.
      * right. exists t. split; [|exact Hcov].
        apply elem_of_app. right. exact Ht.
Qed.

(** X16: when [generateTests] returns, the goals still uncovered are, in
    the order of the extracted goals, exactly the goals that no test of
    the returned suite covers: a goal leaves the list only for a test that
    is added to the suite. *)
Theorem generateTests_uncovered_goals fuel self stats w result w' :
  RandomTestGenerator.generateTests isCovered _extractCoverageGoals now
    chromosomeGenerator isFinished fuel self stats w = Some (result, w') ->
  let goals := JsMap.values _extractCoverageGoals in
  let suite := map RandomTestGenerator.chromosome
                   (RandomTestGenerator.testSuite result) in
  sublist (RandomTestGenerator.uncoveredGoals result) goals
  /\ forall g,
       g ∈ RandomTestGenerator.uncoveredGoals result
       <-> g ∈ goals /\ forall t, t ∈ suite -> isCovered g t = false.
Proof.
  intros Hrun goals suite.
  assert (Hshape : exists generated,
            suite = suiteOf isCovered goals generated
            /\ RandomTestGenerator.uncoveredGoals result
               = uncoveredAfter isCovered goals generated).
  { unfold RandomTestGenerator.generateTests in Hrun.
    bind_dest Hrun as st0 w0 Hstart. bind_dest Hrun as st1 w1 Hloop.
    injection Hrun as <- _.
    unfold RandomTestGenerator.start in Hstart.
    bind_dest Hstart as startTime w2 Hnow. injection Hstart as <- _.
    destruct (searchLoop_turns _ _ _ _ _ _ _ _ Hloop) as (generated & -> & _).
    match goal with |- context [foldl _ ?s generated] =>
      destruct (turns_spec isCovered generated s) as [Hsuite Hunc] end.
    cbn zeta in Hsuite, Hunc.
    cbn [RandomTestGenerator.testSuite RandomTestGenerator.uncoveredGoals map app]
      in Hsuite, Hunc.
    exists generated. subst suite goals.
    cbn [RandomTestGenerator.testSuite RandomTestGenerator.uncoveredGoals].
    auto. }
  destruct Hshape as (generated & Hsuite & Hunc). rewrite Hunc, Hsuite.
  split; [apply uncoveredAfter_sublist|].
  intros g. split.
  - intros Hg. apply uncoveredAfter_elem in Hg. destruct Hg as [Hg Hall].
    split; [exact Hg|]. intros t Ht. apply Hall.
    eapply suiteOf_generated. exact Ht.
  - intros [Hg Hall].
    destruct (suiteOf_covers goals generated g Hg) as [Hin|(t & Ht & Hcov)];
      [exact Hin|].
    rewrite (Hall t Ht) in Hcov. discriminate.
Qed.

End RandomSearchCoverage.

(** ** Parsing the stopping condition *)

Lemma value_induction (P : Js.value -> Prop) :
  P Js.VUndefined -> P Js.VNull ->
  (forall b, P (Js.VBool b)) -> (forall q, P (Js.VNum q)) ->
  (forall s, P (Js.VStr s)) ->
  (forall elements, Forall P elements -> P (Js.VArr elements)) ->
  (forall properties, Forall (fun kv => P (snd kv)) properties ->
                      P (Js.VObj properties)) ->
  forall v, P v.
Proof.
  intros Hundefined Hnull Hbool Hnum Hstr Harr Hobj.
  fix IH 1. intros [ | | b | q | s | elements | properties].
  - exact Hundefined.
  - exact Hnull.
  - apply Hbool.
  - apply Hnum.
  - apply Hstr.
  - apply Harr.
    exact ((fix each (l : list Js.value) : Forall P l :=
              match l with
              | [] => ltac:(constructor)
              | x :: l' => ltac:(constructor; [exact (IH x) | exact (each l')])
              end) elements).
  - apply Hobj.
    exact ((fix each (l : list (string * Js.value))
              : Forall (fun kv => P (snd kv)) l :=
              match l with
              | [] => ltac:(constructor)
              | kv :: l' =>
                  ltac:(constructor; [exact (IH (snd kv)) | exact (each l')])
              end) properties).
Qed.

Section StoppingConditionFacts.
Import Exn WhiskerSearchConfiguration.

(** A value is loosely equal to at most one of the literals. *)
Lemma looseEqStr_unique v s s' :
  Js.looseEqStr v s = true -> Js.looseEqStr v s' = true -> s = s'.
Proof.
  induction v as [ | | b | q | s0 | elements IH | properties _]
    using value_induction; try discriminate.
  - simpl. intros H1 H2. apply String.eqb_eq in H1, H2. congruence.
  - destruct elements as [|x [|y elements]]; try discriminate.
    simpl. apply Forall_cons in IH. destruct IH as [IH _]. exact IH.
Qed.

Lemma eachCondition_spec cs :
  forall l,
    (fix each (cs : list Js.value) (l : list StoppingCondition)
       : R StoppingCondition :=
       match cs with
       | [] => ok (OneOfStoppingCondition l)
       | c :: cs' =>
           match _getStoppingCondition c with
           | inl e => inl e
           | inr sc => each cs' (l ++ [sc])
           end
       end) cs l
    = (l' <~ parseAll _getStoppingCondition cs ;;
       ok (OneOfStoppingCondition (l ++ l'))).
Proof.
  induction cs as [|c cs IH]; intros l.
  - simpl. rewrite app_nil_r. reflexivity.
  - cbn [parseAll]. unfold bind at 1 2.
    destruct (_getStoppingCondition c) as [e|sc]; [reflexivity|].
    rewrite IH. unfold bind.
    destruct (parseAll _getStoppingCondition cs) as [e|l']; [reflexivity|].
    unfold ok. rewrite <- app_assoc. reflexivity.
Qed.

(** X17: a stopping condition whose [type] is loosely equal to ["one-of"]
    and whose [conditions] are an array is parsed element by element, in
    order: the result is the [OneOfStoppingCondition] of the parsed
    elements, and the error of the first element that fails otherwise. *)
Theorem stopping_condition_one_of properties conditions :
  Js.looseEqStr (Js.lookup "type" properties) "one-of" = true ->
  Js.lookup "conditions" properties = Js.VArr conditions ->
  _getStoppingCondition (Js.VObj properties)
  = (l <~ parseAll _getStoppingCondition conditions ;;
     ok (OneOfStoppingCondition l)).
Proof.
  intros Htype Hconditions. cbn [_getStoppingCondition].
  assert (Hother : forall s, s <> "one-of" ->
            Js.looseEqStr (Js.lookup "type" properties) s = false).
  { intros s Hs.
    destruct (Js.looseEqStr (Js.lookup "type" properties) s) eqn:Heq;
      [|reflexivity].
    exfalso. apply Hs. eapply looseEqStr_unique; eassumption. }
  rewrite !Hother by discriminate. rewrite Htype. clear Htype Hother.
  induction properties as [|[k v] properties IH]; [discriminate|].
  simpl in Hconditions.
  destruct (String.eqb k "conditions").
  - subst v. apply (eachCondition_spec conditions []).
  - apply IH, Hconditions.
Qed.

(** The errors of [_getStoppingCondition]. *)
Lemma stopping_condition_errors_deep v :
  (forall e, _getStoppingCondition v = inl e ->
     e = TypeError \/ e = ConfigException "No stopping condition given")
  /\ (forall cs, v = Js.VArr cs ->
        Forall (fun c => forall e, _getStoppingCondition c = inl e ->
                  e = TypeError
                  \/ e = ConfigException "No stopping condition given") cs).
Proof.
  induction v as [ | | b | q | s | elements IH | properties IH]
    using value_induction;
    try (split; [intros e [= <-]; auto | intros cs; discriminate]).
  - split; [intros e [= <-]; auto|].
    intros cs [= <-]. eapply Forall_impl; [exact IH|].
    intros c [Hc _]. exact Hc.
  - split; [|intros cs; discriminate].
    intros e. cbn [_getStoppingCondition].
    repeat match goal with
           | |- context [if ?b then _ else _] => destruct b
           end; try (intros [= <-]; auto; fail).
    induction properties as [|[k v] properties IHp]; [intros [= <-]; auto|].
    apply Forall_cons in IH. destruct IH as [[_ Hdeep] IH]. simpl in Hdeep.
    destruct (String.eqb k "conditions"); [|apply IHp, IH].
    destruct v as [ | | b | q | s | cs | ps];
      try (intros [= <-]; auto; fail).
    + destruct s; intros [= <-]; auto.
    + specialize (Hdeep cs eq_refl). rewrite eachCondition_spec.
      unfold bind. clear IHp IH.
      assert (Hall : forall e', parseAll _getStoppingCondition cs = inl e' ->
                e' = TypeError
                \/ e' = ConfigException "No stopping condition given").
      { induction cs as [|c cs IHcs]; [discriminate|].
        apply Forall_cons in Hdeep. destruct Hdeep as [Hc Hcs].
        cbn [parseAll]. unfold bind.
        destruct (_getStoppingCondition c) as [e0|sc] eqn:Hparse.
        - intros e' [= <-]. apply Hc. reflexivity.
        - destruct (parseAll _getStoppingCondition cs) as [e0|l] eqn:Hrest.
          + intros e' [= <-]. apply IHcs; [exact Hcs | reflexivity].
          + discriminate. }
      destruct (parseAll _getStoppingCondition cs) as [e0|l];
        [|discriminate].
      intros [= <-]. apply Hall. reflexivity.
Qed.

End StoppingConditionFacts.

(** ** The search properties of a configuration *)

Section PropertiesFacts.
Import Exn WhiskerSearchConfiguration.

#[local] Abbreviation propOf v k :=
  (match v with Js.VObj properties => Js.lookup k properties
              | _ => Js.VUndefined end).

Lemma getProp_nullish v k :
  getProp v k = if nullish v then inl TypeError else inr (propOf v k).
Proof. destruct v; reflexivity. Qed.

(** X18: [_getStoppingCondition] fails in two ways only, at any depth of
    nested one-of conditions: with a [TypeError] (a condition that is
    [undefined] or [null], or conditions of a one-of that cannot be
    iterated) or with the [ConfigException] "No stopping condition
    given". *)
Theorem stopping_condition_errors v e :
  _getStoppingCondition v = inl e ->
  e = TypeError \/ e = ConfigException "No stopping condition given".
Proof. apply (proj1 (stopping_condition_errors_deep v)). Qed.

Lemma getSearchAlgorithmProperties_errors (dict : Dict) e :
  getSearchAlgorithmProperties dict = inl e ->
  e = TypeError \/ e = ConfigException "No stopping condition given".
Proof.
  pose proof (proj1 (stopping_condition_errors_deep
                       (Js.lookup "stopping-condition" dict))) as Herrors.
  unfold getSearchAlgorithmProperties. rewrite !getProp_nullish.
  destruct (nullish (Js.lookup "crossover" dict));
    cbn [bind]; [intros [= <-]; auto|].
  destruct (nullish (Js.lookup "mutation" dict));
    cbn [bind]; [intros [= <-]; auto|].
  destruct (nullish (Js.lookup "selection" dict));
    cbn [bind]; [intros [= <-]; auto|].
  destruct (nullish (Js.lookup "archive" dict));
    cbn [bind]; [intros [= <-]; auto|].
  destruct (_getStoppingCondition (Js.lookup "stopping-condition" dict))
    as [e0|sc0]; [intros [= <-]; auto|].
  destruct (Js.hasKey "integerRange" dict); cbn [bind]; [|discriminate].
  destruct (nullish (Js.lookup "integerRange" dict));
    cbn [bind]; [intros [= <-]; auto | discriminate].
Qed.

(** X19: [getSearchAlgorithmProperties] succeeds exactly when the
    sub-dictionaries [crossover], [mutation], [selection] and [archive] are
    neither [undefined] nor [null], the stopping condition parses, and
    [integerRange], if the key is present, is neither [undefined] nor
    [null].  No other key is required or checked: the population size and
    the chromosome length are the values found, [undefined] when absent;
    the integer range is set exactly when the key is present.  A failure
    is a [TypeError] or the [ConfigException] of the stopping
    condition. *)
Theorem getSearchAlgorithmProperties_outcome (dict : Dict) :
  let required :=
    nullish (Js.lookup "crossover" dict) = false
    /\ nullish (Js.lookup "mutation" dict) = false
    /\ nullish (Js.lookup "selection" dict) = false
    /\ nullish (Js.lookup "archive" dict) = false
    /\ (Js.hasKey "integerRange" dict = true ->
        nullish (Js.lookup "integerRange" dict) = false) in
  (forall properties,
      getSearchAlgorithmProperties dict = inr properties ->
      required
      /\ _getStoppingCondition (Js.lookup "stopping-condition" dict)
         = inr (stoppingCondition properties)
      /\ populationSize properties = Js.lookup "population-size" dict
      /\ chromosomeLength properties = Js.lookup "chromosome-length" dict
      /\ (intRange properties = None
          <-> Js.hasKey "integerRange" dict = false))
  /\ (forall sc,
         required ->
         _getStoppingCondition (Js.lookup "stopping-condition" dict) = inr sc ->
         exists properties, getSearchAlgorithmProperties dict = inr properties)
  /\ (forall e,
         getSearchAlgorithmProperties dict = inl e ->
         e = TypeError \/ e = ConfigException "No stopping condition given").
Proof.
  intros required. subst required.
  pose proof (proj1 (stopping_condition_errors_deep
                       (Js.lookup "stopping-condition" dict))) as Herrors.
  unfold getSearchAlgorithmProperties. rewrite !getProp_nullish.
  destruct (nullish (Js.lookup "crossover" dict));
    [cbn [bind]; split; [discriminate|]; split;
       [intros sc (? & _); discriminate | intros e [= <-]; auto]|].
  destruct (nullish (Js.lookup "mutation" dict));
    [cbn [bind]; split; [discriminate|]; split;
       [intros sc (_ & ? & _); discriminate | intros e [= <-]; auto]|].
  destruct (nullish (Js.lookup "selection" dict));
    [cbn [bind]; split; [discriminate|]; split;
       [intros sc (_ & _ & ? & _); discriminate | intros e [= <-]; auto]|].
  destruct (nullish (Js.lookup "archive" dict));
    [cbn [bind]; split; [discriminate|]; split;
       [intros sc (_ & _ & _ & ? & _); discriminate | intros e [= <-]; auto]|].
  cbn [bind].
  destruct (_getStoppingCondition (Js.lookup "stopping-condition" dict))
    as [e0|sc0];
    [split; [discriminate|]; split;
       [intros sc _; discriminate | intros e [= <-]; auto]|].
  destruct (Js.hasKey "integerRange" dict).
  - destruct (nullish (Js.lookup "integerRange" dict)); cbn [bind].
    + split; [discriminate|]. split; [|intros e [= <-]; auto].
      intros sc (_ & _ & _ & _ & Hrange) _.
      specialize (Hrange eq_refl). discriminate.
    + split; [|split; [eauto | discriminate]].
      intros properties [= <-]. cbn.
      repeat split; auto; discriminate.
  - cbn [bind]. split; [|split; [eauto | discriminate]].
    intros properties [= <-]. cbn.
    repeat split; auto; discriminate.
Qed.

End PropertiesFacts.

Section GeneratorFacts.
Import Exn WhiskerSearchConfiguration.

Lemma operator_errors (dict : Dict) :
  (forall e, _getMutationOperator dict = inl e -> e = TypeError)
  /\ (forall e, _getCrossoverOperator dict = inl e -> e = TypeError).
Proof.
  split; intros e.
  - unfold _getMutationOperator.
    destruct (getProp (Js.lookup "mutation" dict) "operator") as [e0|operator]
      eqn:Hoperator; cbn [bind].
    { intros [= <-]. eapply getProp_error. exact Hoperator. }
    destruct (getProp (Js.lookup "integerRange" dict) "min") as [e0|min]
      eqn:Hmin;
      [destruct (Js.strictEqStr operator "bitflip"); [discriminate|];
       destruct (Js.strictEqStr operator "variablelength"); cbn [bind];
       intros [= <-]; eapply getProp_error; exact Hmin|].
    destruct (getProp (Js.lookup "integerRange" dict) "max") as [e0|max]
      eqn:Hmax;
      [destruct (Js.strictEqStr operator "bitflip"); [discriminate|];
       destruct (Js.strictEqStr operator "variablelength"); cbn [bind];
       intros [= <-]; eapply getProp_error; exact Hmax|].
    destruct (Js.strictEqStr operator "bitflip"); [discriminate|].
    destruct (Js.strictEqStr operator "variablelength"); cbn [bind];
      [|discriminate].
    destruct (getProp (Js.lookup "mutation" dict) "alpha") as [e0|alpha]
      eqn:Halpha; cbn [bind]; [|discriminate].
    intros [= <-]. eapply getProp_error. exact Halpha.
  - unfold _getCrossoverOperator.
    destruct (getProp (Js.lookup "crossover" dict) "operator") as [e0|operator]
      eqn:Hoperator; cbn [bind].
    { intros [= <-]. eapply getProp_error. exact Hoperator. }
    destruct (Js.strictEqStr operator "singlepointrelative"); discriminate.
Qed.

(** X20: whatever the value of [chromosome], [getChromosomeGenerator]
    builds the search properties, the mutation operator and the crossover
    operator, in this order: it succeeds exactly when the three of them
    do, with one of the four generators built from them; an error of
    [getSearchAlgorithmProperties] is the error of the call; and every
    error is a [TypeError] or the [ConfigException] of the stopping
    condition. *)
Theorem getChromosomeGenerator_outcome (dict : Dict) :
  (forall generator,
      getChromosomeGenerator dict = inr generator ->
      exists properties m x,
        getSearchAlgorithmProperties dict = inr properties
        /\ _getMutationOperator dict = inr m
        /\ _getCrossoverOperator dict = inr x
        /\ (generator = BitstringChromosomeGenerator properties m x
            \/ generator = IntegerListChromosomeGenerator properties m x
            \/ generator
               = VariableLengthTestChromosomeGenerator properties m x
                   (Js.lookup "init-var-length" dict)
            \/ generator = TestChromosomeGenerator properties m x))
  /\ (forall properties m x,
         getSearchAlgorithmProperties dict = inr properties ->
         _getMutationOperator dict = inr m ->
         _getCrossoverOperator dict = inr x ->
         exists generator, getChromosomeGenerator dict = inr generator)
  /\ (forall e,
         getSearchAlgorithmProperties dict = inl e ->
         getChromosomeGenerator dict = inl e)
  /\ (forall e,
         getChromosomeGenerator dict = inl e ->
         e = TypeError \/ e = ConfigException "No stopping condition given").
Proof.
  pose proof (getSearchAlgorithmProperties_errors dict) as Hproperties.
  destruct (operator_errors dict) as [Hmutation Hcrossover].
  unfold getChromosomeGenerator.
  destruct (getSearchAlgorithmProperties dict) as [e0|properties].
  { split; [|split; [|split]].
    - intros generator.
      repeat match goal with
             | |- context [if ?b then _ else _] => destruct b
             end; discriminate.
    - discriminate.
    - intros e [= <-].
      repeat match goal with
             | |- context [if ?b then _ else _] => destruct b
             end; reflexivity.
    - intros e.
      repeat match goal with
             | |- context [if ?b then _ else _] => destruct b
             end; intros [= <-]; apply Hproperties; reflexivity. }
  destruct (_getMutationOperator dict) as [e1|m].
  { split; [|split; [|split]].
    - intros generator.
      repeat match goal with
             | |- context [if ?b then _ else _] => destruct b
             end; discriminate.
    - discriminate.
    - discriminate.
    - intros e.
      repeat match goal with
             | |- context [if ?b then _ else _] => destruct b
             end; intros [= <-]; left; apply Hmutation; reflexivity. }
  destruct (_getCrossoverOperator dict) as [e2|x].
  { split; [|split; [|split]].
    - intros generator.
      repeat match goal with
             | |- context [if ?b then _ else _] => destruct b
             end; discriminate.
    - discriminate.
    - discriminate.
    - intros e.
      repeat match goal with
             | |- context [if ?b then _ else _] => destruct b
             end; intros [= <-]; left; apply Hcrossover; reflexivity. }
  split; [|split; [|split]].
  - intros generator.
    repeat match goal with
           | |- context [if ?b then _ else _] => destruct b
           end; intros [= <-]; exists properties, m, x; tauto.
  - intros _ _ _ _ _ _.
    repeat match goal with
           | |- context [if ?b then _ else _] => destruct b
           end; eauto.
  - discriminate.
  - intros e.
    repeat match goal with
           | |- context [if ?b then _ else _] => destruct b
           end; discriminate.
Qed.

End GeneratorFacts.

(** ** Instances of the further properties *)

Lemma scenario_population_NoDup :
  NoDup [Scenario.c1000; Scenario.c1110; Scenario.c1100; Scenario.c0000].
Proof.
  refine (bool_decide_unpack (NoDup (A := nat * list bool) _) _).
  vm_compute. exact I.
Defined.

Lemma fastNonDominatedSorting_ranks_witness :
  exists fronts,
    MOSA.fastNonDominatedSorting Scenario.twoGoals []
      [Scenario.c1000; Scenario.c1110; Scenario.c1100; Scenario.c0000]
    = Some fronts
    /\ concat fronts
       ≡ₚ [Scenario.c1000; Scenario.c1110; Scenario.c1100; Scenario.c0000]
    /\ (forall front p q, front ∈ fronts -> p ∈ front -> q ∈ front ->
          MOSA.dominates Scenario.twoGoals [] p q = false).
Proof.
  destruct (fastNonDominatedSorting_ranks Scenario.twoGoals []
              [Scenario.c1000; Scenario.c1110; Scenario.c1100; Scenario.c0000]
              twoGoals_total scenario_population_NoDup)
    as (fronts & Hrun & Hperm & _ & Hfront).
  exists fronts. auto.
Defined.

Lemma next_population_from_combined_witness :
  exists st w offspringPopulation w1,
    MOSA.iteration Scenario.getLength Scenario.oneGoal Scenario.env
      (Scenario.newMOSA,
       [Scenario.c1110; Scenario.c1100; Scenario.c1000; Scenario.c0000])
      Scenario.mutatingTurn = Some (st, w)
    /\ MOSA.generateOffspringPopulation Scenario.env
         [Scenario.c1110; Scenario.c1100; Scenario.c1000; Scenario.c0000]
         false Scenario.mutatingTurn = Some (offspringPopulation, w1)
    /\ snd st ⊆+ [Scenario.c1110; Scenario.c1100; Scenario.c1000;
                  Scenario.c0000] ++ offspringPopulation
    /\ Z.of_nat (length (snd st)) <= 4.
Proof.
  destruct (MOSA.iteration Scenario.getLength Scenario.oneGoal Scenario.env
              (Scenario.newMOSA,
               [Scenario.c1110; Scenario.c1100; Scenario.c1000; Scenario.c0000])
              Scenario.mutatingTurn) as [[st w]|] eqn:Hrun;
    [|vm_compute in Hrun; discriminate].
  destruct (next_population_from_combined Scenario.getLength Scenario.oneGoal
              Scenario.env (fun l w => Permutation_refl l) Scenario.newMOSA
              [Scenario.c1110; Scenario.c1100; Scenario.c1000; Scenario.c0000]
              Scenario.mutatingTurn st w ltac:(simpl; lia) Hrun)
    as (offspringPopulation & w1 & Hoffspring & _ & Hsub & Hle & _).
  exists st, w, offspringPopulation, w1. auto.
Defined.

Lemma population_size_kept_witness :
  exists st w,
    MOSA.iteration Scenario.getLength Scenario.oneGoal Scenario.env
      (Scenario.newMOSA,
       [Scenario.c1110; Scenario.c1100; Scenario.c1000; Scenario.c0000])
      Scenario.mutatingTurn = Some (st, w)
    /\ Z.of_nat (length (snd st)) = 4.
Proof.
  destruct (MOSA.iteration Scenario.getLength Scenario.oneGoal Scenario.env
              (Scenario.newMOSA,
               [Scenario.c1110; Scenario.c1100; Scenario.c1000; Scenario.c0000])
              Scenario.mutatingTurn) as [[st w]|] eqn:Hrun;
    [|vm_compute in Hrun; discriminate].
  exists st, w. split; [reflexivity|].
  apply (population_size_kept Scenario.getLength Scenario.oneGoal
           Scenario.env Scenario.newMOSA
           [Scenario.c1110; Scenario.c1100; Scenario.c1000; Scenario.c0000]
           Scenario.mutatingTurn st w oneGoal_total
           (fun l w => Permutation_refl l));
    [simpl; lia | reflexivity | | exact Hrun].
  intros offspringPopulation w1 Hoffspring. vm_compute in Hoffspring.
  injection Hoffspring as <- _.
  refine (bool_decide_unpack (NoDup (A := nat * list bool) _) _).
  vm_compute. exact I.
Defined.

Lemma updateArchive_covers_witness :
  exists e,
    JsMap.get 1 (MOSA.updateArchive Scenario.getLength Scenario.twoGoals []
                   [Scenario.c0000; Scenario.c1000]) = Some e
    /\ Scenario.getLength e <= Scenario.getLength Scenario.c1000.
Proof.
  apply (updateArchive_covers Scenario.getLength Scenario.twoGoals []
           [Scenario.c0000; Scenario.c1000] 1 (Scenario.singleBit 0)
           Scenario.c1000).
  - reflexivity.
  - right. left. reflexivity.
  - reflexivity.
  - vm_compute. reflexivity.
Defined.

Lemma all_goals_covered_single_front_witness :
  MOSA.dominates Scenario.oneGoal [(0, Scenario.c1111)]
    Scenario.c1110 Scenario.c1100 = false
  /\ MOSA.preferenceSorting Scenario.getLength Scenario.oneGoal 4
       [(0, Scenario.c1111)] [Scenario.c1100; Scenario.c1110]
     = Some [[Scenario.c1100; Scenario.c1110]].
Proof.
  destruct (all_goals_covered_single_front Scenario.getLength Scenario.oneGoal
              4 [(0, Scenario.c1111)]
              ltac:(intros key [<-|[]]; reflexivity)
              [Scenario.c1100; Scenario.c1110] ltac:(discriminate))
    as [Hdominates Hsorting].
  split; [apply Hdominates | exact Hsorting].
Defined.

Lemma findSolution_result_witness :
  exists best w,
    MOSA.findSolution Scenario.getLength Scenario.twoGoals Scenario.env
      Scenario.afterOneIteration 5 Scenario.newMOSA Scenario.script
    = Some (best, w)
    /\ NoDup best
    /\ (length best <= 2)%nat.
Proof.
  destruct (MOSA.findSolution Scenario.getLength Scenario.twoGoals Scenario.env
              Scenario.afterOneIteration 5 Scenario.newMOSA Scenario.script)
    as [[best w]|] eqn:Hrun; [|vm_compute in Hrun; discriminate].
  destruct (findSolution_result Scenario.getLength Scenario.twoGoals
              Scenario.env Scenario.afterOneIteration 5 Scenario.newMOSA
              Scenario.script best w Hrun)
    as (st & turns & _ & _ & _ & _ & Hnodup & Hlength & _).
  exists best, w. auto.
Defined.

Lemma offspring_without_variation_witness :
  exists offspringPopulation w,
    MOSA.generateOffspringPopulation Scenario.cloning
      [Scenario.c1110; Scenario.c1100] false [50; 50; 99; 99; 99]
    = Some (offspringPopulation, w)
    /\ length offspringPopulation
       = length [Scenario.c1110; Scenario.c1100]
    /\ forall c, c ∈ offspringPopulation ->
                 c ∈ [Scenario.c1110; Scenario.c1100].
Proof.
  destruct (MOSA.generateOffspringPopulation Scenario.cloning
              [Scenario.c1110; Scenario.c1100] false [50; 50; 99; 99; 99])
    as [[offspringPopulation w]|] eqn:Hrun;
    [|vm_compute in Hrun; discriminate].
  exists offspringPopulation, w. split; [reflexivity|].
  refine (offspring_without_variation Scenario.cloning false _ _ _ _
            _ _ _ _ Hrun).
  - intros [|z w0]; unfold Qle; simpl; lia.
  - unfold Qle. simpl. lia.
  - unfold Qle. simpl. lia.
  - discriminate.
Defined.

Lemma subVectorDominanceSorting_ascending_witness :
  exists sorted w,
    MOSA.subVectorDominanceSorting Scenario.twoGoals Scenario.env
      [Scenario.c1000; Scenario.c1110] [] = Some (sorted, w)
    /\ sorted ≡ₚ [Scenario.c1000; Scenario.c1110].
Proof.
  destruct (MOSA.subVectorDominanceSorting Scenario.twoGoals Scenario.env
              [Scenario.c1000; Scenario.c1110] []) as [[sorted w]|] eqn:Hrun;
    [|vm_compute in Hrun; discriminate].
  exists sorted, w. split; [reflexivity|].
  apply (subVectorDominanceSorting_ascending Scenario.twoGoals Scenario.env
           (fun l w => Permutation_refl l) _ _ _ _ Hrun).
Defined.

Lemma svdDistances_largest_witness :
  exists d,
    MOSA.svdDistances Scenario.twoGoals [Scenario.c1000; Scenario.c1110]
      !! Scenario.c1000 = Some d
    /\ 0 <= d <= 2.
Proof.
  destruct (svdDistances_largest Scenario.twoGoals
              [Scenario.c1000; Scenario.c1110] Scenario.c1000 ltac:(left))
    as (d & Hd & Hrange & _).
  exists d. split; [exact Hd | exact Hrange].
Defined.

Lemma generateTests_bookkeeping_witness :
  exists result w,
    Scenario.randomRun [3] = Some (result, w)
    /\ RandomTestGenerator._tests (RandomTestGenerator.this result)
       = map RandomTestGenerator.chromosome
             (RandomTestGenerator.testSuite result)
    /\ RandomTestGenerator.createdTestsCount
         (RandomTestGenerator.statistics result)
       = RandomTestGenerator._iterations (RandomTestGenerator.this result) + 1.
Proof.
  destruct (Scenario.randomRun [3]) as [[result w]|] eqn:Hrun;
    [|vm_compute in Hrun; discriminate].
  destruct (generateTests_bookkeeping Scenario.bitCovered Scenario.bitGoals
              (fun w => (0, w)) Scenario.fresh Scenario.oneIteration
              5 Scenario.newRandom Scenario.noStatistics [3] result w Hrun)
    as (turns & _ & Hiterations & Htests & _ & _ & _ & _ & _ & Hcreated).
  exists result, w. split; [reflexivity|]. split; [exact Htests|].
  rewrite Hcreated, Hiterations. reflexivity.
Defined.

Lemma generateTests_uncovered_goals_witness :
  exists result w,
    Scenario.randomRun [1] = Some (result, w)
    /\ forall g,
         g ∈ RandomTestGenerator.uncoveredGoals result
         <-> g ∈ JsMap.values Scenario.bitGoals
             /\ forall t,
                  t ∈ map RandomTestGenerator.chromosome
                        (RandomTestGenerator.testSuite result) ->
                  Scenario.bitCovered g t = false.
Proof.
  destruct (Scenario.randomRun [1]) as [[result w]|] eqn:Hrun;
    [|vm_compute in Hrun; discriminate].
  exists result, w. split; [reflexivity|].
  apply (generateTests_uncovered_goals Scenario.bitCovered Scenario.bitGoals
           (fun w => (0, w)) Scenario.fresh Scenario.oneIteration
           5 Scenario.newRandom Scenario.noStatistics [1] result w Hrun).
Defined.

Lemma stopping_condition_one_of_witness :
  WhiskerSearchConfiguration._getStoppingCondition
    (Js.VObj Scenario.oneOfCondition)
  = inr (WhiskerSearchConfiguration.OneOfStoppingCondition
           [WhiskerSearchConfiguration.FixedIterationsStoppingCondition
              (Js.VNum 10);
            WhiskerSearchConfiguration.OptimalSolutionStoppingCondition]).
Proof.
  rewrite (stopping_condition_one_of Scenario.oneOfCondition
             [Js.VObj [("type", Js.VStr "fixed-iteration");
                       ("iterations", Js.VNum 10)];
              Js.VObj [("type", Js.VStr "optimal")]] eq_refl eq_refl).
  reflexivity.
Defined.

Lemma stopping_condition_errors_witness :
  WhiskerSearchConfiguration._getStoppingCondition (Js.VObj [])
  = inl (ConfigException "No stopping condition given")
  /\ (ConfigException "No stopping condition given" = TypeError
      \/ ConfigException "No stopping condition given"
         = ConfigException "No stopping condition given").
Proof.
  split; [reflexivity|].
  apply (stopping_condition_errors (Js.VObj [])). reflexivity.
Defined.

Lemma preferenceSorting_any_input_witness :
  exists fronts,
    MOSA.preferenceSorting Scenario.getLength Scenario.twoGoals 4 []
      [Scenario.c1000; Scenario.c1110] = Some fronts
    /\ concat fronts ⊆+ [Scenario.c1000; Scenario.c1110].
Proof.
  destruct (preferenceSorting_any_input Scenario.getLength Scenario.twoGoals
              4 [] [Scenario.c1000; Scenario.c1110] ltac:(discriminate))
    as (fronts & Hrun & Hsub & _).
  exists fronts. auto.
Defined.

Lemma cloning_nextInt lo hi w :
  lo < hi -> lo <= fst (MOSA.nextInt Scenario.cloning lo hi w) < hi.
Proof.
  intros Hlt. cbn [MOSA.nextInt Scenario.cloning].
  destruct (Scenario.draw w) as [z w']. cbn [fst].
  pose proof (Z.mod_pos_bound z 100 ltac:(lia)) as Hmod.
  assert (0 <= (z mod 100) * (hi - lo) / 100 < hi - lo); [|lia].
  split.
  - apply Z.div_pos; [nia | lia].
  - apply Z.div_lt_upper_bound; [lia | nia].
Qed.

Lemma search_turns_return_witness :
  exists st w,
    MOSA.iterate Scenario.getLength Scenario.oneGoal Scenario.cloning 2
      (Scenario.newMOSA, [Scenario.c1110; Scenario.c1100]) [] = Some (st, w)
    /\ snd st <> []
    /\ MOSA._iterations (fst st) = 2.
Proof.
  destruct (search_turns_return Scenario.getLength Scenario.oneGoal
              Scenario.cloning ltac:(simpl; lia) cloning_nextInt
              (fun l w => Permutation_refl l) 2
              (Scenario.newMOSA, [Scenario.c1110; Scenario.c1100]) []
              ltac:(discriminate))
    as (st & w & Hrun & Hnonempty & Hiterations).
  exists st, w. auto.
Defined.

Lemma archive_progress_witness :
  exists st0 w0 st w c',
    MOSA.initialise Scenario.getLength Scenario.twoGoals Scenario.env
      Scenario.newMOSA Scenario.script = Some (st0, w0)
    /\ MOSA.searchLoop Scenario.getLength Scenario.twoGoals Scenario.env
         Scenario.afterOneIteration 5 st0 w0 = Some (st, w)
    /\ JsMap.get 1 (MOSA._archive (fst st0)) = Some Scenario.c1110
    /\ JsMap.get 1 (MOSA._archive (fst st)) = Some c'
    /\ Scenario.getLength c' <= Scenario.getLength Scenario.c1110.
Proof.
  destruct (MOSA.initialise Scenario.getLength Scenario.twoGoals Scenario.env
              Scenario.newMOSA Scenario.script) as [[st0 w0]|] eqn:Hinit;
    [|vm_compute in Hinit; discriminate].
  destruct (MOSA.searchLoop Scenario.getLength Scenario.twoGoals Scenario.env
              Scenario.afterOneIteration 5 st0 w0) as [[st w]|] eqn:Hloop;
    [|vm_compute in Hinit; injection Hinit as <- <-;
      vm_compute in Hloop; discriminate].
  assert (Hentry : JsMap.get 1 (MOSA._archive (fst st0))
                   = Some Scenario.c1110).
  { vm_compute in Hinit. injection Hinit as <- _. reflexivity. }
  destruct (archive_progress Scenario.getLength Scenario.twoGoals Scenario.env
              Scenario.afterOneIteration 5 st0 w0 st w Hloop 1
              Scenario.c1110 Hentry) as (c' & Hc' & Hle).
  exists st0, w0, st, w, c'. auto.
Defined.
